(** * mtg-pod-system: the pod distributor and its history logs

    A shallow embedding of [core/pod_randomizer.py] (class [PodRandomizer])
    and of [TerminalInterface.save_to_history] from
    [interfaces/terminal_app.py].

    Python integers are unbounded, so they are modelled by [Z]; [//] and
    [%] are floor division and the remainder with the sign of the divisor,
    which is what [Z.div] and [Z.modulo] compute for a non-zero divisor.
    A zero divisor raises [ZeroDivisionError] in Python and is modelled
    explicitly.  A Python [float] is an IEEE 754 binary64 number, modelled
    by [spec_float] of the Standard Library; [/] on two integers is the
    correctly rounded quotient and raises [OverflowError] when that is
    beyond the largest float.  Lists of names are [list string]. *)

From Stdlib Require Import ZArith Lia SpecFloat.
From stdpp Require Import gmap strings list fin_maps.

Local Open Scope Z_scope.

(** ** Outcomes of a call *)

Inductive exn : Set :=
| ZeroDivisionError
| OverflowError.

(** [Returns v]: the call returns [v].  [Raises e]: the call raises [e].
    [OutOfFuel]: the [while] loop was still running when the fuel of the
    model ran out. *)
Inductive outcome (A : Type) : Type :=
| Returns (v : A)
| Raises (e : exn)
| OutOfFuel.

Arguments Returns {A} v.
Arguments Raises {A} e.
Arguments OutOfFuel {A}.

(** ** Python sequence operations *)

Section PySeq.
Context {A : Type}.

Definition len (l : list A) : Z := Z.of_nat (length l).

(** How a slice bound is normalised: a negative bound counts from the
    end, then the bound is clipped to [0 .. len]. *)
Definition slice_bound (l : list A) (x : Z) : Z :=
  if x <? 0 then Z.max 0 (x + len l) else Z.min x (len l).

(** [l[a:b]] *)
Definition py_slice (l : list A) (a b : Z) : list A :=
  let a' := slice_bound l a in
  let b' := slice_bound l b in
  take (Z.to_nat (b' - a')) (drop (Z.to_nat a') l).

(** [l[a:]] *)
Definition py_slice_from (l : list A) (a : Z) : list A :=
  drop (Z.to_nat (slice_bound l a)) l.
End PySeq.

(** [range(a, b)] *)
Definition py_range (a b : Z) : list Z :=
  map (fun i => a + Z.of_nat i) (seq 0 (Z.to_nat (b - a))).

(** ** Pods *)

Record Pod : Set := mkPod {
  id : Z;
  players : list string;
  size : Z
}.

(** All the names held by a list of pods, in pod order. *)
Definition all_players (pods : list Pod) : list string :=
  concat (map players pods).

(** ** [PodRandomizer._simple_distribution] *)

(** [pods[-1].players.extend(extra); pods[-1].size = len(pods[-1].players)] *)
Fixpoint extend_last (pods : list Pod) (extra : list string) : list Pod :=
  match pods with
  | [] => []
  | [p] =>
      let ps := players p ++ extra in
      [mkPod (id p) ps (len ps)]
  | p :: rest => p :: extend_last rest extra
  end.

(** [len(pods[-1].players)], for a non-empty [pods]. *)
Definition last_players (pods : list Pod) : list string :=
  match last pods with
  | Some p => players p
  | None => []
  end.

Definition nonempty {A} (l : list A) : bool :=
  match l with [] => false | _ => true end.

(** The [while i < len(players)] loop; one unit of fuel per iteration. *)
Fixpoint simple_loop (fuel : nat) (ps : list string) (target_size max_size : Z)
    (pods : list Pod) (pod_id i : Z) : outcome (list Pod) :=
  if i <? len ps then
    match fuel with
    | O => OutOfFuel
    | S fuel' =>
        let remaining_players := len ps - i in
        let pod_size := Z.min target_size remaining_players in
        let create (pod_size : Z) :=
          let pod_players := py_slice ps i (i + pod_size) in
          simple_loop fuel' ps target_size max_size
            (pods ++ [mkPod pod_id pod_players (len pod_players)])
            (pod_id + 1) (i + pod_size) in
        if (remaining_players <? 3) && nonempty pods then
          if len (last_players pods) + remaining_players <=? max_size then
            Returns (extend_last pods (py_slice_from ps i))
          else if remaining_players >? 0 then
            create remaining_players
          else
            create pod_size
        else
          create pod_size
    end
  else Returns pods.

Definition _simple_distribution (fuel : nat) (ps : list string)
    (target_size max_size : Z) : outcome (list Pod) :=
  simple_loop fuel ps target_size max_size [] 1 0.

(** ** [PodRandomizer._calculate_pod_distribution] *)

(** The inner loop [for i in range(num_pods)], threading [current_pods]
    and [current_index]. *)
Fixpoint build_pods (ps : list string) (max_size base_size remainder : Z)
    (idx : list Z) (current_pods : list Pod) (current_index : Z)
    : list Pod * Z :=
  match idx with
  | [] => (current_pods, current_index)
  | i :: idx' =>
      let pod_size := base_size + (if i <? remainder then 1 else 0) in
      if pod_size =? 0 then
        build_pods ps max_size base_size remainder idx'
          current_pods current_index
      else
        let pod_size := Z.max 3 (Z.min pod_size max_size) in
        let pod_players :=
          py_slice ps current_index (current_index + pod_size) in
        build_pods ps max_size base_size remainder idx'
          (current_pods ++ [mkPod (i + 1) pod_players (len pod_players)])
          (current_index + pod_size)
  end.

(** One candidate pod count: the pods it builds and the index reached. *)
Definition candidate (ps : list string) (max_size num_pods : Z)
    : list Pod * Z :=
  let total_players := len ps in
  let base_size := total_players / num_pods in
  let remainder := total_players mod num_pods in
  build_pods ps max_size base_size remainder (py_range 0 num_pods) [] 0.

(** The test [current_index >= total_players] on a non-zero candidate. *)
Definition accepted (ps : list string) (max_size num_pods : Z) : bool :=
  negb (num_pods =? 0) && (snd (candidate ps max_size num_pods) >=? len ps).

(** The acceptance test as the specification words it: the sizes of the
    pods built for the candidate add up to exactly the number of names,
    with no name left over and no place left unfilled.  It is compared
    with [accepted], the test of the code, below. *)
Definition exact_fit (ps : list string) (max_size num_pods : Z) : Prop :=
  num_pods <> 0 /\ snd (candidate ps max_size num_pods) = len ps.

(** The outer loop [for num_pods in range(min_pods, max_pods + 1)]; the
    result is the value of [pods] after the loop, [[]] when no candidate
    was accepted. *)
Fixpoint search (ps : list string) (max_size : Z) (cands : list Z)
    : list Pod :=
  match cands with
  | [] => []
  | num_pods :: cands' =>
      if num_pods =? 0 then search ps max_size cands'
      else
        let '(current_pods, current_index) := candidate ps max_size num_pods in
        if current_index >=? len ps then current_pods
        else search ps max_size cands'
  end.

Definition min_pods (total_players max_size : Z) : Z :=
  (total_players + max_size - 1) / max_size.

Definition max_pods (total_players target_size : Z) : Z :=
  (total_players + target_size - 1) / target_size.

Definition _calculate_pod_distribution (fuel : nat) (ps : list string)
    (target_size max_size : Z) : outcome (list Pod) :=
  let total_players := len ps in
  if max_size =? 0 then Raises ZeroDivisionError
  else if target_size =? 0 then Raises ZeroDivisionError
  else
    let lo := min_pods total_players max_size in
    let hi := max_pods total_players target_size in
    match search ps max_size (py_range lo (hi + 1)) with
    | [] => _simple_distribution fuel ps target_size max_size
    | pods => Returns pods
    end.

(** ** [PodRandomizer.create_pods] *)

(** [max(3, min(target_size, max_size))] *)
Definition clamp_target (target_size max_size : Z) : Z :=
  Z.max 3 (Z.min target_size max_size).

(** [random.shuffle] is a parameter: any function on name lists.  The
    theorems that need it assume it returns a permutation of its input.
    The state of the object is its [history]; a call returns its outcome
    and the new history. *)
Definition create_pods (shuffle : list string -> list string) (fuel : nat)
    (history : list (list Pod)) (ps : list string) (target_size max_size : Z)
    : outcome (list Pod) * list (list Pod) :=
  match ps with
  | [] => (Returns [], history)
  | _ =>
      let target_size := clamp_target target_size max_size in
      let shuffled_players := shuffle ps in
      match _calculate_pod_distribution fuel shuffled_players
              target_size max_size with
      | Returns pods => (Returns pods, history ++ [pods])
      | Raises e => (Raises e, history)
      | OutOfFuel => (OutOfFuel, history)
      end
  end.

(** ** Python numbers

    A [float] is a binary64 number: 53 bits of precision, exponents up to
    1024. *)

Definition prec : Z := 53.
Definition emax : Z := 1024.

(** A value that is an [int] or a [float]. *)
Inductive pynum : Set :=
| PyInt (n : Z)
| PyFloat (f : spec_float).

(** [a / b] on two [int]s ([long_true_divide]).  A zero divisor raises
    [ZeroDivisionError]; a zero dividend gives a zero with the sign of the
    divisor; otherwise the result is the exact quotient rounded to the
    nearest float, ties to even, and when the rounded quotient is beyond
    the largest float Python raises [OverflowError] where IEEE 754 division
    would give an infinity.  The integers are passed to [SFdiv] exactly,
    as mantissas of any length with exponent 0. *)
Definition int_truediv (a b : Z) : outcome spec_float :=
  match b with
  | 0 => Raises ZeroDivisionError
  | _ =>
      match a with
      | 0 => Returns (S754_zero (b <? 0))
      | _ =>
          match SFdiv prec emax
                  (S754_finite (a <? 0) (Z.to_pos (Z.abs a)) 0)
                  (S754_finite (b <? 0) (Z.to_pos (Z.abs b)) 0) with
          | S754_infinity _ => Raises OverflowError
          | f => Returns f
          end
      end
  end.

(** ** [PodRandomizer.get_statistics] *)

(** The returned dict.  The keys [min_pod_size], [max_pod_size] and
    [pod_sizes] are absent from the dict built for an empty pod list; an
    absent key is [None].  [avg_pod_size] is the [int] 0 for an empty pod
    list and otherwise the [float] that [/] returns. *)
Record Statistics : Set := mkStatistics {
  total_pods : Z;
  total_players : Z;
  avg_pod_size : pynum;
  min_pod_size : option Z;
  max_pod_size : option Z;
  pod_sizes : option (list Z)
}.

(** [sum(...)] over integers *)
Definition py_sum (l : list Z) : Z := fold_left Z.add l 0.

(** [min(l)] and [max(l)]; Python raises on an empty list, which
    [get_statistics] never passes. *)
Definition py_min (l : list Z) : option Z :=
  match l with
  | [] => None
  | x :: rest => Some (fold_left Z.min rest x)
  end.

Definition py_max (l : list Z) : option Z :=
  match l with
  | [] => None
  | x :: rest => Some (fold_left Z.max rest x)
  end.

(** The entries of the dict are evaluated in order; the division is the
    only one that can raise, and then no dict is returned. *)
Definition get_statistics (pods : list Pod) : outcome Statistics :=
  match pods with
  | [] => Returns (mkStatistics 0 0 (PyInt 0) None None None)
  | _ =>
      let total_players := py_sum (map size pods) in
      let pod_sizes := map size pods in
      match int_truediv total_players (len pods) with
      | Returns avg =>
          Returns (mkStatistics (len pods) total_players (PyFloat avg)
                     (py_min pod_sizes) (py_max pod_sizes) (Some pod_sizes))
      | Raises e => Raises e
      | OutOfFuel => OutOfFuel
      end
  end.

(** ** The in-memory history of [PodRandomizer], with object identity

    [self.history] is a list object holding references to the pod lists
    that [create_pods] returned; [get_history] returns
    [self.history.copy()], a new list object holding the same references.
    To say what a caller can reach through that value the objects live in a
    heap. *)

Module Heap.

Abbreviation loc := positive (only parsing).

Inductive pyobj : Set :=
| PyList (items : list loc)        (* a list of references *)
| PyNames (names : list string)    (* a list of str *)
| PyPod (pod_id : Z) (pod_players : loc) (pod_size : Z).

Abbreviation heap := (gmap positive pyobj) (only parsing).

Definition alloc (h : heap) (o : pyobj) : loc * heap :=
  let l := fresh (dom h) in (l, <[l := o]> h).

(** Building the objects of one [Pod(id=..., players=..., size=...)]. *)
Definition alloc_pod (h : heap) (p : Pod) : loc * heap :=
  let '(lp, h1) := alloc h (PyNames (players p)) in
  alloc h1 (PyPod (id p) lp (size p)).

Fixpoint alloc_pods (h : heap) (pods : list Pod) : list loc * heap :=
  match pods with
  | [] => ([], h)
  | p :: rest =>
      let '(l, h1) := alloc_pod h p in
      let '(ls, h2) := alloc_pods h1 rest in
      (l :: ls, h2)
  end.

(** The list object of pods that a distribution returns. *)
Definition alloc_pod_list (h : heap) (pods : list Pod) : loc * heap :=
  let '(ls, h1) := alloc_pods h pods in
  alloc h1 (PyList ls).

(** Reading objects back as values. *)
Definition read_pod (h : heap) (l : loc) : option Pod :=
  match h !! l with
  | Some (PyPod i lp s) =>
      match h !! lp with
      | Some (PyNames ns) => Some (mkPod i ns s)
      | _ => None
      end
  | _ => None
  end.

Definition read_pod_list (h : heap) (l : loc) : option (list Pod) :=
  match h !! l with
  | Some (PyList ls) => mapM (read_pod h) ls
  | _ => None
  end.

Definition read_history (h : heap) (l : loc) : option (list (list Pod)) :=
  match h !! l with
  | Some (PyList ls) => mapM (read_pod_list h) ls
  | _ => None
  end.

(** A [PodRandomizer] object: the reference held in [self.history]. *)
Record PodRandomizer : Set := mkPodRandomizer { history : loc }.

(** [__init__]: [self.history = []] *)
Definition init (h : heap) : PodRandomizer * heap :=
  let '(l, h1) := alloc h (PyList []) in (mkPodRandomizer l, h1).

(** [self.history.append(pods)] *)
Definition history_append (h : heap) (self : PodRandomizer) (pods : loc)
    : option heap :=
  match h !! history self with
  | Some (PyList ls) => Some (<[history self := PyList (ls ++ [pods])]> h)
  | _ => None
  end.

(** [create_pods] on objects: the pods computed by
    [_calculate_pod_distribution] become objects, the reference to their
    list is appended to [self.history] and returned. *)
Definition create_pods (shuffle : list string -> list string) (fuel : nat)
    (h : heap) (self : PodRandomizer) (ps : list string)
    (target_size max_size : Z) : option (outcome loc * heap) :=
  match ps with
  | [] => let '(l, h1) := alloc h (PyList []) in Some (Returns l, h1)
  | _ =>
      let target_size := clamp_target target_size max_size in
      match _calculate_pod_distribution fuel (shuffle ps)
              target_size max_size with
      | Returns pods =>
          let '(l, h1) := alloc_pod_list h pods in
          h2 ← history_append h1 self l;
          Some (Returns l, h2)
      | Raises e => Some (Raises e, h)
      | OutOfFuel => Some (OutOfFuel, h)
      end
  end.

(** [get_history]: [return self.history.copy()] *)
Definition get_history (h : heap) (self : PodRandomizer)
    : option (loc * heap) :=
  match h !! history self with
  | Some (PyList ls) => Some (alloc h (PyList ls))
  | _ => None
  end.

(** [clear_history]: [self.history.clear()] *)
Definition clear_history (h : heap) (self : PodRandomizer) : option heap :=
  match h !! history self with
  | Some (PyList _) => Some (<[history self := PyList []]> h)
  | _ => None
  end.

(** What a caller can do to a value it received as the reference [r]:
    change the list [r] itself in place, change in place the list
    [r[i]], assign the attributes of the object [r[i][j]], or change in
    place the list [r[i][j].players]. *)
Inductive mutation : Set :=
| SetOuter (items : list loc)
| SetInner (i : nat) (items : list loc)
| SetPod (i j : nat) (pod_id : Z) (pod_players : loc) (pod_size : Z)
| SetNames (i j : nat) (names : list string).

Definition deref_list (h : heap) (l : loc) : option (list loc) :=
  match h !! l with
  | Some (PyList ls) => Some ls
  | _ => None
  end.

Definition deref_pod_players (h : heap) (l : loc) : option loc :=
  match h !! l with
  | Some (PyPod _ lp _) => Some lp
  | _ => None
  end.

(** [None] when the indices do not lead to an object (Python raises). *)
Definition mutate (h : heap) (r : loc) (m : mutation) : option heap :=
  match m with
  | SetOuter items =>
      _ ← deref_list h r; Some (<[r := PyList items]> h)
  | SetInner i items =>
      outer ← deref_list h r;
      li ← outer !! i;
      _ ← deref_list h li;
      Some (<[li := PyList items]> h)
  | SetPod i j pid pp psz =>
      outer ← deref_list h r;
      li ← outer !! i;
      inner ← deref_list h li;
      lp ← inner !! j;
      _ ← deref_pod_players h lp;
      Some (<[lp := PyPod pid pp psz]> h)
  | SetNames i j ns =>
      outer ← deref_list h r;
      li ← outer !! i;
      inner ← deref_list h li;
      lp ← inner !! j;
      ln ← deref_pod_players h lp;
      Some (<[ln := PyNames ns]> h)
  end.

End Heap.

(** ** [TerminalInterface.save_to_history]

    The stored history is the list under the key ["history"] of
    [history.json]: [load_history] returns it and [save_history] replaces
    it.  Storage failures are outside the model.  The timestamp
    [datetime.now().isoformat()] and [self.config['max_history_items']]
    are parameters. *)

Record HistoryEntry : Set := mkHistoryEntry {
  timestamp : string;
  pods : list Pod
}.

Definition save_to_history (now : string) (max_items : Z)
    (stored : list HistoryEntry) (pods : list Pod) : list HistoryEntry :=
  let history_entry := mkHistoryEntry now pods in
  let history := stored ++ [history_entry] in
  if len history >? max_items then py_slice_from history (- max_items)
  else history.

(** A run of [save_to_history] calls, oldest first. *)
Definition save_all (max_items : Z) (stored : list HistoryEntry)
    (calls : list (string * list Pod)) : list HistoryEntry :=
  fold_left (fun st c => save_to_history (fst c) max_items st (snd c))
    calls stored.

Definition entry_of (c : string * list Pod) : HistoryEntry :=
  mkHistoryEntry (fst c) (snd c).

(** The last [n] elements of a list. *)
Definition suffix {A} (n : nat) (l : list A) : list A :=
  drop (length l - n) l.

(** ** Files

    [DataStorage], [SyncManager] and [PlayerManager] keep JSON documents
    in files of the data directory.  A file is missing, or unreadable
    ([json.load] raises on it), or holds a document.  [json.dump] followed
    by [json.load] gives the document back, so a file holds the document
    itself.  The documents are those this program writes: objects whose
    keys, when present, have values of the expected type; an absent key is
    [None].  Writing is taken to succeed (no full disk, no permission
    error). *)

Inductive file (A : Type) : Type :=
| Missing
| Unreadable
| Doc (d : A).

Arguments Missing {A}.
Arguments Unreadable {A}.
Arguments Doc {A} d.

(** The values of a configuration dict. *)
Inductive cfgval : Set :=
| CInt (z : Z)
| CBool (b : bool)
| CStr (s : string).

Record PlayersDoc : Set := mkPlayersDoc {
  pd_players : option (list string);
  pd_count : option Z;
  pd_last_saved : option string;
  pd_last_updated : option string
}.

Record HistoryDoc : Set := mkHistoryDoc {
  hd_history : option (list HistoryEntry);
  hd_count : option Z;
  hd_last_saved : option string
}.

Record ExportDoc : Type := mkExportDoc {
  ex_players : option (list string);
  ex_config : option (gmap string cfgval);
  ex_history : option (list HistoryEntry);
  ex_export_timestamp : option string;
  ex_version : option string
}.

Record WebDoc : Type := mkWebDoc {
  web_players : option (list string);
  web_config : option (gmap string cfgval);
  web_history : option (list HistoryEntry);
  web_last_sync : option string;
  web_sync_source : option string;
  web_version : option string
}.

Record LogEntry : Set := mkLogEntry {
  log_timestamp : string;
  log_sync_type : string;
  log_player_count : Z;
  log_history_count : Z
}.

(** A backup folder: the copies of the three data files, [Missing] for a
    file that was not there to copy. *)
Record Backup : Type := mkBackup {
  bk_players : file PlayersDoc;
  bk_config : file (gmap string cfgval);
  bk_history : file HistoryDoc
}.

(** The data directory: [players.json], [config.json], [history.json],
    the folders under [backups/] by name, [web_sync.json],
    [sync_log.json], and the files written by exports, by path (paths
    other than those of the data files). *)
Record disk : Type := mkDisk {
  players_json : file PlayersDoc;
  config_json : file (gmap string cfgval);
  history_json : file HistoryDoc;
  backup_dirs : gmap string Backup;
  web_sync_json : file WebDoc;
  sync_log_json : file (list LogEntry);
  export_files : gmap string (file ExportDoc)
}.

Definition set_players_json (f : file PlayersDoc) (d : disk) : disk :=
  mkDisk f (config_json d) (history_json d) (backup_dirs d)
    (web_sync_json d) (sync_log_json d) (export_files d).

Definition set_config_json (f : file (gmap string cfgval)) (d : disk) : disk :=
  mkDisk (players_json d) f (history_json d) (backup_dirs d)
    (web_sync_json d) (sync_log_json d) (export_files d).

Definition set_history_json (f : file HistoryDoc) (d : disk) : disk :=
  mkDisk (players_json d) (config_json d) f (backup_dirs d)
    (web_sync_json d) (sync_log_json d) (export_files d).

Definition set_backup_dirs (b : gmap string Backup) (d : disk) : disk :=
  mkDisk (players_json d) (config_json d) (history_json d) b
    (web_sync_json d) (sync_log_json d) (export_files d).

Definition set_web_sync_json (f : file WebDoc) (d : disk) : disk :=
  mkDisk (players_json d) (config_json d) (history_json d) (backup_dirs d)
    f (sync_log_json d) (export_files d).

Definition set_sync_log_json (f : file (list LogEntry)) (d : disk) : disk :=
  mkDisk (players_json d) (config_json d) (history_json d) (backup_dirs d)
    (web_sync_json d) f (export_files d).

Definition set_export_files (e : gmap string (file ExportDoc)) (d : disk)
    : disk :=
  mkDisk (players_json d) (config_json d) (history_json d) (backup_dirs d)
    (web_sync_json d) (sync_log_json d) e.

(** A data directory with no file in it. *)
Definition empty_disk : disk :=
  mkDisk Missing Missing Missing ∅ Missing Missing ∅.

(** The file at an export path. *)
Definition export_file (d : disk) (path : string) : file ExportDoc :=
  match export_files d !! path with
  | Some f => f
  | None => Missing
  end.

(** ** [PlayerManager] (core/player_manager.py)

    The state of the object that matters here is [self.players], the
    roster.  [str.strip] and [str.lower] are parameters: any functions on
    strings; a property that needs a fact about them states it. *)

Module PlayerManager.
Section WithStr.
Variables strip lower : string -> string.

(** [name.lower() in [p.lower() for p in self.players]] *)
Definition known (players : list string) (name : string) : bool :=
  bool_decide (lower name ∈ map lower players).

Definition add_player (players : list string) (name : string)
    : bool * list string :=
  let name := strip name in
  if decide (name = ""%string) then (false, players)
  else if known players name then (false, players)
  else (true, players ++ [name]).

(** [l.remove(x)]: the first occurrence goes. *)
Fixpoint list_remove (x : string) (l : list string) : list string :=
  match l with
  | [] => []
  | y :: l' => if decide (y = x) then l' else y :: list_remove x l'
  end.

Definition remove_player (players : list string) (name : string)
    : bool * list string :=
  let name := strip name in
  if bool_decide (name ∈ players) then (true, list_remove name players)
  else (false, players).

Definition get_players (players : list string) : list string := players.

Definition get_player_count (players : list string) : Z := len players.

Definition clear_players (players : list string) : list string := [].

(** The loop of [import_players_from_list], threading [self.players] and
    [added]. *)
Fixpoint import_loop (player_list players : list string) (added : Z)
    : Z * list string :=
  match player_list with
  | [] => (added, players)
  | name :: rest =>
      let name := strip name in
      if negb (bool_decide (name = ""%string)) && negb (known players name)
      then import_loop rest (players ++ [name]) (added + 1)
      else import_loop rest players added
  end.

Definition import_players_from_list (players player_list : list string)
    : Z * list string :=
  import_loop player_list players 0.

(** [q in s] on strings: [q] occurs in [s]. *)
Fixpoint contains (s q : string) : bool :=
  String.prefix q s ||
  match s with
  | EmptyString => false
  | String _ s' => contains s' q
  end.

Definition search_players (players : list string) (query : string)
    : list string :=
  let query := lower query in
  filter (fun p => Is_true (contains (lower p) query)) players.

End WithStr.

(** [save_players] and [load_players], on [players.json]: the result and,
    for [load_players], the roster afterwards. *)
Definition save_players (now : string) (players : list string) (d : disk)
    : bool * disk :=
  (true,
   set_players_json (Doc (mkPlayersDoc (Some players) None None (Some now))) d).

Definition load_players (players : list string) (d : disk)
    : bool * list string :=
  match players_json d with
  | Missing => (true, players)
  | Unreadable => (false, [])
  | Doc doc => (true, default [] (pd_players doc))
  end.

(** [str.lower] and [str.strip] on ASCII text, for examples: upper-case
    letters go to lower case; the characters that [strip] removes at both
    ends are tab, line feed, vertical tab, form feed, carriage return, the
    separators 28 to 31 and the space. *)
Definition ascii_lower_char (c : Ascii.ascii) : Ascii.ascii :=
  let n := Ascii.nat_of_ascii c in
  if (65 <=? n)%nat && (n <=? 90)%nat then Ascii.ascii_of_nat (n + 32) else c.

Fixpoint ascii_lower (s : string) : string :=
  match s with
  | EmptyString => EmptyString
  | String c s' => String (ascii_lower_char c) (ascii_lower s')
  end.

Definition ascii_space (c : Ascii.ascii) : bool :=
  let n := Ascii.nat_of_ascii c in
  ((9 <=? n)%nat && (n <=? 13)%nat) || ((28 <=? n)%nat && (n <=? 32)%nat).

Fixpoint lstrip (s : string) : string :=
  match s with
  | EmptyString => EmptyString
  | String c s' => if ascii_space c then lstrip s' else s
  end.

Fixpoint rstrip (s : string) : string :=
  match s with
  | EmptyString => EmptyString
  | String c s' =>
      match rstrip s' with
      | EmptyString => if ascii_space c then EmptyString else String c EmptyString
      | r => String c r
      end
  end.

Definition ascii_strip (s : string) : string := rstrip (lstrip s).

End PlayerManager.

(** ** [DataStorage] (core/data_storage.py)

    [save_json] sets [data['last_saved']] and writes the dict; [load_json]
    returns the document, or [{}] for a missing or unreadable file.  The
    timestamps [datetime.now()] are parameters. *)

Module DataStorage.

Definition save_players (now : string) (players : list string) (d : disk)
    : bool * disk :=
  (true,
   set_players_json
     (Doc (mkPlayersDoc (Some players) (Some (len players)) (Some now) None))
     d).

(** [data.get("players", [])] on what [load_json] returned. *)
Definition load_players (d : disk) : list string :=
  match players_json d with
  | Doc doc => default [] (pd_players doc)
  | _ => []
  end.

(** [save_config] passes the caller's dict to [save_json], which adds the
    key [last_saved] to it: the result holds the dict as the caller sees
    it afterwards. *)
Definition save_config (now : string) (config : gmap string cfgval) (d : disk)
    : bool * gmap string cfgval * disk :=
  let config := <["last_saved"%string := CStr now]> config in
  (true, config, set_config_json (Doc config) d).

Definition default_config : gmap string cfgval :=
  {[ "default_pod_size"%string := CInt 4;
     "max_pod_size"%string := CInt 8;
     "min_pod_size"%string := CInt 3;
     "auto_save"%string := CBool true;
     "keep_history"%string := CBool true;
     "max_history_items"%string := CInt 50 ]}.

(** [{**default_config, **data}]: the keys of [data] win. *)
Definition load_config (d : disk) : gmap string cfgval :=
  let data := match config_json d with Doc c => c | _ => ∅ end in
  data ∪ default_config.

Definition save_history (now : string) (history : list HistoryEntry) (d : disk)
    : bool * disk :=
  (true,
   set_history_json
     (Doc (mkHistoryDoc (Some history) (Some (len history)) (Some now))) d).

Definition load_history (d : disk) : list HistoryEntry :=
  match history_json d with
  | Doc doc => default [] (hd_history doc)
  | _ => []
  end.

(** [create_backup]: [stamp] is [datetime.now().strftime(...)].
    [os.makedirs] raises when the folder exists, and the method then
    returns [False]. *)
Definition create_backup (stamp : string) (d : disk) : bool * disk :=
  let backup_folder := ("backup_" ++ stamp)%string in
  match backup_dirs d !! backup_folder with
  | Some _ => (false, d)
  | None =>
      (true,
       set_backup_dirs
         (<[backup_folder :=
              mkBackup (players_json d) (config_json d) (history_json d)]>
            (backup_dirs d)) d)
  end.

(** One file of [restore_backup]: copied over when the backup has it. *)
Definition restore_file {A} (saved current : file A) : file A :=
  match saved with
  | Missing => current
  | _ => saved
  end.

(** [restore_backup]; [backup_name] names a folder under [backups/]. *)
Definition restore_backup (backup_name : string) (d : disk) : bool * disk :=
  match backup_dirs d !! backup_name with
  | None => (false, d)
  | Some b =>
      (true,
       mkDisk (restore_file (bk_players b) (players_json d))
         (restore_file (bk_config b) (config_json d))
         (restore_file (bk_history b) (history_json d))
         (backup_dirs d) (web_sync_json d) (sync_log_json d)
         (export_files d))
  end.

Definition export_data (now : string) (export_path : string) (d : disk)
    : bool * disk :=
  let export_data :=
    mkExportDoc (Some (load_players d)) (Some (load_config d))
      (Some (load_history d)) (Some now) (Some "1.0"%string) in
  (true,
   set_export_files (<[export_path := Doc export_data]> (export_files d)) d).

(** [import_data].  [set_order] is [list(set(...))], a parameter: the
    order in which a set is listed is not specified.  [now 0], [now 1],
    [now 2] are the timestamps of the successive writes. *)
Definition import_data (set_order : list string -> list string)
    (now : nat -> string) (import_path : string) (merge : bool) (d : disk)
    : bool * disk :=
  match export_file d import_path with
  | Missing | Unreadable => (false, d)
  | Doc import_data =>
      if merge then
        let current_players := load_players d in
        let import_players := default [] (ex_players import_data) in
        let all_players := set_order (current_players ++ import_players) in
        let d := snd (save_players (now 0%nat) all_players d) in
        let import_config := default ∅ (ex_config import_data) in
        let current_config := load_config d in
        let merged_config := import_config ∪ current_config in
        let d := snd (save_config (now 1%nat) merged_config d) in
        (true, d)
      else
        let d :=
          snd (save_players (now 0%nat)
                 (default [] (ex_players import_data)) d) in
        let d :=
          snd (save_config (now 1%nat)
                 (default ∅ (ex_config import_data)) d) in
        let d :=
          snd (save_history (now 2%nat)
                 (default [] (ex_history import_data)) d) in
        (true, d)
  end.

End DataStorage.

(** ** [SyncManager] (utils/sync_utils.py) *)

Module SyncManager.

(** [_log_sync]: an unreadable log raises inside the [try]; the handler
    prints and nothing is written. *)
Definition _log_sync (now : string) (sync_type : string)
    (player_count history_count : Z) (d : disk) : disk :=
  let log_entry := mkLogEntry now sync_type player_count history_count in
  let write (logs : list LogEntry) :=
    let logs := logs ++ [log_entry] in
    let logs := if len logs >? 50 then py_slice_from logs (- 50) else logs in
    set_sync_log_json (Doc logs) d in
  match sync_log_json d with
  | Missing => write []
  | Unreadable => d
  | Doc logs => write logs
  end.

Definition sync_terminal_to_web (now : nat -> string) (players : list string)
    (config : gmap string cfgval) (history : list HistoryEntry) (d : disk)
    : bool * disk :=
  let web_data :=
    mkWebDoc (Some players) (Some config) (Some history)
      (Some (now 0%nat)) (Some "terminal"%string) (Some "1.0"%string) in
  let d := set_web_sync_json (Doc web_data) d in
  let d := _log_sync (now 1%nat) "terminal_to_web" (len players)
             (len history) d in
  (true, d).

(** [sync_web_to_terminal]; [storage_manager] is the [DataStorage] of the
    same data directory. *)
Definition sync_web_to_terminal (now : nat -> string) (d : disk)
    : bool * disk :=
  match web_sync_json d with
  | Missing => (false, d)
  | Unreadable => (false, d)
  | Doc web_data =>
      let d :=
        match web_players web_data with
        | Some ps => snd (DataStorage.save_players (now 0%nat) ps d)
        | None => d
        end in
      let d :=
        match web_config web_data with
        | Some c => snd (DataStorage.save_config (now 1%nat) c d)
        | None => d
        end in
      let d :=
        match web_history web_data with
        | Some h => snd (DataStorage.save_history (now 2%nat) h d)
        | None => d
        end in
      let d :=
        _log_sync (now 3%nat) "web_to_terminal"
          (len (default [] (web_players web_data)))
          (len (default [] (web_history web_data))) d in
      (true, d)
  end.

Definition get_web_data (d : disk) : option WebDoc :=
  match web_sync_json d with
  | Doc w => Some w
  | _ => None
  end.

(** The object: its attributes by name.  [os.path.join] on a directory
    name without trailing separator. *)
Definition path_join (dir name : string) : string :=
  (dir ++ "/" ++ name)%string.

Definition init (data_dir : string) : gmap string string :=
  {[ "data_dir"%string := data_dir;
     "web_data_file"%string := path_join data_dir "web_sync.json";
     "terminal_data_file"%string := path_join data_dir "terminal_sync.json";
     "sync_log_file"%string := path_join data_dir "sync_log.json" ]}.

Record Status : Set := mkStatus {
  web_sync_exists : bool;
  terminal_sync_exists : bool;
  last_sync : option string;
  sync_count : Z
}.

Inductive status_outcome : Set :=
| StatusReturned (s : Status)
| AttributeError (attribute : string).

Definition exists_file {A} (f : file A) : bool :=
  match f with Missing => false | _ => true end.

(** [get_sync_status]: the dict literal reads [self.web_data_file], then
    [self.terminal_sync_file]; an attribute the object does not have
    raises [AttributeError].  The log is read inside a [try] whose handler
    passes.  [terminal_exists] stands for [os.path.exists] of the second
    path. *)
Definition get_sync_status (self : gmap string string) (terminal_exists : bool)
    (d : disk) : status_outcome :=
  match self !! "web_data_file"%string with
  | None => AttributeError "web_data_file"
  | Some _ =>
      match self !! "terminal_sync_file"%string with
      | None => AttributeError "terminal_sync_file"
      | Some _ =>
          let status :=
            mkStatus (exists_file (web_sync_json d)) terminal_exists
              None 0 in
          match self !! "sync_log_file"%string with
          | None => StatusReturned status
          | Some _ =>
              match sync_log_json d with
              | Doc logs =>
                  match last logs with
                  | Some e =>
                      StatusReturned
                        (mkStatus (exists_file (web_sync_json d))
                           terminal_exists (Some (log_timestamp e))
                           (len logs))
                  | None => StatusReturned status
                  end
              | _ => StatusReturned status
              end
          end
      end
  end.

End SyncManager.

(** ** [TerminalInterface] (interfaces/terminal_app.py)

    What the menu entries do to the state: the history of the
    [PodRandomizer] and the disk.  Printing and the prompts that only
    wait are left out; the values read from [self.config] are
    parameters. *)

Module Terminal.

(** [save_to_history] with its storage: [load_history], the list
    handling of [save_to_history] above, [save_history]. *)
Definition save_to_history_disk (now : nat -> string) (max_items : Z)
    (pods : list Pod) (d : disk) : disk :=
  let history := DataStorage.load_history d in
  let history := save_to_history (now 0%nat) max_items history pods in
  snd (DataStorage.save_history (now 1%nat) history d).

(** What [create_pods] and [quick_randomize] share once the target size is
    known. *)
Definition randomize (shuffle : list string -> list string) (fuel : nat)
    (now : nat -> string) (pod_size max_pod_size : Z) (keep_history : bool)
    (max_history_items : Z) (players : list string)
    (history : list (list Pod)) (d : disk)
    : outcome (list Pod) * list (list Pod) * disk :=
  let '(result, history) :=
    create_pods shuffle fuel history players pod_size max_pod_size in
  match result with
  | Returns pods =>
      (result, history,
       if keep_history then save_to_history_disk now max_history_items pods d
       else d)
  | _ => (result, history, d)
  end.

(** [quick_randomize]; [None] when there are fewer than 3 players and the
    method returns after its message. *)
Definition quick_randomize (shuffle : list string -> list string) (fuel : nat)
    (now : nat -> string) (default_pod_size max_pod_size : Z)
    (keep_history : bool) (max_history_items : Z) (players : list string)
    (history : list (list Pod)) (d : disk)
    : option (outcome (list Pod)) * list (list Pod) * disk :=
  if len players <? 3 then (None, history, d)
  else
    let '(result, history, d) :=
      randomize shuffle fuel now default_pod_size max_pod_size keep_history
        max_history_items players history d in
    (Some result, history, d).

(** [create_pods] of the menu; [answer] is what [int(pod_size)] gave,
    [None] when it raised [ValueError]. *)
Definition create_pods_menu (shuffle : list string -> list string) (fuel : nat)
    (now : nat -> string) (answer : option Z)
    (default_pod_size max_pod_size : Z)
    (keep_history : bool) (max_history_items : Z) (players : list string)
    (history : list (list Pod)) (d : disk)
    : option (outcome (list Pod)) * list (list Pod) * disk :=
  if len players <? 3 then (None, history, d)
  else
    let pod_size :=
      match answer with
      | Some pod_size => Z.max 3 (Z.min pod_size max_pod_size)
      | None => default_pod_size
      end in
    let '(result, history, d) :=
      randomize shuffle fuel now pod_size max_pod_size keep_history
        max_history_items players history d in
    (Some result, history, d).

(** The settings menu: what is stored for an integer answer. *)
Definition set_default_pod_size (size : Z) : Z := Z.max 3 (Z.min size 8).
Definition set_max_pod_size (size : Z) : Z := Z.max 4 (Z.min size 8).

End Terminal.

(** The entries of the sync log, none when the file is missing or
    unreadable; and a run of [_log_sync] calls, one per entry, oldest
    first. *)
Definition log_entries (d : disk) : list LogEntry :=
  match sync_log_json d with
  | Doc logs => logs
  | _ => []
  end.

Definition log_all (d : disk) (calls : list LogEntry) : disk :=
  foldl (fun d e =>
           SyncManager._log_sync (log_timestamp e) (log_sync_type e)
             (log_player_count e) (log_history_count e) d)
        d calls.

(** The invariant that [add_player] enforces on the roster: no two names
    equal up to case, and no empty name. *)
Definition roster_ok (lower : string -> string) (players : list string)
    : Prop :=
  NoDup (map lower players) /\ Forall (fun p => p <> ""%string) players.

(** The invariant of a pod: its [size] field counts its names. *)
Definition size_ok (p : Pod) : Prop := size p = len (players p).

(** ** Reading a float

    Every finite float is a whole number of steps of [2 ^ -1074], the
    smallest positive float.  [float_units f] is the value of [f] counted
    in these steps, and [float_ulp f] is the distance, in the same steps,
    from [f] to the next float of larger magnitude (the unit in the last
    place of [f]).  So [f] stands for the rational
    [float_units f / 2 ^ 1074]. *)
Definition float_units (f : spec_float) : Z :=
  match f with
  | S754_finite s m e => (if s then -1 else 1) * (Z.pos m * 2 ^ (e + 1074))
  | _ => 0
  end.

Definition float_ulp (f : spec_float) : Z :=
  match f with
  | S754_finite _ _ e => 2 ^ (e + 1074)
  | _ => 1
  end.

Definition is_finite (f : spec_float) : bool :=
  match f with
  | S754_zero _ | S754_finite _ _ _ => true
  | _ => false
  end.

(** The float with sign [sx], mantissa [m] and exponent [e], as the
    rounding of the Standard Library builds it: an infinity when the
    exponent is above that of the largest float. *)
Definition float_of (sx : bool) (m e : Z) : spec_float :=
  match m with
  | 0 => S754_zero sx
  | Z.pos p => if e <=? 971 then S754_finite sx p e else S754_infinity sx
  | Z.neg _ => S754_nan
  end.

(** The round bit and the sticky bit of a fraction [r / B] with
    [0 <= r < B]: nothing, below one half, one half, above one half. *)
Definition loc_bits (r B : Z) : bool * bool :=
  if r =? 0 then (false, false)
  else match 2 * r ?= B with
       | Lt => (false, true)
       | Eq => (true, false)
       | Gt => (true, true)
       end.

(** A shift record that holds the integer part of [A / B] and the
    position of the fraction of [A / B] with respect to one half. *)
Definition represents (mrs : shr_record) (A B : Z) : Prop :=
  0 < B /\ 0 <= A /\
  shr_m mrs = A / B /\
  (shr_r mrs, shr_s mrs) = loc_bits (A mod B) B.

(** [m * 2 ^ e] is the quotient of the positive integers [a] and [b]
    rounded to a float: [m] has at most 53 bits, and fewer only at the
    least exponent; the error is at most half a step of [2 ^ e]; a
    quotient that is an integer below [2 ^ 53] is met exactly; and the
    exponent is that of a finite float as long as the quotient is below
    [2 ^ 1023]. *)
Definition rounded_quotient (a b m e : Z) : Prop :=
  -1074 <= e /\
  0 <= m < 2 ^ 53 /\
  (m < 2 ^ 52 -> e = -1074) /\
  2 * Z.abs (m * 2 ^ (e + 1074) * b - a * 2 ^ 1074) <= 2 ^ (e + 1074) * b /\
  (forall k, a = k * b -> k < 2 ^ 53 -> m * 2 ^ (e + 1074) = k * 2 ^ 1074) /\
  (a < 2 ^ 1023 * b -> e <= 971).

(** * Properties *)

(** ** Slices *)

Section SliceFacts.
Context {A : Type}.
Implicit Types l : list A.

Lemma len_nonneg l : 0 <= len l.
Proof. unfold len. lia. Qed.

Lemma len_app l1 l2 : len (l1 ++ l2) = len l1 + len l2.
Proof. unfold len. rewrite length_app. lia. Qed.

Lemma len_nil_inv l : len l = 0 -> l = [].
Proof. unfold len. destruct l; simpl; [done | lia]. Qed.

(** With non-negative bounds a slice is [take] after [drop], whatever the
    bounds are compared with the length. *)
Lemma py_slice_nonneg l a s :
  0 <= a -> 0 <= s ->
  py_slice l a (a + s) = take (Z.to_nat s) (drop (Z.to_nat a) l).
Proof.
  intros Ha Hs. unfold py_slice, slice_bound, len.
  destruct (Z.ltb_spec a 0); [lia |].
  destruct (Z.ltb_spec (a + s) 0); [lia |].
  destruct (Z_le_gt_dec a (Z.of_nat (length l))) as [Hle | Hgt].
  - rewrite (Z.min_l a) by lia.
    destruct (Z_le_gt_dec (a + s) (Z.of_nat (length l))).
    + rewrite Z.min_l by lia. f_equal. lia.
    + rewrite Z.min_r by lia.
      rewrite !take_ge; [done | rewrite length_drop; lia ..].
  - rewrite !Z.min_r by lia. rewrite Z.sub_diag. simpl.
    rewrite (drop_ge l (Z.to_nat a)) by lia. by rewrite take_nil.
Qed.

Lemma py_slice_from_nonneg l a :
  0 <= a -> py_slice_from l a = drop (Z.to_nat a) l.
Proof.
  intros Ha. unfold py_slice_from, slice_bound, len.
  destruct (Z.ltb_spec a 0); [lia |].
  destruct (Z_le_gt_dec a (Z.of_nat (length l))).
  - by rewrite Z.min_l by lia.
  - rewrite Z.min_r by lia. rewrite !drop_ge; [done | lia ..].
Qed.

(** Consecutive slices glue: the prefix up to [a] followed by the slice
    [a : a + s] is the prefix up to [a + s]. *)
Lemma take_py_slice l a s :
  0 <= a -> 0 <= s ->
  take (Z.to_nat a) l ++ py_slice l a (a + s) = take (Z.to_nat (a + s)) l.
Proof.
  intros Ha Hs. rewrite py_slice_nonneg by done.
  rewrite take_take_drop. f_equal. lia.
Qed.

Lemma len_py_slice_le l a s :
  0 <= a -> 0 <= s -> len (py_slice l a (a + s)) <= s.
Proof.
  intros Ha Hs. rewrite py_slice_nonneg by done.
  unfold len. rewrite length_take. lia.
Qed.

Lemma len_py_slice_inside l a s :
  0 <= a -> 0 <= s -> a + s <= len l -> len (py_slice l a (a + s)) = s.
Proof.
  intros Ha Hs Hin. rewrite py_slice_nonneg by done.
  unfold len in *. rewrite length_take, length_drop. lia.
Qed.

Lemma take_all_iff l (n : Z) : 0 <= n -> take (Z.to_nat n) l = l <-> len l <= n.
Proof.
  intros Hn. unfold len. split.
  - intros E. apply (f_equal length) in E. rewrite length_take in E. lia.
  - intros H. apply take_ge. lia.
Qed.
End SliceFacts.

Lemma py_range_nil a b : b <= a -> py_range a b = [].
Proof. intros H. unfold py_range. by replace (Z.to_nat (b - a)) with O by lia. Qed.

Lemma py_range_cons a b : a < b -> py_range a b = a :: py_range (a + 1) b.
Proof.
  intros H. unfold py_range.
  replace (Z.to_nat (b - a)) with (S (Z.to_nat (b - (a + 1)))) by lia.
  simpl. f_equal; [lia |].
  rewrite <- seq_shift, map_map. apply map_ext. intros; lia.
Qed.

Lemma length_py_range a b : Z.of_nat (length (py_range a b)) = Z.max 0 (b - a).
Proof. unfold py_range. rewrite length_map, length_seq. lia. Qed.

Lemma elem_of_py_range a b x : x ∈ py_range a b <-> a <= x < b.
Proof.
  unfold py_range. rewrite list_elem_of_fmap. split.
  - intros (i & -> & Hi). apply elem_of_seq in Hi. lia.
  - intros Hx. exists (Z.to_nat (x - a)). split; [lia |].
    apply elem_of_seq. lia.
Qed.

Lemma all_players_snoc pods p :
  all_players (pods ++ [p]) = all_players pods ++ players p.
Proof.
  unfold all_players. rewrite map_app, concat_app. simpl.
  by rewrite app_nil_r.
Qed.

(** ** The balanced loop builds a prefix *)

(** The pods built so far always hold exactly the first [current_index]
    names (all of them once [current_index] passes the end). *)
Lemma build_pods_prefix ps m base rem idx :
  forall cp ci,
    0 <= ci ->
    all_players cp = take (Z.to_nat ci) ps ->
    ci <= snd (build_pods ps m base rem idx cp ci) /\
    all_players (fst (build_pods ps m base rem idx cp ci)) =
      take (Z.to_nat (snd (build_pods ps m base rem idx cp ci))) ps.
Proof.
  induction idx as [| i idx IH]; intros cp ci Hci Hcp; simpl.
  - split; [lia | done].
  - destruct (Z.eqb_spec (base + (if i <? rem then 1 else 0)) 0).
    + by apply IH.
    + set (s := Z.max 3 (Z.min (base + (if i <? rem then 1 else 0)) m)).
      assert (3 <= s) by (unfold s; lia).
      destruct (IH (cp ++ [mkPod (i + 1) (py_slice ps ci (ci + s))
                             (len (py_slice ps ci (ci + s)))]) (ci + s))
        as [Hle Heq].
      * lia.
      * rewrite all_players_snoc, Hcp. simpl.
        apply take_py_slice; lia.
      * split; [lia | done].
Qed.

Lemma candidate_prefix ps m k :
  0 <= snd (candidate ps m k) /\
  all_players (fst (candidate ps m k)) =
    take (Z.to_nat (snd (candidate ps m k))) ps.
Proof. unfold candidate. apply build_pods_prefix; [lia | done]. Qed.

(** The acceptance test holds exactly when the built pods hold every
    name. *)
Lemma accepted_iff_covers ps m k :
  accepted ps m k = true <->
  k <> 0 /\ all_players (fst (candidate ps m k)) = ps.
Proof.
  destruct (candidate_prefix ps m k) as [Hnn Hpre].
  unfold accepted. rewrite andb_true_iff, negb_true_iff, Z.eqb_neq.
  rewrite Hpre, take_all_iff by done.
  destruct (Z.geb_spec (snd (candidate ps m k)) (len ps)); split;
    intros [? ?]; split; try done; lia.
Qed.

(** What the outer loop leaves in [pods]. *)
Lemma search_find ps m cands :
  search ps m cands =
    match find (accepted ps m) cands with
    | Some k => fst (candidate ps m k)
    | None => []
    end.
Proof.
  induction cands as [| k cands IH]; simpl; [done |].
  unfold accepted at 1.
  destruct (Z.eqb_spec k 0); simpl; [apply IH |].
  destruct (candidate ps m k) as [cp ci] eqn:E. simpl.
  destruct (ci >=? len ps); [by rewrite E | apply IH].
Qed.

Lemma search_covers ps m cands :
  search ps m cands = [] \/ all_players (search ps m cands) = ps.
Proof.
  rewrite search_find.
  destruct (find (accepted ps m) cands) as [k |] eqn:E; [| by left].
  right. apply find_some in E as [_ E].
  by apply accepted_iff_covers in E as [_ E].
Qed.

(** ** The sequential loop *)

Lemma all_players_extend_last pods extra :
  pods <> [] ->
  all_players (extend_last pods extra) = all_players pods ++ extra.
Proof.
  induction pods as [| p [| q rest] IH]; intros Hne; [done | |].
  - unfold all_players. simpl. by rewrite !app_nil_r.
  - change (extend_last (p :: q :: rest) extra)
      with (p :: extend_last (q :: rest) extra).
    unfold all_players in *. simpl map. simpl concat.
    simpl in IH. rewrite IH by done. by rewrite !app_assoc.
Qed.

Lemma length_extend_last pods extra :
  length (extend_last pods extra) = length pods.
Proof.
  induction pods as [| p [| q rest] IH]; [done | done |].
  change (extend_last (p :: q :: rest) extra)
    with (p :: extend_last (q :: rest) extra).
  simpl in *. by rewrite IH.
Qed.

Lemma nonempty_true {A} (l : list A) : nonempty l = true <-> l <> [].
Proof. by destruct l. Qed.

(** With a positive target size the loop ends within [len ps - i]
    iterations and the pods it returns hold every name, in order. *)
Lemma simple_loop_covers fuel :
  forall ps t m pods pod_id i,
    1 <= t ->
    0 <= i <= len ps ->
    len ps - i <= Z.of_nat fuel ->
    all_players pods = take (Z.to_nat i) ps ->
    exists pods',
      simple_loop fuel ps t m pods pod_id i = Returns pods' /\
      all_players pods' = ps.
Proof.
  induction fuel as [| fuel IH]; intros ps t m pods pod_id i Ht Hi Hfuel Hpre.
  - simpl. destruct (Z.ltb_spec i (len ps)); [lia |].
    exists pods. split; [done |]. rewrite Hpre. apply take_all_iff; lia.
  - cbn [simple_loop]. destruct (Z.ltb_spec i (len ps)) as [Hlt | Hge].
    2:{ exists pods. split; [done |]. rewrite Hpre. apply take_all_iff; lia. }
    assert (Hcreate : forall s, 1 <= s -> i + s <= len ps ->
      exists pods',
        simple_loop fuel ps t m
          (pods ++ [mkPod pod_id (py_slice ps i (i + s))
                      (len (py_slice ps i (i + s)))])
          (pod_id + 1) (i + s) = Returns pods' /\ all_players pods' = ps).
    { intros s Hs Hin. apply IH; [done | lia | lia |].
      rewrite all_players_snoc, Hpre. simpl. apply take_py_slice; lia. }
    destruct ((len ps - i <? 3) && nonempty pods) eqn:Hsmall.
    + apply andb_true_iff in Hsmall as [_ Hne%nonempty_true].
      destruct (len (last_players pods) + (len ps - i) <=? m).
      * eexists. split; [done |].
        rewrite all_players_extend_last by done.
        rewrite py_slice_from_nonneg by lia.
        rewrite Hpre. apply take_drop.
      * destruct (Z.gtb_spec (len ps - i) 0); [| lia].
        apply Hcreate; lia.
    + apply Hcreate; lia.
Qed.

Lemma simple_distribution_covers fuel ps t m :
  1 <= t -> (length ps <= fuel)%nat ->
  exists pods,
    _simple_distribution fuel ps t m = Returns pods /\ all_players pods = ps.
Proof.
  intros Ht Hfuel. unfold _simple_distribution.
  apply simple_loop_covers; [done | | | done].
  - pose proof (len_nonneg ps). lia.
  - unfold len. lia.
Qed.

(** ** The first candidate *)

(** Name the quotient and remainder of [a / b] for a positive [b], keeping
    only the two facts that define them. *)
Ltac name_div_mod a b :=
  let q := fresh "q" in
  let r := fresh "r" in
  pose proof (Z.div_mod a b ltac:(lia));
  pose proof (Z.mod_pos_bound a b ltac:(lia));
  set (q := a / b) in *; set (r := a mod b) in *; clearbody q r.

Section FirstCandidate.
Variables (n m : Z).
Hypothesis Hn : 1 <= n.
Hypothesis Hm : 1 <= m.

(** [min_pods] is the ceiling of [n / m]. *)
Lemma min_pods_ceil :
  m * (min_pods n m - 1) < n <= m * min_pods n m.
Proof. unfold min_pods. name_div_mod (n + m - 1) m. lia. Qed.

Lemma max_pods_ceil t :
  1 <= t -> t * (max_pods n t - 1) < n <= t * max_pods n t.
Proof. intros Ht. unfold max_pods. name_div_mod (n + t - 1) t. lia. Qed.

Lemma min_pods_range : 1 <= min_pods n m <= n.
Proof.
  pose proof min_pods_ceil as Hc.
  set (k := min_pods n m) in *. clearbody k. split.
  - destruct (Z_le_gt_dec k 0); [| lia].
    assert (m * k <= 0) by (apply Z.mul_nonneg_nonpos; lia). lia.
  - destruct (Z_le_gt_dec k n); [done |].
    assert (1 * (k - 1) <= m * (k - 1))
      by (apply Z.mul_le_mono_nonneg_r; lia).
    lia.
Qed.

(** The sizes computed for the first candidate: at least 1, at most
    [m], and adding up to [n]. *)
Lemma first_candidate_sizes :
  let k := min_pods n m in
  n = k * (n / k) + n mod k /\
  0 <= n mod k < k /\
  1 <= n / k /\
  n / k + (if 0 <? n mod k then 1 else 0) <= m.
Proof.
  intros k. pose proof min_pods_ceil as Hc. pose proof min_pods_range as Hr.
  fold k in Hc, Hr. clearbody k.
  name_div_mod n k.
  assert (1 <= q).
  { destruct (Z_le_gt_dec q 0); [| lia].
    assert (k * q <= 0) by (apply Z.mul_nonneg_nonpos; lia). lia. }
  repeat split; try lia.
  destruct (Z.ltb_spec 0 r).
  - destruct (Z_le_gt_dec (q + 1) m); [done |].
    assert (k * m <= k * q) by (apply Z.mul_le_mono_nonneg_l; lia). lia.
  - destruct (Z_le_gt_dec (q + 0) m); [done |].
    assert (k * (m + 1) <= k * q) by (apply Z.mul_le_mono_nonneg_l; lia).
    lia.
Qed.

(** A smaller pod size never needs fewer pods. *)
Lemma min_pods_le_max_pods t : 1 <= t <= m -> min_pods n m <= max_pods n t.
Proof.
  intros Ht. pose proof min_pods_ceil as Hc.
  pose proof (max_pods_ceil t ltac:(lia)) as Hd.
  set (k := min_pods n m) in *. set (q := max_pods n t) in *.
  clearbody k q.
  destruct (Z_le_gt_dec k q); [done |].
  assert (0 <= q).
  { destruct (Z_le_gt_dec 0 q); [done |].
    assert (t * q <= 0) by (apply Z.mul_nonneg_nonpos; lia). lia. }
  assert (t * q <= m * q) by (apply Z.mul_le_mono_nonneg_r; lia).
  assert (m * q <= m * (k - 1)) by (apply Z.mul_le_mono_nonneg_l; lia).
  lia.
Qed.
End FirstCandidate.

(** When every computed size is between 1 and [m], the loop over
    [range(j, k)] appends one pod per index and advances the index by at
    least the computed sizes. *)
Lemma build_pods_reach ps m base rem k :
  1 <= base -> 0 <= rem <= k ->
  base + (if 0 <? rem then 1 else 0) <= m ->
  forall d j cp ci,
    d = Z.to_nat (k - j) -> 0 <= j <= k ->
    ci + (k - j) * base + Z.max 0 (rem - j)
      <= snd (build_pods ps m base rem (py_range j k) cp ci) /\
    length (fst (build_pods ps m base rem (py_range j k) cp ci)) =
      (length cp + d)%nat.
Proof.
  intros Hbase Hrem Hm. induction d as [| d IH]; intros j cp ci Hd Hj.
  - assert (j = k) as -> by lia.
    rewrite py_range_nil by lia. simpl. split; lia.
  - rewrite py_range_cons by lia. cbn [build_pods].
    assert (Hs : 1 <= base + (if j <? rem then 1 else 0) <= m).
    { destruct (Z.ltb_spec j rem), (Z.ltb_spec 0 rem); lia. }
    destruct (Z.eqb_spec (base + (if j <? rem then 1 else 0)) 0); [lia |].
    rewrite (Z.min_l _ m) by lia.
    match goal with
    | |- context [build_pods _ _ _ _ _ ?cp' ?ci'] =>
        destruct (IH (j + 1) cp' ci' ltac:(lia) ltac:(lia)) as [H1 H2]
    end.
    rewrite H2, length_app. simpl. split; [| lia].
    destruct (Z.ltb_spec j rem); lia.
Qed.

(** The first candidate, [ceil(n / max_size)] pods, always passes the
    test and none of its pods is skipped. *)
Lemma first_candidate_accepted ps m :
  ps <> [] -> 1 <= m ->
  len ps <= snd (candidate ps m (min_pods (len ps) m)) /\
  len (fst (candidate ps m (min_pods (len ps) m))) = min_pods (len ps) m.
Proof.
  intros Hne Hm.
  assert (Hn : 1 <= len ps).
  { pose proof (len_nonneg ps). destruct (Z.eq_dec (len ps) 0) as [E |]; [| lia].
    by apply len_nil_inv in E. }
  pose proof (min_pods_range _ _ Hn Hm) as Hk.
  destruct (first_candidate_sizes _ _ Hn Hm) as (Hsum & Hrem & Hbase & Hfit).
  unfold candidate.
  set (k := min_pods (len ps) m) in *.
  destruct (build_pods_reach ps m (len ps / k) (len ps mod k) k
              Hbase ltac:(lia) Hfit (Z.to_nat k) 0 [] 0 ltac:(lia) ltac:(lia))
    as [H1 H2].
  split.
  - rewrite Z.sub_0_r in H1. lia.
  - unfold len at 1. rewrite H2. simpl. lia.
Qed.

Lemma len_pos_of_ne {A} (l : list A) : l <> [] -> 1 <= len l.
Proof. destruct l; [done |]. unfold len. simpl. lia. Qed.

Lemma len_zero_nil (pods : list Pod) : 1 <= len pods -> pods <> [].
Proof. destruct pods; [unfold len; simpl; lia | done]. Qed.

(** With [1 <= target_size <= max_size] and at least one name, the
    distribution is the first candidate's: the search takes it and the
    sequential distributor is not consulted, whatever the fuel. *)
Lemma calculate_first fuel ps t m :
  ps <> [] -> 1 <= t <= m ->
  search ps m (py_range (min_pods (len ps) m) (max_pods (len ps) t + 1)) =
    fst (candidate ps m (min_pods (len ps) m)) /\
  _calculate_pod_distribution fuel ps t m =
    Returns (fst (candidate ps m (min_pods (len ps) m))).
Proof.
  intros Hne Ht.
  pose proof (len_pos_of_ne ps Hne) as Hn.
  assert (Hm : 1 <= m) by lia.
  pose proof (min_pods_range _ _ Hn Hm) as Hk.
  pose proof (min_pods_le_max_pods _ _ Hn Hm t Ht) as Hle.
  destruct (first_candidate_accepted ps m Hne Hm) as [Hacc Hlen].
  assert (Hs : search ps m
            (py_range (min_pods (len ps) m) (max_pods (len ps) t + 1)) =
          fst (candidate ps m (min_pods (len ps) m))).
  { rewrite py_range_cons by lia. cbn [search].
    destruct (Z.eqb_spec (min_pods (len ps) m) 0); [lia |].
    destruct (candidate ps m (min_pods (len ps) m)) as [cp ci]. simpl in *.
    destruct (Z.geb_spec ci (len ps)); [done | lia]. }
  split; [done |].
  unfold _calculate_pod_distribution.
  destruct (Z.eqb_spec m 0); [lia |].
  destruct (Z.eqb_spec t 0); [lia |].
  rewrite Hs.
  destruct (fst (candidate ps m (min_pods (len ps) m))) eqn:E; [| done].
  unfold len in Hlen at 1. simpl in Hlen. lia.
Qed.

Lemma clamp_target_range t m : 3 <= m -> 3 <= clamp_target t m <= m.
Proof. unfold clamp_target. lia. Qed.

Lemma clamp_target_id t m : 3 <= t <= m -> clamp_target t m = t.
Proof. unfold clamp_target. lia. Qed.

Lemma shuffle_len (shuffle : list string -> list string) ps :
  (forall l, shuffle l ≡ₚ l) -> len (shuffle ps) = len ps.
Proof. intros H. unfold len. by rewrite (H ps). Qed.

Lemma shuffle_ne (shuffle : list string -> list string) ps :
  (forall l, shuffle l ≡ₚ l) -> ps <> [] -> shuffle ps <> [].
Proof.
  intros H Hne E. specialize (H ps). rewrite E in H.
  by apply Permutation_nil in H.
Qed.

Lemma create_pods_first shuffle fuel history ps t m :
  (forall l, shuffle l ≡ₚ l) -> ps <> [] -> 3 <= m ->
  create_pods shuffle fuel history ps t m =
    (Returns (fst (candidate (shuffle ps) m (min_pods (len ps) m))),
     history ++ [fst (candidate (shuffle ps) m (min_pods (len ps) m))]).
Proof.
  intros Hsh Hne Hm. unfold create_pods.
  destruct ps as [| p ps]; [done |].
  pose proof (clamp_target_range t m Hm) as Hc.
  destruct (calculate_first fuel (shuffle (p :: ps)) (clamp_target t m) m)
    as [_ ->]; [by apply shuffle_ne | lia |].
  by rewrite shuffle_len.
Qed.

(** ** Conservation *)

(** C1.  For [3 <= target_size <= max_size] no name is lost and none is
    duplicated: the names held by the pods that [create_pods] returns are a
    permutation of the input list (the shuffled order, cut into pods).  The
    same holds of each distributor taken alone:
    [_calculate_pod_distribution] returns pods holding exactly its input,
    and so does the sequential [_simple_distribution], including when it
    merges the remainder into the last pod, once it has fuel for one
    iteration per name. *)
Theorem conservation shuffle fuel history ps t m :
  (forall l, shuffle l ≡ₚ l) ->
  3 <= t <= m ->
  (exists pods,
     fst (create_pods shuffle fuel history ps t m) = Returns pods /\
     all_players pods ≡ₚ ps) /\
  (exists pods,
     _calculate_pod_distribution fuel ps t m = Returns pods /\
     all_players pods = ps) /\
  (forall fuel', (length ps <= fuel')%nat ->
     exists pods,
       _simple_distribution fuel' ps t m = Returns pods /\
       all_players pods = ps).
Proof.
  intros Hsh Ht.
  assert (Hcalc : forall l, exists pods,
            _calculate_pod_distribution fuel l t m = Returns pods /\
            all_players pods = l).
  { intros l. destruct (decide (l = [])) as [-> | Hne].
    - unfold _calculate_pod_distribution.
      destruct (Z.eqb_spec m 0); [lia |].
      destruct (Z.eqb_spec t 0); [lia |].
      match goal with
      | |- context [search ?a ?b ?c] =>
          destruct (search_covers a b c) as [E | E]
      end.
      + rewrite E. exists []. by destruct fuel.
      + destruct (search _ _ _) as [| p pods]; [exists []; by destruct fuel |].
        by exists (p :: pods).
    - destruct (calculate_first fuel l t m Hne ltac:(lia)) as [Hs ->].
      eexists. split; [done |].
      destruct (search_covers l m
                  (py_range (min_pods (len l) m) (max_pods (len l) t + 1)))
        as [E | E]; rewrite Hs in E; [| done].
      destruct (first_candidate_accepted l m Hne ltac:(lia)) as [_ Hlen].
      rewrite E in Hlen. pose proof (len_pos_of_ne l Hne).
      pose proof (min_pods_range (len l) m ltac:(lia) ltac:(lia)).
      unfold len in Hlen at 1. simpl in Hlen. lia. }
  split; [| split].
  - unfold create_pods. destruct ps as [| p ps].
    + by exists [].
    + rewrite clamp_target_id by done.
      destruct (Hcalc (shuffle (p :: ps))) as (pods & -> & Hall).
      exists pods. split; [done |]. by rewrite Hall.
  - apply Hcalc.
  - intros fuel' Hfuel. apply simple_distribution_covers; [lia | done].
Qed.

Lemma conservation_witness :
  (exists pods,
     fst (create_pods (fun l => l) 0 []
            ["ann"; "bob"; "cyd"; "dan"; "eve"]%string 4 8) = Returns pods /\
     all_players pods ≡ₚ ["ann"; "bob"; "cyd"; "dan"; "eve"]%string) /\
  (exists pods,
     _calculate_pod_distribution 0
       ["ann"; "bob"; "cyd"; "dan"; "eve"]%string 4 8 = Returns pods /\
     all_players pods = ["ann"; "bob"; "cyd"; "dan"; "eve"]%string) /\
  (forall fuel', (length ["ann"; "bob"; "cyd"; "dan"; "eve"]%string <= fuel')%nat ->
     exists pods,
       _simple_distribution fuel'
         ["ann"; "bob"; "cyd"; "dan"; "eve"]%string 4 8 = Returns pods /\
       all_players pods = ["ann"; "bob"; "cyd"; "dan"; "eve"]%string).
Proof.
  apply (conservation (fun l => l) 0 []
           ["ann"; "bob"; "cyd"; "dan"; "eve"]%string 4 8).
  - intros l. reflexivity.
  - lia.
Defined.

(** ** The first candidate is always taken *)

(** C5.  For a non-empty list of [n] names and [max_size >= 3], whatever
    [target_size] is: [k = min_pods n max_size] is the ceiling of
    [n / max_size]; the sizes of candidate [k], clamped, reach at least
    [n], so [k], the first candidate of the range, passes the test and the
    search returns its pods; [create_pods] returns these pods, exactly [k]
    of them, for every fuel, also with none, so the sequential distributor
    (whose loop would need fuel on a non-empty list) is not run. *)
Theorem first_candidate_always_accepted shuffle fuel history ps t m :
  (forall l, shuffle l ≡ₚ l) ->
  ps <> [] ->
  3 <= m ->
  let n := len ps in
  let k := min_pods n m in
  let pods := fst (candidate (shuffle ps) m k) in
  m * (k - 1) < n <= m * k /\
  n <= snd (candidate (shuffle ps) m k) /\
  accepted (shuffle ps) m k = true /\
  search (shuffle ps) m
    (py_range k (max_pods n (clamp_target t m) + 1)) = pods /\
  create_pods shuffle fuel history ps t m = (Returns pods, history ++ [pods]) /\
  len pods = k /\
  _simple_distribution 0 (shuffle ps) (clamp_target t m) m = OutOfFuel.
Proof.
  intros Hsh Hne Hm n k pods. subst n k pods.
  pose proof (len_pos_of_ne ps Hne) as Hn.
  pose proof (shuffle_ne shuffle ps Hsh Hne) as Hne'.
  pose proof (shuffle_len shuffle ps Hsh) as Hlen.
  pose proof (clamp_target_range t m Hm) as Hc.
  pose proof (min_pods_range (len ps) m Hn ltac:(lia)) as Hk.
  destruct (first_candidate_accepted (shuffle ps) m Hne' ltac:(lia))
    as [Hacc Hcount].
  destruct (calculate_first fuel (shuffle ps) (clamp_target t m) m Hne'
              ltac:(lia)) as [Hs _].
  rewrite Hlen in *.
  repeat split.
  - apply min_pods_ceil; lia.
  - apply min_pods_ceil; lia.
  - done.
  - unfold accepted. apply andb_true_iff. split.
    + apply negb_true_iff, Z.eqb_neq. lia.
    + rewrite Hlen. by apply Z.geb_le.
  - done.
  - by apply create_pods_first.
  - done.
  - unfold _simple_distribution. simpl.
    destruct (Z.ltb_spec 0 (len (shuffle ps))); [done | lia].
Qed.

Lemma first_candidate_always_accepted_witness :
  let ps := ["ann"; "bob"; "cyd"; "dan"; "eve"]%string in
  let pods := fst (candidate (reverse ps) 4 2) in
  4 * (2 - 1) < 5 <= 4 * 2 /\
  5 <= snd (candidate (reverse ps) 4 2) /\
  accepted (reverse ps) 4 2 = true /\
  search (reverse ps) 4 (py_range 2 (max_pods 5 (clamp_target 9 4) + 1)) = pods /\
  create_pods reverse 0 [] ps 9 4 = (Returns pods, [] ++ [pods]) /\
  len pods = 2 /\
  _simple_distribution 0 (reverse ps) (clamp_target 9 4) 4 = OutOfFuel.
Proof.
  apply (first_candidate_always_accepted reverse 0 []
           ["ann"; "bob"; "cyd"; "dan"; "eve"]%string 9 4).
  - intros l. apply reverse_Permutation.
  - done.
  - lia.
Defined.

(** ** Empty input *)

(** C8.  On an empty list [create_pods] returns the empty pod list at
    once, for every [target_size] and [max_size] (valid or not): nothing is
    raised, nothing is shuffled or distributed, and the history is left as
    it was. *)
Theorem create_pods_empty shuffle fuel history t m :
  create_pods shuffle fuel history [] t m = (Returns [], history).
Proof. reflexivity. Qed.

(** ** Sizes on the primary path *)

Lemma list_of_len_5 {A} (l : list A) :
  length l = 5%nat -> exists a b c d e, l = [a; b; c; d; e].
Proof.
  destruct l as [| a [| b [| c [| d [| e [| f l]]]]]]; try done.
  intros _. by exists a, b, c, d, e.
Qed.

(** C2, evaluated on five names with [max_size = 4] (any [target_size],
    any shuffle): the balanced search succeeds on its first candidate, two
    pods, and the returned pods have sizes 3 and 2; the second is below
    3. *)
Theorem primary_path_undersized_pod shuffle fuel history a b c d e t :
  (forall l, shuffle l ≡ₚ l) ->
  accepted (shuffle [a; b; c; d; e]) 4 (min_pods 5 4) = true /\
  exists pods,
    fst (create_pods shuffle fuel history [a; b; c; d; e] t 4) = Returns pods /\
    search (shuffle [a; b; c; d; e]) 4
      (py_range (min_pods 5 4) (max_pods 5 (clamp_target t 4) + 1)) = pods /\
    map size pods = [3; 2].
Proof.
  intros Hsh.
  pose proof (create_pods_first shuffle fuel history [a; b; c; d; e] t 4
                Hsh ltac:(done) ltac:(lia)) as Hcp.
  pose proof (clamp_target_range t 4 ltac:(lia)) as Hc.
  destruct (calculate_first fuel (shuffle [a; b; c; d; e]) (clamp_target t 4) 4)
    as [Hs _]; [by apply shuffle_ne | lia |].
  rewrite (shuffle_len shuffle [a; b; c; d; e] Hsh) in Hs.
  change (len [a; b; c; d; e]) with 5 in Hcp, Hs.
  destruct (list_of_len_5 (shuffle [a; b; c; d; e]))
    as (a' & b' & c' & d' & e' & E).
  { by rewrite (Hsh [a; b; c; d; e]). }
  rewrite E in *.
  split; [reflexivity |].
  eexists. rewrite Hcp. split; [done |]. split; [exact Hs |]. reflexivity.
Qed.

Lemma primary_path_undersized_pod_witness :
  accepted (reverse ["ann"; "bob"; "cyd"; "dan"; "eve"]%string) 4 (min_pods 5 4)
    = true /\
  exists pods,
    fst (create_pods reverse 0 [] ["ann"; "bob"; "cyd"; "dan"; "eve"]%string 4 4)
      = Returns pods /\
    search (reverse ["ann"; "bob"; "cyd"; "dan"; "eve"]%string) 4
      (py_range (min_pods 5 4) (max_pods 5 (clamp_target 4 4) + 1)) = pods /\
    map size pods = [3; 2].
Proof.
  apply (primary_path_undersized_pod reverse 0 []
           "ann" "bob" "cyd" "dan" "eve" 4)%string.
  intros l. apply reverse_Permutation.
Defined.

(** The same run with the names left in their order. *)
Example primary_path_five_names :
  create_pods (fun l => l) 0 []
    ["ann"; "bob"; "cyd"; "dan"; "eve"]%string 4 4 =
  (Returns [mkPod 1 ["ann"; "bob"; "cyd"]%string 3;
            mkPod 2 ["dan"; "eve"]%string 2],
   [[mkPod 1 ["ann"; "bob"; "cyd"]%string 3;
     mkPod 2 ["dan"; "eve"]%string 2]]).
Proof. reflexivity. Qed.

(** ** Totality *)

(** C6 fails as stated: with [max_size = 0] and a non-empty list,
    [min_pods] divides by zero and [create_pods] raises
    [ZeroDivisionError]. *)
Lemma create_pods_zero_max_size_raises :
  create_pods (fun l => l) 1 [] ["ann"]%string 4 0
    = (Raises ZeroDivisionError, []).
Proof. reflexivity. Qed.

(** C6, amended.  For every [target_size] and every [max_size] other than
    0, [create_pods] returns a pod list (given fuel for one iteration per
    name, which only the sequential distributor uses) and records it; no
    value of [target_size] is rejected: the size used is
    [max(3, min(target_size, max_size))], which is at least 3, is at most
    [max_size] when [max_size >= 3], and is [target_size] itself when
    [3 <= target_size <= max_size].  An empty list gives the empty result
    for all sizes, 0 included. *)
Theorem create_pods_total shuffle fuel history ps t m :
  (forall l, shuffle l ≡ₚ l) ->
  m <> 0 ->
  (length ps <= fuel)%nat ->
  (exists pods,
     create_pods shuffle fuel history ps t m =
       (Returns pods, if nonempty ps then history ++ [pods] else history)) /\
  3 <= clamp_target t m /\
  (3 <= m -> clamp_target t m <= m) /\
  (3 <= t <= m -> clamp_target t m = t) /\
  (forall t' m', create_pods shuffle fuel history [] t' m' = (Returns [], history)).
Proof.
  intros Hsh Hm Hfuel.
  split; [| unfold clamp_target; repeat split; intros; lia || done].
  destruct ps as [| p ps]; [by exists [] |].
  unfold create_pods, _calculate_pod_distribution. cbn [nonempty].
  assert (3 <= clamp_target t m) by (unfold clamp_target; lia).
  destruct (Z.eqb_spec m 0); [done |].
  destruct (Z.eqb_spec (clamp_target t m) 0); [lia |].
  destruct (search _ _ _) as [| q pods]; [| by eexists].
  destruct (simple_distribution_covers fuel (shuffle (p :: ps))
              (clamp_target t m) m) as (pods & -> & _); [lia | | by eexists].
  by rewrite (Hsh (p :: ps)).
Qed.

Lemma create_pods_total_witness :
  (exists pods,
     create_pods reverse 4 [] ["ann"; "bob"; "cyd"; "dan"]%string 100 (-2) =
       (Returns pods,
        if nonempty ["ann"; "bob"; "cyd"; "dan"]%string
        then [] ++ [pods] else [])) /\
  3 <= clamp_target 100 (-2) /\
  (3 <= -2 -> clamp_target 100 (-2) <= -2) /\
  (3 <= 100 <= -2 -> clamp_target 100 (-2) = 100) /\
  (forall t' m', create_pods reverse 4 [] [] t' m' = (Returns [], [])).
Proof.
  apply (create_pods_total reverse 4 []
           ["ann"; "bob"; "cyd"; "dan"]%string 100 (-2)).
  - intros l. apply reverse_Permutation.
  - lia.
  - simpl. lia.
Defined.

(** ** The search *)

Lemma find_py_range_first (f : Z -> bool) hi k :
  f k = true ->
  forall d lo,
    d = Z.to_nat (k - lo) -> lo <= k < hi ->
    (forall j, lo <= j < k -> f j = false) ->
    find f (py_range lo hi) = Some k.
Proof.
  intros Hk. induction d as [| d IH]; intros lo Hd Hlo Hbefore.
  - assert (lo = k) as -> by lia.
    rewrite py_range_cons by lia. simpl. by rewrite Hk.
  - rewrite py_range_cons by lia. simpl.
    rewrite Hbefore by lia. apply IH; [lia | lia |].
    intros j Hj. apply Hbefore. lia.
Qed.

Lemma find_all_false {A} (f : A -> bool) (l : list A) :
  (forall x, x ∈ l -> f x = false) -> find f l = None.
Proof.
  induction l as [| x l IH]; intros H; simpl; [done |].
  rewrite (H x) by left. apply IH. intros y Hy. apply H. by right.
Qed.

(** A candidate none of whose computed sizes is below 3 cannot reach an
    index beyond the number of names: clamping such a size never raises
    it. *)
Lemma build_pods_at_most ps m base rem k :
  3 <= base -> 0 <= rem <= k ->
  forall d j cp ci,
    d = Z.to_nat (k - j) -> 0 <= j <= k ->
    snd (build_pods ps m base rem (py_range j k) cp ci)
      <= ci + (k - j) * base + Z.max 0 (rem - j).
Proof.
  intros Hbase Hrem. induction d as [| d IH]; intros j cp ci Hd Hj.
  - assert (j = k) as -> by lia.
    rewrite py_range_nil by lia. simpl. lia.
  - rewrite py_range_cons by lia. cbn [build_pods].
    destruct (Z.eqb_spec (base + (if j <? rem then 1 else 0)) 0);
      [destruct (j <? rem); lia |].
    match goal with
    | |- context [build_pods _ _ _ _ _ ?cp' ?ci'] =>
        pose proof (IH (j + 1) cp' ci' ltac:(lia) ltac:(lia)) as H1
    end.
    destruct (Z.ltb_spec j rem); lia.
Qed.

(** Where no computed size is raised to 3, that is for a candidate [k]
    with [3 * k <= n], the test of the code is the test of the
    specification: an accepted candidate accounts for the names exactly. *)
Lemma accepted_exact_when_no_size_is_raised ps m k :
  1 <= k -> 3 * k <= len ps ->
  accepted ps m k = true -> exact_fit ps m k.
Proof.
  intros Hk H3k Hacc. unfold accepted in Hacc.
  apply andb_true_iff in Hacc as [_ Hge%Z.geb_le].
  split; [lia |]. unfold candidate in *.
  pose proof (Z.div_mod (len ps) k ltac:(lia)) as Hdm.
  pose proof (Z.mod_pos_bound (len ps) k ltac:(lia)) as Hrem.
  set (base := len ps / k) in *. set (rem := len ps mod k) in *.
  clearbody base rem.
  assert (Hbase : 3 <= base).
  { destruct (Z_le_gt_dec 3 base); [done |].
    assert (k * base <= k * 2) by (apply Z.mul_le_mono_nonneg_l; lia).
    lia. }
  pose proof (build_pods_at_most ps m base rem k Hbase ltac:(lia)
                (Z.to_nat k) 0 [] 0 ltac:(lia) ltac:(lia)) as Hle.
  lia.
Qed.


(** What the search does, for a non-empty list and non-zero sizes: the
    candidate counts are tried in ascending order from [min_pods] to
    [max_pods] inclusive and the search stops at the first one that passes
    the test of the code, a non-zero [k] whose clamped sizes reach at
    least [n].  A candidate passes exactly when the pods built for it hold
    every name.  So the returned distribution is that of the smallest
    candidate count that passes; when none passes, the result is that of
    the sequential distributor. *)
Theorem search_stops_at_first_accepted fuel ps t m :
  ps <> [] -> t <> 0 -> m <> 0 ->
  let lo := min_pods (len ps) m in
  let hi := max_pods (len ps) t in
  (forall k,
     lo <= k <= hi ->
     accepted ps m k = true ->
     (forall j, lo <= j < k -> accepted ps m j = false) ->
     _calculate_pod_distribution fuel ps t m =
       Returns (fst (candidate ps m k))) /\
  ((forall j, lo <= j <= hi -> accepted ps m j = false) ->
   _calculate_pod_distribution fuel ps t m =
     _simple_distribution fuel ps t m) /\
  (forall k,
     (accepted ps m k = true <->
      k <> 0 /\ len ps <= snd (candidate ps m k)) /\
     (accepted ps m k = true <->
      k <> 0 /\ all_players (fst (candidate ps m k)) = ps)).
Proof.
  intros Hne Ht Hm lo hi.
  assert (Hunfold : _calculate_pod_distribution fuel ps t m =
            match search ps m (py_range lo (hi + 1)) with
            | [] => _simple_distribution fuel ps t m
            | pods => Returns pods
            end).
  { unfold _calculate_pod_distribution.
    destruct (Z.eqb_spec m 0); [done |]. by destruct (Z.eqb_spec t 0). }
  split; [| split].
  - intros k Hk Hacc Hbefore.
    rewrite Hunfold, search_find.
    rewrite (find_py_range_first (accepted ps m) (hi + 1) k Hacc
               (Z.to_nat (k - lo)) lo) by (done || lia).
    apply accepted_iff_covers in Hacc as [_ Hall].
    destruct (fst (candidate ps m k)); [| done].
    by rewrite <- Hall in Hne.
  - intros Hnone. rewrite Hunfold, search_find.
    rewrite find_all_false; [done |].
    intros j Hj%elem_of_py_range. apply Hnone. lia.
  - intros k. split; [| apply accepted_iff_covers].
    unfold accepted. rewrite andb_true_iff, negb_true_iff, Z.eqb_neq.
    by rewrite Z.geb_le.
Qed.

Lemma search_stops_at_first_accepted_witness :
  let ps := ["ann"; "bob"; "cyd"; "dan"; "eve"; "fay"; "gus"]%string in
  _calculate_pod_distribution 0 ps 3 4 = Returns (fst (candidate ps 4 2)).
Proof.
  intros ps.
  refine (proj1 (search_stops_at_first_accepted 0 ps 3 4 _ _ _) 2 _ _ _).
  - done.
  - lia.
  - lia.
  - vm_compute. split; discriminate.
  - reflexivity.
  - intros j Hj. change (2 <= j < 2) in Hj. lia.
Defined.

(** With a negative [max_size] the range starts below 1 and the search
    really passes over rejected candidates: for five names the counts -3,
    -2, -1 build nothing, 0 is skipped, 1 builds one pod of three names,
    and 2 is the first to pass. *)
Example search_passes_over_rejected :
  let ps := ["ann"; "bob"; "cyd"; "dan"; "eve"]%string in
  min_pods (len ps) (-1) = -3 /\
  max_pods (len ps) 3 = 2 /\
  map (accepted ps (-1)) (py_range (-3) 3)
    = [false; false; false; false; false; true] /\
  _calculate_pod_distribution 0 ps 3 (-1)
    = Returns (fst (candidate ps (-1) 2)).
Proof. repeat split; reflexivity. Qed.

(** ** The remainder in the sequential distributor *)

Lemma last_players_extend_last pods extra :
  pods <> [] ->
  last_players (extend_last pods extra) = last_players pods ++ extra.
Proof.
  induction pods as [| p [| q rest] IH]; intros Hne; [done | done |].
  change (extend_last (p :: q :: rest) extra)
    with (p :: extend_last (q :: rest) extra).
  unfold last_players in *.
  specialize (IH ltac:(done)).
  destruct (extend_last (q :: rest) extra) as [| q' rest'] eqn:E.
  - pose proof (length_extend_last (q :: rest) extra) as Hl.
    rewrite E in Hl. done.
  - exact IH.
Qed.

(** C3.  One iteration of the loop entered with fewer than three names
    remaining and a non-empty pod list.  If the names of the previous pod
    plus the remainder fit in [max_size], the remainder is appended to the
    previous pod and the loop ends; otherwise a new pod with the remaining
    one or two names is appended and the loop ends.  So the remainder is
    merged if and only if it fits.  Either way the call returns, and the
    result holds the names of the pods so far followed by every remaining
    name. *)
Theorem fallback_remainder fuel ps t m pods pod_id i :
  0 <= i < len ps ->
  len ps - i < 3 ->
  pods <> [] ->
  let remaining := len ps - i in
  let rest := py_slice_from ps i in
  let out := simple_loop (S fuel) ps t m pods pod_id i in
  (len (last_players pods) + remaining <= m ->
     out = Returns (extend_last pods rest) /\
     last_players (extend_last pods rest) = last_players pods ++ rest /\
     length (extend_last pods rest) = length pods) /\
  (m < len (last_players pods) + remaining ->
     out = Returns (pods ++ [mkPod pod_id rest remaining]) /\
     0 < remaining < 3) /\
  len rest = remaining /\
  exists pods',
    out = Returns pods' /\
    all_players pods' = all_players pods ++ rest /\
    (length pods' = length pods <->
     len (last_players pods) + remaining <= m).
Proof.
  intros Hi Hsmall Hne remaining rest out.
  assert (Hrest : rest = drop (Z.to_nat i) ps).
  { unfold rest. apply py_slice_from_nonneg. lia. }
  assert (Hlen : len rest = remaining).
  { rewrite Hrest. unfold remaining, len in *. rewrite length_drop. lia. }
  assert (Hslice : py_slice ps i (i + remaining) = rest).
  { rewrite py_slice_nonneg by (unfold remaining; lia).
    rewrite Hrest. apply take_ge. rewrite length_drop.
    unfold remaining, len in *. lia. }
  assert (Hout :
    out = if len (last_players pods) + remaining <=? m
          then Returns (extend_last pods rest)
          else Returns (pods ++ [mkPod pod_id rest remaining])).
  { unfold out. cbn [simple_loop].
    destruct (Z.ltb_spec i (len ps)); [| lia].
    fold remaining.
    destruct (Z.ltb_spec remaining 3); [| lia].
    apply nonempty_true in Hne as ->. cbn [andb].
    destruct (len (last_players pods) + remaining <=? m); [done |].
    destruct (Z.gtb_spec remaining 0); [| unfold remaining in *; lia].
    rewrite Hslice, Hlen.
    replace (i + remaining) with (len ps) by (unfold remaining; lia).
    destruct fuel; simpl; by rewrite Z.ltb_irrefl. }
  rewrite Hout.
  destruct (Z.leb_spec (len (last_players pods) + remaining) m) as [Hfit | Hover].
  - split; [| split; [| split]].
    + intros _. split; [done |]. split.
      * by apply last_players_extend_last.
      * apply length_extend_last.
    + intros ?. lia.
    + done.
    + eexists. split; [done |]. split.
      * by apply all_players_extend_last.
      * rewrite length_extend_last. done.
  - split; [| split; [| split]].
    + intros ?. lia.
    + intros _. split; [done |]. unfold remaining. lia.
    + done.
    + eexists. split; [done |]. split.
      * by rewrite all_players_snoc.
      * rewrite length_app. simpl. lia.
Qed.

Lemma fallback_remainder_witness :
  let ps := ["ann"; "bob"; "cyd"; "dan"; "eve"]%string in
  let pods := [mkPod 1 ["ann"; "bob"; "cyd"; "dan"]%string 4] in
  let out := simple_loop 1 ps 4 4 pods 2 4 in
  (len (last_players pods) + 1 <= 4 ->
     out = Returns (extend_last pods ["eve"]%string) /\
     last_players (extend_last pods ["eve"]%string)
       = last_players pods ++ ["eve"]%string /\
     length (extend_last pods ["eve"]%string) = length pods) /\
  (4 < len (last_players pods) + 1 ->
     out = Returns (pods ++ [mkPod 2 ["eve"]%string 1]) /\
     0 < 1 < 3) /\
  len ["eve"]%string = 1 /\
  exists pods',
    out = Returns pods' /\
    all_players pods' = all_players pods ++ ["eve"]%string /\
    (length pods' = length pods <-> len (last_players pods) + 1 <= 4).
Proof.
  apply (fallback_remainder 0
           ["ann"; "bob"; "cyd"; "dan"; "eve"]%string 4 4
           [mkPod 1 ["ann"; "bob"; "cyd"; "dan"]%string 4] 2 4).
  - vm_compute. split; [discriminate | reflexivity].
  - reflexivity.
  - discriminate.
Defined.

(** Both branches on whole runs: five names in chunks of four do not fit
    a merge under [max_size = 4] and end in a pod of one name; under
    [max_size = 5] the fifth name joins the first pod. *)
Example simple_distribution_emit :
  _simple_distribution 5 ["ann"; "bob"; "cyd"; "dan"; "eve"]%string 4 4
    = Returns [mkPod 1 ["ann"; "bob"; "cyd"; "dan"]%string 4;
               mkPod 2 ["eve"]%string 1].
Proof. reflexivity. Qed.

Example simple_distribution_merge :
  _simple_distribution 5 ["ann"; "bob"; "cyd"; "dan"; "eve"]%string 4 5
    = Returns [mkPod 1 ["ann"; "bob"; "cyd"; "dan"; "eve"]%string 5].
Proof. reflexivity. Qed.

(** ** Statistics *)

Lemma py_sum_foldr l : py_sum l = foldr Z.add 0 l.
Proof.
  unfold py_sum.
  assert (H : forall acc, fold_left Z.add l acc = acc + foldr Z.add 0 l).
  { induction l as [| x l IH]; intros acc; simpl; [lia |]. rewrite IH. lia. }
  rewrite H. lia.
Qed.

Lemma fold_left_min_spec l :
  forall x,
    fold_left Z.min l x ∈ x :: l /\
    forall y, y ∈ x :: l -> fold_left Z.min l x <= y.
Proof.
  induction l as [| z l IH]; intros x; simpl.
  - split; [left |]. intros y Hy%list_elem_of_singleton. lia.
  - destruct (IH (Z.min x z)) as [Hin Hle]. split.
    + apply elem_of_cons in Hin as [-> | Hin].
      * destruct (Z.min_spec x z) as [[_ ->] | [_ ->]];
          [left | right; left].
      * by do 2 right.
    + intros y Hy.
      assert (Hm : fold_left Z.min l (Z.min x z) <= Z.min x z)
        by (apply Hle; left).
      apply elem_of_cons in Hy as [-> | Hy]; [lia |].
      apply elem_of_cons in Hy as [-> | Hy]; [lia |].
      apply Hle. by right.
Qed.

Lemma fold_left_max_spec l :
  forall x,
    fold_left Z.max l x ∈ x :: l /\
    forall y, y ∈ x :: l -> y <= fold_left Z.max l x.
Proof.
  induction l as [| z l IH]; intros x; simpl.
  - split; [left |]. intros y Hy%list_elem_of_singleton. lia.
  - destruct (IH (Z.max x z)) as [Hin Hle]. split.
    + apply elem_of_cons in Hin as [-> | Hin].
      * destruct (Z.max_spec x z) as [[_ ->] | [_ ->]];
          [right; left | left].
      * by do 2 right.
    + intros y Hy.
      assert (Hm : Z.max x z <= fold_left Z.max l (Z.max x z))
        by (apply Hle; left).
      apply elem_of_cons in Hy as [-> | Hy]; [lia |].
      apply elem_of_cons in Hy as [-> | Hy]; [lia |].
      apply Hle. by right.
Qed.

(** ** Float division

    The number of binary digits of a positive integer. *)
Lemma digits2_pos_spec p :
  2 ^ (Zpos (digits2_pos p) - 1) <= Zpos p < 2 ^ Zpos (digits2_pos p).
Proof.
  induction p as [p IH | p IH |]; cbn [digits2_pos].
  - rewrite Pos2Z.inj_succ, Z.pow_succ_r by lia.
    replace (Z.succ (Zpos (digits2_pos p)) - 1)
      with (Z.succ (Zpos (digits2_pos p) - 1)) by lia.
    rewrite Z.pow_succ_r by lia. lia.
  - rewrite Pos2Z.inj_succ, Z.pow_succ_r by lia.
    replace (Z.succ (Zpos (digits2_pos p)) - 1)
      with (Z.succ (Zpos (digits2_pos p) - 1)) by lia.
    rewrite Z.pow_succ_r by lia. lia.
  - simpl. lia.
Qed.

Lemma Zdigits2_spec m :
  0 < m -> 2 ^ (Zdigits2 m - 1) <= m < 2 ^ Zdigits2 m.
Proof. destruct m as [| p | p]; [lia | | lia]. intros _. apply digits2_pos_spec. Qed.

Lemma Zdigits2_nonneg m : 0 <= m -> 0 <= Zdigits2 m.
Proof. destruct m; simpl; lia. Qed.

Lemma Zdigits2_le m n : 0 <= m -> 0 <= n -> m < 2 ^ n -> Zdigits2 m <= n.
Proof.
  intros Hm Hn Hlt. destruct (Z.eq_dec m 0) as [-> | Hne]; [simpl; lia |].
  destruct (Zdigits2_spec m ltac:(lia)) as [Hlo _].
  destruct (Z_le_gt_dec (Zdigits2 m) n) as [| Hgt]; [done |].
  assert (2 ^ n <= 2 ^ (Zdigits2 m - 1)) by (apply Z.pow_le_mono_r; lia).
  lia.
Qed.

Lemma Zdigits2_ge m n : 0 <= n -> 2 ^ n <= m -> n + 1 <= Zdigits2 m.
Proof.
  intros Hn Hle.
  assert (0 < 2 ^ n) by (apply Z.pow_pos_nonneg; lia).
  destruct (Zdigits2_spec m ltac:(lia)) as [_ Hhi].
  destruct (Z_le_gt_dec (n + 1) (Zdigits2 m)) as [| Hgt]; [done |].
  pose proof (Zdigits2_nonneg m ltac:(lia)).
  assert (2 ^ Zdigits2 m <= 2 ^ n) by (apply Z.pow_le_mono_r; lia).
  lia.
Qed.

(** Shifting a record right by one bit halves the scale: the record
    then holds [A / (2 * B)]. *)
Lemma shr_1_represents mrs A B :
  represents mrs A B -> represents (shr_1 mrs) A (B * 2).
Proof.
  destruct mrs as [m r s]. intros (HB & HA & Hm & Hrs). cbn in Hm, Hrs.
  pose proof (Z.div_mod A B ltac:(lia)) as Hdm.
  pose proof (Z.mod_pos_bound A B HB) as Hrem.
  assert (Hq : A / (B * 2) = m / 2).
  { rewrite Hm. symmetry. apply Z.div_div; lia. }
  assert (Hr : A mod (B * 2) = A mod B + B * (m mod 2)).
  { rewrite Hm. apply Z.rem_mul_r; lia. }
  assert (Hm0 : 0 <= m) by (rewrite Hm; apply Z.div_pos; lia).
  unfold represents. rewrite Hq, Hr.
  set (rem := A mod B) in *. clearbody rem.
  assert (Hor : orb r s = negb (rem =? 0)).
  { unfold loc_bits in Hrs. destruct (Z.eqb_spec rem 0).
    - by injection Hrs as -> ->.
    - destruct (2 * rem ?= B); by injection Hrs as -> ->. }
  split; [lia |]. split; [done |].
  unfold loc_bits.
  destruct m as [| [p | p |] | p]; cbn [shr_1 shr_m shr_r shr_s]; try lia.
  - split; [done |]. rewrite Hor. change (0 mod 2) with 0.
    replace (rem + B * 0) with rem by lia.
    destruct (Z.eqb_spec rem 0); [done |].
    destruct (Z.compare_spec (2 * rem) (B * 2)); simpl; (done || lia).
  - replace (Z.pos p~1 mod 2) with 1
      by (rewrite Pos2Z.inj_xI, Z.add_comm, Z.mul_comm, Z.mod_add; done).
    replace (Z.pos p~1 / 2) with (Z.pos p)
      by (rewrite Pos2Z.inj_xI, Z.add_comm, Z.mul_comm, Z.div_add; done).
    split; [done |]. rewrite Hor.
    destruct (Z.eqb_spec (rem + B * 1) 0); [lia |].
    destruct (Z.eqb_spec rem 0);
      destruct (Z.compare_spec (2 * (rem + B * 1)) (B * 2));
      simpl; (done || lia).
  - replace (Z.pos p~0 mod 2) with 0
      by (rewrite Pos2Z.inj_xO, Z.mul_comm, Z.mod_mul; done).
    replace (Z.pos p~0 / 2) with (Z.pos p)
      by (rewrite Pos2Z.inj_xO, Z.mul_comm, Z.div_mul; done).
    split; [done |]. rewrite Hor.
    replace (rem + B * 0) with rem by lia.
    destruct (Z.eqb_spec rem 0); [done |].
    destruct (Z.compare_spec (2 * rem) (B * 2)); simpl; (done || lia).
  - split; [done |]. rewrite Hor. change (1 mod 2) with 1.
    destruct (Z.eqb_spec (rem + B * 1) 0); [lia |].
    destruct (Z.eqb_spec rem 0);
      destruct (Z.compare_spec (2 * (rem + B * 1)) (B * 2));
      simpl; (done || lia).
Qed.

Lemma iter_shr_1_represents p :
  forall mrs A B,
    represents mrs A B ->
    represents (SpecFloat.iter_pos shr_1 p mrs) A (B * 2 ^ Zpos p).
Proof.
  induction p as [p IH | p IH |]; intros mrs A B H; cbn [SpecFloat.iter_pos].
  - apply shr_1_represents in H. apply IH, IH in H.
    replace (B * 2 ^ Z.pos p~1) with (B * 2 * 2 ^ Z.pos p * 2 ^ Z.pos p);
      [done |].
    rewrite (Pos2Z.inj_xI p), Z.pow_add_r, Z.pow_twice_r, Z.pow_1_r by lia. lia.
  - apply IH, IH in H.
    replace (B * 2 ^ Z.pos p~0) with (B * 2 ^ Z.pos p * 2 ^ Z.pos p);
      [done |].
    rewrite (Pos2Z.inj_xO p), Z.pow_twice_r. lia.
  - apply shr_1_represents in H. by rewrite Z.pow_1_r.
Qed.

Lemma shr_represents mrs A B e n :
  represents mrs A B ->
  snd (shr mrs e n) = e + Z.max 0 n /\
  represents (fst (shr mrs e n)) A (B * 2 ^ Z.max 0 n).
Proof.
  intros H. destruct n as [| p | p]; cbn [shr fst snd].
  - rewrite Z.max_l by lia. rewrite Z.pow_0_r, Z.mul_1_r, Z.add_0_r. done.
  - rewrite Z.max_r by lia. split; [done |]. by apply iter_shr_1_represents.
  - rewrite Z.max_l by lia. rewrite Z.pow_0_r, Z.mul_1_r, Z.add_0_r. done.
Qed.

(** The quotient and the location that the division computes are a
    record for [A / b]. *)
Lemma new_location_represents A b :
  0 <= A -> 0 < b ->
  represents (shr_record_of_loc (A / b) (new_location b (A mod b))) A b.
Proof.
  intros HA Hb. pose proof (Z.mod_pos_bound A b Hb) as Hrem.
  set (r := A mod b) in *.
  assert (H : shr_record_of_loc (A / b) (new_location b r) =
              {| shr_m := A / b;
                 shr_r := fst (loc_bits r b);
                 shr_s := snd (loc_bits r b) |}).
  { unfold new_location, new_location_even, new_location_odd, loc_bits.
    destruct (Z.even b) eqn:Ev.
    - destruct (Z.eqb_spec r 0); [done |]. by destruct (2 * r ?= b).
    - destruct (Z.eqb_spec r 0); [done |].
      assert (Hodd : Z.odd b = true) by (by rewrite <- Z.negb_even, Ev).
      apply Z.odd_spec in Hodd as [k Hk].
      destruct (Z.compare_spec (2 * r + 1) b);
        destruct (Z.compare_spec (2 * r) b); simpl; (done || lia). }
  rewrite H. unfold represents. cbn [shr_m shr_r shr_s]. fold r.
  split; [done |]. split; [done |]. split; [done |]. by destruct (loc_bits r b).
Qed.

(** Rounding to nearest: the integer chosen is within one half of
    [A / B], and is [A / B] itself when that is an integer. *)
Lemma round_represents mrs A B :
  represents mrs A B ->
  let m := round_nearest_even (shr_m mrs) (loc_of_shr_record mrs) in
  A / B <= m <= A / B + 1 /\
  2 * Z.abs (m * B - A) <= B /\
  (A mod B = 0 -> m * B = A).
Proof.
  destruct mrs as [m0 r s]. intros (HB & HA & Hm & Hrs). cbn in Hm, Hrs.
  pose proof (Z.div_mod A B ltac:(lia)) as Hdm.
  pose proof (Z.mod_pos_bound A B HB) as Hrem.
  cbn [shr_m]. rewrite <- Hm in *.
  set (rem := A mod B) in *. clearbody rem. clear Hm.
  unfold loc_bits in Hrs.
  destruct (Z.eqb_spec rem 0).
  - injection Hrs as -> ->. cbn. split; [lia |]. split; [| lia]. lia.
  - destruct (Z.compare_spec (2 * rem) B); injection Hrs as -> ->; cbn.
    + destruct (Z.even m0); (split; [lia |]); (split; [| lia]); lia.
    + split; [lia |]. split; [| lia]. lia.
    + split; [lia |]. split; [| lia]. lia.
Qed.

(** The exponent of the format for a number of [x] binary digits. *)
Lemma fexp_eq x : fexp prec emax x = Z.max (x - 53) (-1074).
Proof. reflexivity. Qed.

Lemma pow2_pos x : 0 <= x -> 0 < 2 ^ x.
Proof. intros. apply Z.pow_pos_nonneg; lia. Qed.

Lemma pow2_split x y : 0 <= x -> 0 <= y -> 2 ^ (x + y) = 2 ^ x * 2 ^ y.
Proof. intros. apply Z.pow_add_r; lia. Qed.

(** The integer division that [SFdiv] performs on two integers: the
    dividend is scaled up so that the quotient has 53 bits or the least
    exponent. *)
Lemma div_core_eq a b :
  0 < a -> 0 < b ->
  let e' := Z.min (Z.max (Zdigits2 a - Zdigits2 b - 53) (-1074)) 0 in
  SFdiv_core_binary prec emax a 0 b 0 =
    (a * 2 ^ (- e') / b, e', new_location b ((a * 2 ^ (- e')) mod b)).
Proof.
  intros Ha Hb e'. unfold SFdiv_core_binary.
  rewrite !Z.add_0_r, fexp_eq. change (0 - 0) with 0.
  fold e'.
  assert (Hm : match 0 - e' with
               | Z.pos _ => Z.shiftl a (0 - e') | 0 => a | Z.neg _ => 0 end
               = a * 2 ^ (- e')).
  { assert (He : e' <= 0) by (unfold e'; lia).
    destruct (0 - e') as [| p | p] eqn:E.
    - replace (- e') with 0 by lia. rewrite Z.pow_0_r. lia.
    - rewrite Z.shiftl_mul_pow2 by lia. f_equal. f_equal. lia.
    - lia. }
  rewrite Hm. unfold Z.div, Z.modulo.
  by destruct (Z.div_eucl (a * 2 ^ (- e')) b).
Qed.

(** The rounding that follows the integer division: one shift down to
    the exponent of the format, the rounding of the last bit, and one more
    shift when the mantissa was rounded up to [2 ^ 53]. *)
Lemma round_aux_spec sx A b e' :
  0 <= A -> 0 < b -> -1074 <= e' ->
  (e' = -1074 \/ 53 <= Zdigits2 (A / b)) ->
  let e1 := Z.max (Zdigits2 (A / b) + e' - 53) (-1074) in
  let B1 := b * 2 ^ (e1 - e') in
  exists m e m2,
    binary_round_aux prec emax sx (A / b) e' (new_location b (A mod b))
      = float_of sx m e /\
    e' <= e1 /\ e1 <= e <= e1 + 1 /\
    0 <= m < 2 ^ 53 /\
    (m < 2 ^ 52 -> e = -1074) /\
    m * 2 ^ (e - e1) = m2 /\
    2 * Z.abs (m2 * B1 - A) <= B1 /\
    (A mod B1 = 0 -> m2 * B1 = A).
Proof.
  intros HA Hb He' Hq e1 B1.
  set (q := A / b) in *.
  assert (Hq0 : 0 <= q) by (apply Z.div_pos; lia).
  pose proof (Zdigits2_nonneg q Hq0) as Hdq0.
  assert (Hn1 : 0 <= e1 - e') by (unfold e1; lia).
  pose proof (new_location_represents A b HA Hb) as Hrep0. fold q in Hrep0.
  destruct (shr_represents _ A b e'
              (fexp prec emax (Zdigits2 q + e') - e') Hrep0) as [He1 Hrep1].
  unfold binary_round_aux, shr_fexp.
  destruct (shr (shr_record_of_loc q (new_location b (A mod b))) e'
              (fexp prec emax (Zdigits2 q + e') - e')) as [mrs1 e1'].
  cbn [fst snd] in He1, Hrep1.
  rewrite fexp_eq in He1, Hrep1. fold e1 in He1, Hrep1.
  rewrite Z.max_r in He1, Hrep1 by lia.
  assert (e1' = e1) as -> by lia. clear He1. fold B1 in Hrep1.
  pose proof (pow2_pos (e1 - e') Hn1) as Hp1.
  assert (HB1 : 0 < B1) by (unfold B1; lia).
  (* the mantissa after the first shift *)
  assert (Hm1 : shr_m mrs1 = q / 2 ^ (e1 - e')).
  { destruct Hrep1 as (_ & _ & -> & _). unfold B1, q.
    symmetry. apply Z.div_div; lia. }
  assert (Hm1hi : shr_m mrs1 < 2 ^ 53).
  { rewrite Hm1. apply Z.div_lt_upper_bound; [done |].
    destruct (Z.eq_dec q 0) as [-> | Hne]; [lia |].
    destruct (Zdigits2_spec q ltac:(lia)) as [_ Hhi].
    assert (2 ^ Zdigits2 q <= 2 ^ (e1 - e' + 53))
      by (apply Z.pow_le_mono_r; unfold e1; lia).
    rewrite pow2_split in * by lia. lia. }
  assert (Hm1lo : e1 = -1074 \/ 2 ^ 52 <= shr_m mrs1).
  { destruct (Z.eq_dec e1 (-1074)) as [| Hne]; [by left | right].
    assert (He1 : e1 = Zdigits2 q + e' - 53) by (unfold e1 in *; lia).
    assert (53 <= Zdigits2 q) by lia.
    assert (0 < q) by (destruct q; simpl in *; lia).
    destruct (Zdigits2_spec q ltac:(lia)) as [Hlo _].
    rewrite Hm1. apply Z.div_le_lower_bound; [done |].
    replace (Zdigits2 q - 1) with (e1 - e' + 52) in Hlo by lia.
    rewrite pow2_split in Hlo by lia. lia. }
  destruct (round_represents mrs1 A B1 Hrep1) as (Hm2 & Herr & Hexact).
  set (m2 := round_nearest_even (shr_m mrs1) (loc_of_shr_record mrs1)) in *.
  destruct Hrep1 as (_ & _ & Hm1' & _). rewrite <- Hm1' in Hm2.
  assert (Hrep2 : represents (shr_record_of_loc m2 loc_Exact) m2 1).
  { unfold represents. cbn. rewrite Z.div_1_r, Z.mod_1_r.
    split; [lia |]. split; [| done].
    assert (0 <= shr_m mrs1) by (rewrite Hm1; apply Z.div_pos; lia). lia. }
  destruct (shr_represents _ m2 1 e1
              (fexp prec emax (Zdigits2 m2 + e1) - e1) Hrep2) as [He3 Hrep3].
  destruct (shr (shr_record_of_loc m2 loc_Exact) e1
              (fexp prec emax (Zdigits2 m2 + e1) - e1)) as [mrs3 e3].
  cbn [fst snd] in He3, Hrep3. rewrite fexp_eq in He3, Hrep3.
  assert (Hm2nn : 0 <= m2).
  { assert (0 <= shr_m mrs1) by (rewrite Hm1; apply Z.div_pos; lia). lia. }
  assert (He1lo : -1074 <= e1) by (unfold e1; lia).
  destruct (Z_lt_le_dec m2 (2 ^ 53)) as [Hlt | Hge].
  - (* no carry *)
    assert (Hd2 : Zdigits2 m2 <= 53) by (apply Zdigits2_le; lia).
    rewrite Z.max_l in He3, Hrep3 by lia.
    rewrite Z.pow_0_r, Z.mul_1_r in Hrep3. rewrite Z.add_0_r in He3. subst e3.
    destruct Hrep3 as (_ & _ & Hm3 & _). rewrite Z.div_1_r in Hm3.
    exists m2, e1, m2. rewrite Hm3. split; [done |].
    split; [lia |]. split; [lia |]. split; [lia |]. split; [lia |].
    split; [| done]. rewrite Z.sub_diag, Z.pow_0_r. lia.
  - (* the mantissa was rounded up to 2 ^ 53 *)
    assert (m2 = 2 ^ 53) as Hm2eq by lia.
    assert (Hd2 : Zdigits2 m2 = 54) by (by rewrite Hm2eq).
    rewrite Hd2 in He3, Hrep3.
    replace (Z.max 0 (Z.max (54 + e1 - 53) (-1074) - e1)) with 1
      in He3, Hrep3 by lia.
    destruct Hrep3 as (_ & _ & Hm3 & _).
    rewrite Hm2eq in Hm3. change (2 ^ 53 / (1 * 2 ^ 1)) with (2 ^ 52) in Hm3.
    exists (2 ^ 52), (e1 + 1), m2. rewrite Hm3, He3. split; [done |].
    split; [lia |]. split; [lia |]. split; [lia |]. split; [lia |].
    split; [| done]. rewrite Hm2eq.
    replace (e1 + 1 - e1) with 1 by lia. done.
Qed.

Lemma div_lower_bound a b s :
  0 < a -> 0 < b -> 0 <= s ->
  0 <= Zdigits2 a + s - Zdigits2 b - 1 ->
  Zdigits2 a + s - Zdigits2 b <= Zdigits2 (a * 2 ^ s / b).
Proof.
  intros Ha Hb Hs Hk.
  destruct (Zdigits2_spec a Ha) as [Halo _].
  destruct (Zdigits2_spec b Hb) as [_ Hbhi].
  pose proof (Zdigits2_nonneg a ltac:(lia)).
  pose proof (Zdigits2_nonneg b ltac:(lia)).
  assert (1 <= Zdigits2 a) by (destruct a; simpl in *; lia).
  set (k := Zdigits2 a + s - Zdigits2 b - 1) in *.
  replace (Zdigits2 a + s - Zdigits2 b) with (k + 1) by lia.
  apply Zdigits2_ge; [done |].
  apply Z.div_le_lower_bound; [done |].
  pose proof (pow2_pos k Hk). pose proof (pow2_pos s Hs).
  assert (Hpow : 2 ^ Zdigits2 b * 2 ^ k = 2 ^ (Zdigits2 a - 1) * 2 ^ s).
  { rewrite <- !pow2_split by lia. f_equal. lia. }
  assert (b * 2 ^ k <= 2 ^ Zdigits2 b * 2 ^ k)
    by (apply Z.mul_le_mono_nonneg_r; lia).
  assert (2 ^ (Zdigits2 a - 1) * 2 ^ s <= a * 2 ^ s)
    by (apply Z.mul_le_mono_nonneg_r; lia).
  lia.
Qed.

Lemma div_upper_bound a b s j :
  0 < a -> 0 < b -> 0 <= s -> 0 <= j ->
  a < 2 ^ j * b ->
  Zdigits2 (a * 2 ^ s / b) <= j + s.
Proof.
  intros Ha Hb Hs Hj Hlt.
  pose proof (pow2_pos s Hs). pose proof (pow2_pos j Hj).
  apply Zdigits2_le; [apply Z.div_pos; lia | lia |].
  apply Z.div_lt_upper_bound; [done |].
  rewrite pow2_split by lia.
  assert (a * 2 ^ s < 2 ^ j * b * 2 ^ s)
    by (apply Z.mul_lt_mono_pos_r; lia).
  lia.
Qed.

(** The division of the Standard Library on two positive integers. *)
Lemma SFdiv_rounded sx sy a b :
  0 < a -> 0 < b ->
  exists m e,
    SFdiv prec emax (S754_finite sx (Z.to_pos a) 0)
      (S754_finite sy (Z.to_pos b) 0) = float_of (xorb sx sy) m e /\
    rounded_quotient a b m e.
Proof.
  intros Ha Hb. cbn [SFdiv]. rewrite !Z2Pos.id by done.
  rewrite (div_core_eq a b Ha Hb).
  set (e' := Z.min (Z.max (Zdigits2 a - Zdigits2 b - 53) (-1074)) 0).
  set (s := - e'). set (A := a * 2 ^ s).
  assert (Hs : 0 <= s <= 1074) by (unfold s, e'; lia).
  pose proof (pow2_pos s ltac:(lia)) as Hps.
  assert (HA : 0 <= A) by (unfold A; lia).
  assert (Hq : e' = -1074 \/ 53 <= Zdigits2 (A / b)).
  { destruct (Z.eq_dec e' (-1074)) as [| Hne]; [by left | right].
    etrans; [| apply div_lower_bound; try done; unfold s, e' in *; lia].
    unfold s, e' in *. lia. }
  destruct (round_aux_spec (xorb sx sy) A b e' HA Hb ltac:(lia) Hq)
    as (m & e & m2 & Heq & He1 & He & Hm & Hsub & Hm2 & Herr & Hexact).
  set (e1 := Z.max (Zdigits2 (A / b) + e' - 53) (-1074)) in *.
  set (n1 := e1 - e') in *.
  exists m, e. split; [exact Heq |].
  assert (Hn1 : 0 <= n1) by (unfold n1; lia).
  pose proof (pow2_pos n1 Hn1) as Hpn.
  set (P := 2 ^ (1074 - s)).
  assert (HP : 0 < P) by (apply pow2_pos; lia).
  assert (H1074 : 2 ^ 1074 = 2 ^ s * P).
  { unfold P. rewrite <- pow2_split by lia. f_equal. lia. }
  assert (He1P : 2 ^ (e1 + 1074) = 2 ^ n1 * P).
  { unfold P. rewrite <- pow2_split by lia. f_equal. unfold n1, s. lia. }
  assert (Hval : m * 2 ^ (e + 1074) = m2 * 2 ^ n1 * P).
  { replace (e + 1074) with ((e - e1) + (e1 + 1074)) by lia.
    rewrite pow2_split by lia. rewrite He1P, <- Hm2. lia. }
  assert (Hee : 2 ^ (e1 + 1074) <= 2 ^ (e + 1074))
    by (apply Z.pow_le_mono_r; lia).
  unfold rounded_quotient. split; [lia |]. split; [done |]. split; [done |].
  split; [| split].
  - rewrite Hval, H1074.
    replace (m2 * 2 ^ n1 * P * b - a * (2 ^ s * P))
      with ((m2 * (b * 2 ^ n1) - A) * P) by (unfold A; lia).
    rewrite Z.abs_mul, (Z.abs_eq P) by lia.
    assert (2 * Z.abs (m2 * (b * 2 ^ n1) - A) * P <= b * 2 ^ n1 * P)
      by (apply Z.mul_le_mono_nonneg_r; lia).
    assert (2 ^ (e1 + 1074) * b <= 2 ^ (e + 1074) * b)
      by (apply Z.mul_le_mono_nonneg_r; lia).
    rewrite He1P in *. lia.
  - intros k Hk Hk53.
    assert (Hk0 : 0 < k) by nia.
    assert (Hdq : Zdigits2 (A / b) <= 53 + s).
    { apply div_upper_bound; try done; try lia.
      rewrite Hk. apply Z.mul_lt_mono_pos_r; lia. }
    assert (Hn1s : n1 <= s) by (unfold n1, e1, s in *; lia).
    assert (HAk : A = k * 2 ^ (s - n1) * (b * 2 ^ n1)).
    { unfold A. rewrite Hk.
      replace s with ((s - n1) + n1) at 1 by lia.
      rewrite pow2_split by lia. lia. }
    assert (Hmod : A mod (b * 2 ^ n1) = 0)
      by (rewrite HAk; apply Z.mod_mul; lia).
    specialize (Hexact Hmod).
    rewrite Hval, H1074.
    assert (m2 * 2 ^ n1 * b = k * 2 ^ s * b) by (unfold A in Hexact; lia).
    assert (Hmk : m2 * 2 ^ n1 = k * 2 ^ s)
      by (apply (Z.mul_reg_r _ _ b); lia).
    rewrite Hmk. ring.
  - intros Hlt.
    assert (Hdq : Zdigits2 (A / b) <= 1023 + s).
    { apply div_upper_bound; try done; lia. }
    unfold e1, s in *. lia.
Qed.

Lemma int_truediv_nonzero a b :
  a <> 0 -> b <> 0 ->
  int_truediv a b =
    match SFdiv prec emax
            (S754_finite (a <? 0) (Z.to_pos (Z.abs a)) 0)
            (S754_finite (b <? 0) (Z.to_pos (Z.abs b)) 0) with
    | S754_infinity _ => Raises OverflowError
    | f => Returns f
    end.
Proof. by destruct a, b. Qed.

Lemma rounded_valid e p :
  -1074 <= e <= 971 -> Z.pos p < 2 ^ 53 ->
  (Z.pos p < 2 ^ 52 -> e = -1074) ->
  bounded prec emax p e = true.
Proof.
  intros He Hhi Hlo. unfold bounded, canonical_mantissa.
  apply andb_true_intro. split; [| apply Z.leb_le; unfold prec, emax; lia].
  apply Z.eqb_eq. rewrite fexp_eq.
  change (Z.pos (digits2_pos p)) with (Zdigits2 (Z.pos p)).
  assert (Zdigits2 (Z.pos p) <= 53) by (apply Zdigits2_le; lia).
  destruct (Z_lt_le_dec (Z.pos p) (2 ^ 52)) as [Hsub | Hnorm]; [lia |].
  assert (52 + 1 <= Zdigits2 (Z.pos p)) by (apply Zdigits2_ge; lia).
  lia.
Qed.

Lemma signed_error U X E a b :
  a <> 0 -> b <> 0 ->
  2 * Z.abs (U * Z.abs b - Z.abs a * X) <= E * Z.abs b ->
  2 * Z.abs ((if xorb (a <? 0) (b <? 0) then -1 else 1) * U * b - a * X)
    <= E * Z.abs b.
Proof.
  intros Ha Hb H.
  destruct (Z.ltb_spec a 0), (Z.ltb_spec b 0); cbn [xorb];
    [rewrite (Z.abs_neq a) in H by lia; rewrite (Z.abs_neq b) in H |- * by lia
    |rewrite (Z.abs_neq a) in H by lia; rewrite (Z.abs_eq b) in H |- * by lia
    |rewrite (Z.abs_eq a) in H by lia; rewrite (Z.abs_neq b) in H |- * by lia
    |rewrite (Z.abs_eq a) in H by lia; rewrite (Z.abs_eq b) in H |- * by lia].
  - replace (1 * U * b - a * X) with (- (U * - b - - a * X)) by ring.
    by rewrite Z.abs_opp.
  - replace (-1 * U * b - a * X) with (- (U * b - - a * X)) by ring.
    by rewrite Z.abs_opp.
  - replace (-1 * U * b - a * X) with (U * - b - a * X) by ring. done.
  - replace (1 * U * b - a * X) with (U * b - a * X) by ring. done.
Qed.

(** What [a / b] returns for a non-zero [b]: a finite float in the
    format, within half a unit in its last place of the exact quotient,
    and the exact quotient when that is an integer below [2 ^ 53] in
    absolute value.  It raises only [OverflowError], and only when the
    quotient is at least [2 ^ 1023] in absolute value. *)
Lemma int_truediv_spec a b :
  b <> 0 ->
  match int_truediv a b with
  | Returns f =>
      is_finite f = true /\
      valid_binary prec emax f = true /\
      2 * Z.abs (float_units f * b - a * 2 ^ 1074) <= float_ulp f * Z.abs b /\
      (forall k, a = k * b -> Z.abs k < 2 ^ 53 ->
                 float_units f = k * 2 ^ 1074)
  | Raises e => e = OverflowError /\ 2 ^ 1023 * Z.abs b <= Z.abs a
  | OutOfFuel => False
  end.
Proof.
  intros Hb. destruct (Z.eq_dec a 0) as [-> | Ha].
  { assert (E : int_truediv 0 b = Returns (S754_zero (b <? 0)))
      by (by destruct b).
    rewrite E. cbn. split; [done |]. split; [done |]. split; [lia |].
    intros k Hk _. assert (k = 0) by nia. lia. }
  rewrite int_truediv_nonzero by done.
  destruct (SFdiv_rounded (a <? 0) (b <? 0) (Z.abs a) (Z.abs b)
              ltac:(lia) ltac:(lia))
    as (m & e & -> & He & Hm & Hsub & Herr & Hexact & Hover).
  assert (Hunits : forall k, a = k * b -> Z.abs k < 2 ^ 53 ->
            m * 2 ^ (e + 1074) = Z.abs k * 2 ^ 1074).
  { intros k Hk Hk53. apply Hexact; [| done].
    rewrite Hk. apply Z.abs_mul. }
  assert (Hpe : 0 < 2 ^ (e + 1074)) by (apply pow2_pos; lia).
  destruct m as [| p | p]; cbn [float_of]; [| | lia].
  - cbn. split; [done |]. split; [done |].
    rewrite Z.sub_0_l, Z.abs_opp, Z.abs_mul, (Z.abs_eq (2 ^ 1074)) by lia.
    rewrite Hsub in Herr by lia.
    change (2 ^ (-1074 + 1074)) with 1 in Herr.
    rewrite Z.mul_0_l, Z.sub_0_l, Z.abs_opp, Z.abs_mul, Z.abs_idemp in Herr.
    rewrite (Z.abs_eq (2 ^ 1074)) in Herr by lia.
    split; [lia |].
    intros k Hk Hk53. specialize (Hunits k Hk Hk53). lia.
  - destruct (Z.leb_spec e 971) as [Hle | Hgt].
    + cbn [is_finite valid_binary float_units float_ulp].
      split; [done |]. split; [apply rounded_valid; lia |].
      split.
      * by apply signed_error.
      * intros k Hk Hk53. specialize (Hunits k Hk Hk53). rewrite Hunits.
        assert (Hk0 : k <> 0) by (intros ->; lia).
        destruct (Z.ltb_spec a 0), (Z.ltb_spec b 0); cbn [xorb];
          [assert (0 < k) by nia | assert (k < 0) by nia
          | assert (k < 0) by nia | assert (0 < k) by nia]; lia.
    + split; [done |].
      destruct (Z_lt_le_dec (Z.abs a) (2 ^ 1023 * Z.abs b)) as [Hlt | Hge];
        [specialize (Hover Hlt); lia | lia].
Qed.

(** ** The statistics of a pod list *)

Lemma get_statistics_cons p rest :
  let pods := p :: rest in
  let total := foldr Z.add 0 (map size pods) in
  get_statistics pods =
    match int_truediv total (len pods) with
    | Returns avg =>
        Returns (mkStatistics (len pods) total (PyFloat avg)
                   (py_min (map size pods)) (py_max (map size pods))
                   (Some (map size pods)))
    | Raises e => Raises e
    | OutOfFuel => OutOfFuel
    end.
Proof. intros pods total. unfold get_statistics, pods. by rewrite py_sum_foldr. Qed.

Lemma len_cons_pos {A} (x : A) l : 0 < len (x :: l).
Proof. unfold len. simpl. lia. Qed.

(** C7 fails as stated.  One pod whose [size] is [2 ^ 1024]: the total
    divided by the pod count is beyond the largest float, the division
    raises [OverflowError] and no statistics are returned.  And where
    statistics are returned the average is a float, the rounded quotient:
    for sizes 3, 3 and 4 it is [7505999378950827 * 2 ^ -51]
    (3.3333333333333335), which is not 10 divided by 3. *)
Lemma get_statistics_overflow :
  get_statistics [mkPod 1 [] (2 ^ 1024)] = Raises OverflowError /\
  get_statistics [mkPod 1 [] 3; mkPod 2 [] 3; mkPod 3 [] 4] =
    Returns (mkStatistics 3 10
               (PyFloat (S754_finite false 7505999378950827 (-51)))
               (Some 3) (Some 4) (Some [3; 3; 4])) /\
  float_units (S754_finite false 7505999378950827 (-51)) * 3
    <> 10 * 2 ^ 1074.
Proof.
  split; [by vm_compute |]. split; [by vm_compute |].
  vm_compute. discriminate.
Qed.

(** C7, amended.  For no pods the statistics are 0 pods, 0 participants
    and an average of 0, with no division.  For at least one pod
    [get_statistics] returns whenever the total is below [2 ^ 1023] times
    the pod count in absolute value, and otherwise it returns or raises
    [OverflowError], nothing else.  What it returns: the participant total
    is the sum of the pods' sizes, the pod count is the length of the
    list, the average is a finite float of the binary64 format that
    differs from the total divided by the count by at most half a unit in
    its last place, and that is exactly the total divided by the count
    when this is an integer below [2 ^ 53] in absolute value; the minimum
    and maximum are a least and a greatest of the pods' sizes.  For pods
    of sizes 4, 3 and 5: total 12, 3 pods, average 4.0, minimum 3,
    maximum 5. *)
Theorem get_statistics_correct :
  get_statistics [] = Returns (mkStatistics 0 0 (PyInt 0) None None None) /\
  (forall p rest,
     let pods := p :: rest in
     let total := foldr Z.add 0 (map size pods) in
     (Z.abs total < 2 ^ 1023 * len pods ->
      exists s, get_statistics pods = Returns s) /\
     match get_statistics pods with
     | Returns s =>
         total_players s = total /\
         total_pods s = len pods /\
         (exists f,
            avg_pod_size s = PyFloat f /\
            is_finite f = true /\
            valid_binary prec emax f = true /\
            2 * Z.abs (float_units f * len pods - total * 2 ^ 1074)
              <= float_ulp f * len pods /\
            (forall k, total = k * len pods -> Z.abs k < 2 ^ 53 ->
                       float_units f = k * 2 ^ 1074)) /\
         pod_sizes s = Some (map size pods) /\
         exists lo hi,
           min_pod_size s = Some lo /\ max_pod_size s = Some hi /\
           lo ∈ map size pods /\ hi ∈ map size pods /\
           forall p', p' ∈ pods -> lo <= size p' <= hi
     | Raises e => e = OverflowError /\ 2 ^ 1023 * len pods <= Z.abs total
     | OutOfFuel => False
     end) /\
  (forall i1 l1 i2 l2 i3 l3,
     get_statistics [mkPod i1 l1 4; mkPod i2 l2 3; mkPod i3 l3 5] =
       Returns (mkStatistics 3 12
                  (PyFloat (S754_finite false 4503599627370496 (-50)))
                  (Some 3) (Some 5) (Some [4; 3; 5])) /\
     float_units (S754_finite false 4503599627370496 (-50)) = 4 * 2 ^ 1074).
Proof.
  split; [reflexivity |]. split.
  - intros p rest pods total.
    pose proof (len_cons_pos p rest) as Hlen. fold pods in Hlen.
    pose proof (int_truediv_spec total (len pods) ltac:(lia)) as Hdiv.
    rewrite (Z.abs_eq (len pods)) in Hdiv by lia.
    pose proof (get_statistics_cons p rest) as Hgs. cbv zeta in Hgs.
    fold pods in Hgs. fold total in Hgs. rewrite Hgs. clear Hgs.
    destruct (int_truediv total (len pods)) as [f | e |]; [| | done].
    + split; [by eexists |].
      cbn [total_players total_pods avg_pod_size pod_sizes
           min_pod_size max_pod_size].
      split; [done |]. split; [done |].
      split; [by exists f |]. split; [done |].
      unfold pods. simpl map. cbn [py_min py_max].
      destruct (fold_left_min_spec (map size rest) (size p)) as [Hmin1 Hmin2].
      destruct (fold_left_max_spec (map size rest) (size p)) as [Hmax1 Hmax2].
      eexists _, _. repeat split; try done.
      * apply Hmin2. change (size p' ∈ map size (p :: rest)).
        by apply list_elem_of_fmap_2.
      * apply Hmax2. change (size p' ∈ map size (p :: rest)).
        by apply list_elem_of_fmap_2.
    + split; [| done]. intros Hlt. lia.
  - intros. split; by vm_compute.
Qed.

(** ** The stored history *)

(** C10, evaluated with [max_history_items = 0]: [history[-0:]] is the
    whole list, so nothing is ever discarded and the stored history grows
    with every call; after one call on an empty store it holds one entry,
    more than the maximum. *)
Theorem history_unbounded_when_max_items_zero :
  (forall stored calls,
     save_all 0 stored calls = stored ++ map entry_of calls) /\
  save_to_history "2026-01-01T10:00:00" 0 [] [] =
    [mkHistoryEntry "2026-01-01T10:00:00" []] /\
  len (save_to_history "2026-01-01T10:00:00" 0 [] []) > 0.
Proof.
  split; [| split; reflexivity].
  intros stored calls. revert stored.
  induction calls as [| c calls IH]; intros stored; simpl.
  - by rewrite app_nil_r.
  - rewrite IH. unfold save_to_history, entry_of.
    assert (Hpos : 0 < len (stored ++ [mkHistoryEntry (fst c) (snd c)])).
    { rewrite len_app. pose proof (len_nonneg stored).
      unfold len at 2. simpl. lia. }
    destruct (Z.gtb_spec (len (stored ++ [mkHistoryEntry c.1 c.2])) 0);
      [| lia].
    rewrite py_slice_from_nonneg by lia.
    change (Z.to_nat (- 0)) with 0%nat. rewrite drop_0.
    by rewrite <- app_assoc.
Qed.

Lemma suffix_app_suffix {A} (n : nat) (a b : list A) :
  suffix n (suffix n a ++ b) = suffix n (a ++ b).
Proof.
  unfold suffix. rewrite !length_app, length_drop.
  destruct (decide (length a <= n)%nat) as [Hle | Hgt].
  - replace (length a - n)%nat with 0%nat by lia. simpl.
    by replace (length a - 0 + length b - n)%nat
      with (length a + length b - n)%nat by lia.
  - replace (length a - (length a - n) + length b - n)%nat
      with (length b) by lia.
    rewrite !drop_app, length_drop, drop_drop.
    f_equal; f_equal; lia.
Qed.

Lemma save_to_history_suffix now max_items stored pods :
  1 <= max_items ->
  save_to_history now max_items stored pods =
    suffix (Z.to_nat max_items) (stored ++ [mkHistoryEntry now pods]).
Proof.
  intros Hmax. unfold save_to_history, suffix, py_slice_from, slice_bound.
  set (l := stored ++ [mkHistoryEntry now pods]).
  destruct (Z.ltb_spec (- max_items) 0); [| lia].
  destruct (Z.gtb_spec (len l) max_items) as [Hgt | Hle]; unfold len in *.
  - f_equal. lia.
  - by replace (length l - Z.to_nat max_items)%nat with 0%nat by lia.
Qed.

(** For a maximum of at least 1 the eviction is first in, first out: after
    any non-empty run of calls the store holds the most recent
    [max_items] entries of everything appended, in order. *)
Lemma save_all_keeps_most_recent max_items calls :
  1 <= max_items ->
  forall stored,
    calls <> [] ->
    save_all max_items stored calls =
      suffix (Z.to_nat max_items) (stored ++ map entry_of calls).
Proof.
  intros Hmax. induction calls as [| c calls IH]; intros stored Hne; [done |].
  simpl. rewrite save_to_history_suffix by done.
  destruct calls as [| c' calls]; [done |].
  rewrite IH by done.
  rewrite suffix_app_suffix. by rewrite <- app_assoc.
Qed.

Lemma save_all_bounded max_items calls stored :
  1 <= max_items -> calls <> [] ->
  len (save_all max_items stored calls) <= max_items.
Proof.
  intros Hmax Hne. rewrite save_all_keeps_most_recent by done.
  unfold suffix, len. rewrite length_drop. lia.
Qed.

(** ** What [get_history] shares with its caller *)

Lemma alloc_fresh (h : gmap positive Heap.pyobj) o :
  h !! fst (Heap.alloc h o) = None /\
  snd (Heap.alloc h o) = <[fst (Heap.alloc h o) := o]> h.
Proof.
  unfold Heap.alloc. simpl. split; [| done].
  apply not_elem_of_dom, is_fresh.
Qed.

Lemma mapM_frame {A B} (f g : A -> option B) ls v :
  (forall x y, f x = Some y -> g x = Some y) ->
  mapM f ls = Some v -> mapM g ls = Some v.
Proof.
  intros Hfg. rewrite !mapM_Some. intros H.
  eapply Forall2_impl; [exact H | exact Hfg].
Qed.

(** A heap that extends another one reads the same values wherever the
    smaller one could be read. *)
Section Extension.
Variables (h h' : gmap positive Heap.pyobj).
Hypothesis Hext : h ⊆ h'.

Lemma read_pod_mono l p :
  Heap.read_pod h l = Some p -> Heap.read_pod h' l = Some p.
Proof.
  unfold Heap.read_pod.
  destruct (h !! l) as [[| | i lp s] |] eqn:El; try done.
  destruct (h !! lp) as [[| ns |] |] eqn:Elp; try done.
  intros [= <-].
  by rewrite (lookup_weaken _ _ _ _ El Hext), (lookup_weaken _ _ _ _ Elp Hext).
Qed.

Lemma read_pod_list_mono l pods :
  Heap.read_pod_list h l = Some pods -> Heap.read_pod_list h' l = Some pods.
Proof.
  unfold Heap.read_pod_list.
  destruct (h !! l) as [[ls | |] |] eqn:El; try done.
  rewrite (lookup_weaken _ _ _ _ El Hext).
  apply mapM_frame, read_pod_mono.
Qed.

Lemma read_history_mono l log :
  Heap.read_history h l = Some log -> Heap.read_history h' l = Some log.
Proof.
  unfold Heap.read_history.
  destruct (h !! l) as [[ls | |] |] eqn:El; try done.
  rewrite (lookup_weaken _ _ _ _ El Hext).
  apply mapM_frame, read_pod_list_mono.
Qed.
End Extension.

(** Writing at an address that was not allocated changes nothing that
    could be read before. *)
Lemma read_history_frame (h : gmap positive Heap.pyobj) r o l log :
  h !! r = None ->
  Heap.read_history h l = Some log ->
  Heap.read_history (<[r := o]> h) l = Some log.
Proof. intros Hfree. by apply read_history_mono, insert_subseteq. Qed.

Lemma read_pod_list_frame (h : gmap positive Heap.pyobj) r o l pods :
  h !! r = None ->
  Heap.read_pod_list h l = Some pods ->
  Heap.read_pod_list (<[r := o]> h) l = Some pods.
Proof. intros Hfree. by apply read_pod_list_mono, insert_subseteq. Qed.

(** Allocation extends the heap, and the objects built for a pod list
    read back as that pod list. *)
Lemma alloc_extends (h : gmap positive Heap.pyobj) o :
  h ⊆ snd (Heap.alloc h o).
Proof.
  destruct (alloc_fresh h o) as [Hfree ->]. by apply insert_subseteq.
Qed.

Lemma alloc_pod_read (h : gmap positive Heap.pyobj) p :
  h ⊆ snd (Heap.alloc_pod h p) /\
  Heap.read_pod (snd (Heap.alloc_pod h p)) (fst (Heap.alloc_pod h p)) = Some p.
Proof.
  unfold Heap.alloc_pod.
  pose proof (alloc_extends h (Heap.PyNames (players p))) as He1.
  destruct (alloc_fresh h (Heap.PyNames (players p))) as [Hf1 Hh1].
  destruct (Heap.alloc h (Heap.PyNames (players p))) as [lp h1]. cbn [fst snd] in *.
  pose proof (alloc_extends h1 (Heap.PyPod (id p) lp (size p))) as He2.
  destruct (alloc_fresh h1 (Heap.PyPod (id p) lp (size p))) as [Hf2 Hh2].
  destruct (Heap.alloc h1 (Heap.PyPod (id p) lp (size p))) as [l h2].
  cbn [fst snd] in *. split; [by trans h1 |].
  unfold Heap.read_pod. subst h2. rewrite lookup_insert_eq.
  assert (l <> lp).
  { intros ->. subst h1. by rewrite lookup_insert_eq in Hf2. }
  rewrite lookup_insert_ne by done. subst h1. rewrite lookup_insert_eq.
  by destruct p.
Qed.

Lemma alloc_pods_read pods :
  forall h : gmap positive Heap.pyobj,
    h ⊆ snd (Heap.alloc_pods h pods) /\
    mapM (Heap.read_pod (snd (Heap.alloc_pods h pods)))
      (fst (Heap.alloc_pods h pods)) = Some pods.
Proof.
  induction pods as [| p pods IH]; intros h; cbn [Heap.alloc_pods]; [done |].
  destruct (alloc_pod_read h p) as [He1 Hr1].
  destruct (Heap.alloc_pod h p) as [l h1]. cbn [fst snd] in *.
  destruct (IH h1) as [He2 Hr2].
  destruct (Heap.alloc_pods h1 pods) as [ls h2]. cbn [fst snd] in *.
  split; [by trans h1 |].
  apply mapM_Some. constructor.
  - by apply (read_pod_mono h1 h2 He2).
  - by apply mapM_Some.
Qed.

Lemma alloc_pod_list_read (h : gmap positive Heap.pyobj) pods :
  h ⊆ snd (Heap.alloc_pod_list h pods) /\
  h !! fst (Heap.alloc_pod_list h pods) = None /\
  Heap.read_pod_list (snd (Heap.alloc_pod_list h pods))
    (fst (Heap.alloc_pod_list h pods)) = Some pods.
Proof.
  unfold Heap.alloc_pod_list.
  destruct (alloc_pods_read pods h) as [He1 Hr1].
  destruct (Heap.alloc_pods h pods) as [ls h1]. cbn [fst snd] in *.
  pose proof (alloc_extends h1 (Heap.PyList ls)) as He2.
  destruct (alloc_fresh h1 (Heap.PyList ls)) as [Hf Hh2].
  destruct (Heap.alloc h1 (Heap.PyList ls)) as [l h2]. cbn [fst snd] in *.
  split; [by trans h1 |]. split.
  - destruct (h !! l) eqn:E; [| done].
    by rewrite (lookup_weaken _ _ _ _ E He1) in Hf.
  - unfold Heap.read_pod_list. subst h2. rewrite lookup_insert_eq.
    revert Hr1. apply mapM_frame. intros x y.
    by apply read_pod_mono, insert_subseteq.
Qed.

(** Appending to the history list leaves the pod lists readable: a pod
    list, its Pod objects and their name lists are other objects than the
    history list. *)
Lemma read_pod_list_history_write (h : gmap positive Heap.pyobj) hist ls ls' x v :
  h !! hist = Some (Heap.PyList ls) ->
  x <> hist ->
  Heap.read_pod_list h x = Some v ->
  Heap.read_pod_list (<[hist := Heap.PyList ls']> h) x = Some v.
Proof.
  intros Hh Hx. unfold Heap.read_pod_list.
  rewrite lookup_insert_ne by done.
  destruct (h !! x) as [[items | |] |]; try done.
  apply mapM_frame. intros y p. unfold Heap.read_pod.
  destruct (h !! y) as [[| | i lp s] |] eqn:Ey; try done.
  destruct (h !! lp) as [[| ns |] |] eqn:Elp; try done.
  intros [= <-].
  rewrite lookup_insert_ne by congruence. rewrite Ey.
  rewrite lookup_insert_ne by congruence. by rewrite Elp.
Qed.

Lemma history_items_not_history (h : gmap positive Heap.pyobj) hist ls log x :
  h !! hist = Some (Heap.PyList ls) ->
  mapM (Heap.read_pod_list h) ls = Some log ->
  x ∈ ls -> x <> hist.
Proof.
  intros Hh Hlog Hx ->.
  apply mapM_Some in Hlog.
  apply list_elem_of_lookup_1 in Hx as [i Hi].
  destruct (Forall2_lookup_l _ _ _ _ _ Hlog Hi) as (pods & _ & Hread).
  unfold Heap.read_pod_list in Hread. rewrite Hh in Hread.
  apply mapM_Some in Hread.
  destruct (Forall2_lookup_l _ _ _ _ _ Hread Hi) as (p & _ & Hp).
  unfold Heap.read_pod in Hp. by rewrite Hh in Hp.
Qed.

Lemma history_append_read (h : gmap positive Heap.pyobj) self l ls log pods :
  h !! Heap.history self = Some (Heap.PyList ls) ->
  mapM (Heap.read_pod_list h) ls = Some log ->
  l <> Heap.history self ->
  Heap.read_pod_list h l = Some pods ->
  exists h',
    Heap.history_append h self l = Some h' /\
    Heap.read_history h' (Heap.history self) = Some (log ++ [pods]) /\
    Heap.read_pod_list h' l = Some pods.
Proof.
  intros Hh Hlog Hl Hpods. unfold Heap.history_append. rewrite Hh.
  eexists. split; [done |]. split.
  - unfold Heap.read_history. rewrite lookup_insert_eq.
    apply mapM_Some. apply Forall2_app.
    + pose proof Hlog as HF. apply mapM_Some in HF.
      apply Forall2_same_length_lookup in HF as [Hlen HF].
      apply Forall2_same_length_lookup. split; [done |].
      intros i x y Hx Hy.
      eapply read_pod_list_history_write; [done | | by eapply HF].
      eapply history_items_not_history; [done | done |].
      by eapply list_elem_of_lookup_2.
    + constructor; [| done].
      by eapply read_pod_list_history_write.
  - by eapply read_pod_list_history_write.
Qed.

(** The object-level [create_pods] does what the value-level one says:
    the reference it returns reads as the returned pods, and the internal
    log reads as the new history.  The returned reference is the very
    object that was appended to the log. *)
Lemma create_pods_on_heap shuffle fuel (h : gmap positive Heap.pyobj) self
    log ps t m pods log' :
  Heap.read_history h (Heap.history self) = Some log ->
  ps <> [] ->
  create_pods shuffle fuel log ps t m = (Returns pods, log') ->
  exists l h' ls,
    Heap.create_pods shuffle fuel h self ps t m = Some (Returns l, h') /\
    Heap.read_pod_list h' l = Some pods /\
    Heap.read_history h' (Heap.history self) = Some log' /\
    h' !! Heap.history self = Some (Heap.PyList (ls ++ [l])).
Proof.
  intros Hlog Hne Hcp. unfold create_pods in Hcp. unfold Heap.create_pods.
  destruct ps as [| p ps]; [done |].
  destruct (_calculate_pod_distribution _ _ _ _) as [pods0 | |];
    [| done | done].
  injection Hcp as -> <-.
  destruct (alloc_pod_list_read h pods) as (Hext & Hfree & Hread).
  destruct (Heap.alloc_pod_list h pods) as [l h1]. cbn [fst snd] in *.
  unfold Heap.read_history in Hlog.
  destruct (h !! Heap.history self) as [[ls | |] |] eqn:Eh; try done.
  pose proof (lookup_weaken _ _ _ _ Eh Hext) as Eh1.
  assert (Hlog1 : mapM (Heap.read_pod_list h1) ls = Some log).
  { revert Hlog. apply mapM_frame. intros x y.
    by apply read_pod_list_mono. }
  assert (Hl : l <> Heap.history self) by congruence.
  destruct (history_append_read h1 self l ls log pods Eh1 Hlog1 Hl Hread)
    as (h2 & Happ & Hhist & Hpods).
  exists l, h2, ls. rewrite Happ. simpl. repeat split; try done.
  unfold Heap.history_append in Happ. rewrite Eh1 in Happ.
  injection Happ as <-. by rewrite lookup_insert_eq.
Qed.




(** ** When the primary path keeps the bounds *)

Lemma len_py_slice {A} (l : list A) a s :
  0 <= a <= len l -> 0 <= s ->
  len (py_slice l a (a + s)) = Z.min s (len l - a).
Proof.
  intros Ha Hs. rewrite py_slice_nonneg by lia.
  unfold len in *. rewrite length_take, length_drop. lia.
Qed.

(** Every pod of the first candidate is non-empty and within
    [max_size]: pod [j] starts at an index of at most [j * m], which is
    below [n] for [j < k]. *)
Lemma build_pods_sizes ps m base rem k :
  3 <= m -> 1 <= base -> 0 <= rem <= k ->
  base + (if 0 <? rem then 1 else 0) <= m ->
  m * (k - 1) < len ps ->
  forall d j cp ci,
    d = Z.to_nat (k - j) -> 0 <= j <= k -> 0 <= ci <= m * j ->
    Forall (fun p => size p = len (players p) /\ 1 <= size p <= m) cp ->
    Forall (fun p => size p = len (players p) /\ 1 <= size p <= m)
      (fst (build_pods ps m base rem (py_range j k) cp ci)).
Proof.
  intros Hm Hbase Hrem Hfit Hk. induction d as [| d IH];
    intros j cp ci Hd Hj Hci Hcp.
  - by rewrite py_range_nil by lia.
  - rewrite py_range_cons by lia. cbn [build_pods].
    assert (Hs : 1 <= base + (if j <? rem then 1 else 0) <= m).
    { destruct (Z.ltb_spec j rem), (Z.ltb_spec 0 rem); lia. }
    destruct (Z.eqb_spec (base + (if j <? rem then 1 else 0)) 0); [lia |].
    set (s := Z.max 3 (Z.min (base + (if j <? rem then 1 else 0)) m)).
    assert (3 <= s <= m) by (unfold s; lia).
    assert (m * j <= m * (k - 1)) by (apply Z.mul_le_mono_nonneg_l; lia).
    apply IH; [lia | lia | lia |].
    apply Forall_app. split; [done |].
    apply Forall_singleton. simpl. split; [done |].
    rewrite len_py_slice by lia. lia.
Qed.

(** When the computed sizes are at least 3 nothing is clamped: the index
    ends at [n] exactly and every pod has its computed size. *)
Lemma build_pods_exact ps m base rem k :
  3 <= base -> 0 <= rem <= k ->
  base + (if 0 <? rem then 1 else 0) <= m ->
  forall d j cp ci,
    d = Z.to_nat (k - j) -> 0 <= j <= k -> 0 <= ci ->
    ci + (k - j) * base + Z.max 0 (rem - j) = len ps ->
    Forall (fun p => 3 <= size p <= m) cp ->
    Forall (fun p => 3 <= size p <= m)
      (fst (build_pods ps m base rem (py_range j k) cp ci)) /\
    snd (build_pods ps m base rem (py_range j k) cp ci) = len ps.
Proof.
  intros Hbase Hrem Hfit. induction d as [| d IH];
    intros j cp ci Hd Hj Hci Hsum Hcp.
  - assert (j = k) as -> by lia.
    rewrite py_range_nil by lia. simpl. split; [done | lia].
  - rewrite py_range_cons by lia. cbn [build_pods].
    assert (Hs : 3 <= base + (if j <? rem then 1 else 0) <= m).
    { destruct (Z.ltb_spec j rem), (Z.ltb_spec 0 rem); lia. }
    destruct (Z.eqb_spec (base + (if j <? rem then 1 else 0)) 0); [lia |].
    rewrite (Z.min_l _ m), Z.max_r by lia.
    assert (0 <= (k - (j + 1)) * base) by (apply Z.mul_nonneg_nonneg; lia).
    assert (Hnext :
      ci + (base + (if j <? rem then 1 else 0)) + (k - (j + 1)) * base
        + Z.max 0 (rem - (j + 1)) = len ps).
    { destruct (Z.ltb_spec j rem); lia. }
    apply IH; [lia | lia | lia | exact Hnext |].
    apply Forall_app. split; [done |].
    apply Forall_singleton. simpl.
    rewrite len_py_slice_inside; lia.
Qed.

Lemma sizes_below_total (pods : list Pod) :
  Forall (fun p => size p = len (players p)) pods ->
  Forall (fun p => 3 <= size p) pods ->
  3 * len pods <= len (all_players pods).
Proof.
  induction pods as [| p pods IH]; intros H1 H2.
  - unfold len. simpl. lia.
  - apply Forall_cons in H1 as [Hp H1]. apply Forall_cons in H2 as [Hq H2].
    specialize (IH H1 H2). unfold all_players in *. simpl.
    rewrite len_app. unfold len in *. simpl length. lia.
Qed.

(** On the primary path ([max_size >= 3], non-empty input) every returned
    pod has a size between 1 and [max_size], equal to the number of its
    names; and all the pods have at least 3 names exactly when
    [3 * ceil(n / max_size) <= n], that is when [n] names can be split
    into [ceil(n / max_size)] pods of 3 or more. *)
Lemma primary_path_sizes ps m :
  ps <> [] -> 3 <= m ->
  let k := min_pods (len ps) m in
  let pods := fst (candidate ps m k) in
  Forall (fun p => size p = len (players p) /\ 1 <= size p <= m) pods /\
  (Forall (fun p => 3 <= size p <= m) pods <-> 3 * k <= len ps).
Proof.
  intros Hne Hm k pods.
  pose proof (len_pos_of_ne ps Hne) as Hn.
  pose proof (min_pods_ceil (len ps) m ltac:(lia)) as Hceil.
  pose proof (min_pods_range (len ps) m Hn ltac:(lia)) as Hk.
  destruct (first_candidate_sizes (len ps) m Hn ltac:(lia))
    as (Hsum & Hrem & Hbase & Hfit).
  destruct (first_candidate_accepted ps m Hne ltac:(lia)) as [Hacc Hcount].
  fold k in Hceil, Hk, Hsum, Hrem, Hbase, Hfit, Hacc, Hcount.
  assert (Hall : Forall (fun p => size p = len (players p) /\ 1 <= size p <= m)
                   pods).
  { unfold pods, candidate.
    apply (build_pods_sizes ps m (len ps / k) (len ps mod k) k Hm Hbase
             ltac:(lia) Hfit ltac:(lia) (Z.to_nat k) 0 [] 0);
      [lia | lia | lia | done]. }
  split; [exact Hall |]. split.
  - intros Hge.
    assert (Hcover : all_players pods = ps).
    { apply accepted_iff_covers. unfold accepted.
      apply andb_true_iff. split.
      - apply negb_true_iff, Z.eqb_neq. lia.
      - by apply Z.geb_le. }
    pose proof (sizes_below_total pods) as Hs.
    rewrite Hcover in Hs. fold pods in Hcount. rewrite Hcount in Hs.
    apply Hs.
    + eapply Forall_impl; [exact Hall |]. by intros p [? _].
    + eapply Forall_impl; [exact Hge |]. by intros p [? _].
  - intros H3k.
    assert (3 <= len ps / k).
    { destruct (Z_le_gt_dec 3 (len ps / k)); [done |].
      assert (k * (len ps / k) <= k * 2)
        by (apply Z.mul_le_mono_nonneg_l; lia).
      lia. }
    unfold pods, candidate.
    apply (build_pods_exact ps m (len ps / k) (len ps mod k) k ltac:(lia)
             ltac:(lia) Hfit (Z.to_nat k) 0 [] 0); [lia | lia | lia | | done].
    lia.
Qed.

(** * Further properties of [PodRandomizer] *)

(** ** The [size] field *)

Lemma build_pods_size_ok ps m base rem idx :
  forall cp ci,
    Forall size_ok cp ->
    Forall size_ok (fst (build_pods ps m base rem idx cp ci)).
Proof.
  induction idx as [| i idx IH]; intros cp ci Hcp; simpl; [done |].
  destruct (_ =? 0); [by apply IH |].
  apply IH. apply Forall_app. split; [done |]. by apply Forall_singleton.
Qed.

Lemma search_size_ok ps m cands : Forall size_ok (search ps m cands).
Proof.
  rewrite search_find. destruct (find _ _); [| done].
  unfold candidate. by apply build_pods_size_ok.
Qed.

Lemma extend_last_size_ok pods extra :
  Forall size_ok pods -> Forall size_ok (extend_last pods extra).
Proof.
  induction pods as [| p [| q rest] IH]; intros H; [done | |].
  - by apply Forall_singleton.
  - change (extend_last (p :: q :: rest) extra)
      with (p :: extend_last (q :: rest) extra).
    apply Forall_cons in H as [Hp H]. apply Forall_cons. split; [done |].
    by apply IH.
Qed.

Lemma simple_loop_size_ok fuel :
  forall ps t m pods pod_id i pods',
    Forall size_ok pods ->
    simple_loop fuel ps t m pods pod_id i = Returns pods' ->
    Forall size_ok pods'.
Proof.
  induction fuel as [| fuel IH]; intros ps t m pods pod_id i pods' Hpods;
    cbn [simple_loop]; destruct (i <? len ps); try done;
    try (by intros [= <-]).
  assert (Hcreate : forall s,
    simple_loop fuel ps t m
      (pods ++ [mkPod pod_id (py_slice ps i (i + s))
                  (len (py_slice ps i (i + s)))])
      (pod_id + 1) (i + s) = Returns pods' -> Forall size_ok pods').
  { intros s. apply IH. apply Forall_app. split; [done |].
    by apply Forall_singleton. }
  destruct ((len ps - i <? 3) && nonempty pods).
  - destruct (_ <=? m).
    + intros [= <-]. by apply extend_last_size_ok.
    + destruct (_ >? 0); apply Hcreate.
  - apply Hcreate.
Qed.

Lemma py_sum_sizes (pods : list Pod) :
  Forall size_ok pods -> py_sum (map size pods) = len (all_players pods).
Proof.
  rewrite py_sum_foldr. induction pods as [| p pods IH]; intros H.
  - done.
  - apply Forall_cons in H as [Hp H]. unfold all_players in *. simpl.
    rewrite len_app, IH by done. rewrite Hp. done.
Qed.

(** Whatever the sizes asked for, as long as [max_size] is not 0:
    [create_pods] returns pods that hold a permutation of the input. *)
Lemma create_pods_returns shuffle fuel history ps t m :
  (forall l, shuffle l ≡ₚ l) ->
  m <> 0 ->
  (length ps <= fuel)%nat ->
  exists pods,
    create_pods shuffle fuel history ps t m =
      (Returns pods, if nonempty ps then history ++ [pods] else history) /\
    all_players pods ≡ₚ ps /\
    Forall size_ok pods.
Proof.
  intros Hsh Hm Hfuel.
  destruct ps as [| p ps]; [by exists [] |].
  unfold create_pods, _calculate_pod_distribution. cbn [nonempty].
  assert (3 <= clamp_target t m) by (unfold clamp_target; lia).
  destruct (Z.eqb_spec m 0); [done |].
  destruct (Z.eqb_spec (clamp_target t m) 0); [lia |].
  match goal with
  | |- context [search ?a ?b ?c] =>
      destruct (search_covers a b c) as [E | E];
      pose proof (search_size_ok a b c) as Hok
  end.
  - rewrite E.
    destruct (simple_distribution_covers fuel (shuffle (p :: ps))
                (clamp_target t m) m) as (pods & Hret & Hall); [lia | |].
    { by rewrite (Hsh (p :: ps)). }
    rewrite Hret. exists pods. split; [done |]. split.
    + by rewrite Hall.
    + eapply simple_loop_size_ok; [| exact Hret]. done.
  - destruct (search _ _ _) as [| q pods] eqn:Es.
    + simpl in E. symmetry in E. by apply shuffle_ne in E.
    + exists (q :: pods). split; [done |]. split; [by rewrite E | done].
Qed.

(** X1.  Conservation does not depend on the sizes being valid: for every
    [target_size] and every [max_size] other than 0 (negative ones, and
    [max_size < target_size] included), [create_pods] returns and the
    names in the returned pods are a permutation of the input.  For a
    non-empty input the result is appended to the history; for the empty
    input the call returns before that and the history is unchanged. *)
Theorem create_pods_conserves_for_all_sizes shuffle fuel history ps t m :
  (forall l, shuffle l ≡ₚ l) ->
  m <> 0 ->
  (length ps <= fuel)%nat ->
  exists pods,
    create_pods shuffle fuel history ps t m =
      (Returns pods, if nonempty ps then history ++ [pods] else history) /\
    all_players pods ≡ₚ ps.
Proof.
  intros Hsh Hm Hfuel.
  destruct (create_pods_returns shuffle fuel history ps t m Hsh Hm Hfuel)
    as (pods & H1 & H2 & _).
  by exists pods.
Qed.

Lemma create_pods_conserves_for_all_sizes_witness :
  exists pods,
    create_pods reverse 5 [] ["ann"; "bob"; "cyd"; "dan"; "eve"]%string 0 1 =
      (Returns pods,
       if nonempty ["ann"; "bob"; "cyd"; "dan"; "eve"]%string
       then [] ++ [pods] else []) /\
    all_players pods ≡ₚ ["ann"; "bob"; "cyd"; "dan"; "eve"]%string.
Proof.
  apply (create_pods_conserves_for_all_sizes reverse 5 []
           ["ann"; "bob"; "cyd"; "dan"; "eve"]%string 0 1).
  - intros l. apply reverse_Permutation.
  - lia.
  - simpl. lia.
Defined.

(** X2.  In every pod that [create_pods] returns the [size] field is the
    number of names in [players]; so the sizes add up to the number of
    input names, and [get_statistics] of the result reports that number
    as [total_players].  The division in [get_statistics] could raise
    only for an input of [2 ^ 1023] names or more. *)
Theorem create_pods_size_field shuffle fuel history ps t m :
  (forall l, shuffle l ≡ₚ l) ->
  m <> 0 ->
  (length ps <= fuel)%nat ->
  exists pods,
    fst (create_pods shuffle fuel history ps t m) = Returns pods /\
    Forall (fun p => size p = len (players p)) pods /\
    foldr Z.add 0 (map size pods) = len ps /\
    match get_statistics pods with
    | Returns s => total_players s = len ps /\ total_pods s = len pods
    | Raises _ => 2 ^ 1023 <= len ps
    | OutOfFuel => False
    end.
Proof.
  intros Hsh Hm Hfuel.
  destruct (create_pods_returns shuffle fuel history ps t m Hsh Hm Hfuel)
    as (pods & H1 & H2 & H3).
  exists pods. rewrite H1. split; [done |]. split; [exact H3 |].
  assert (Hsum : foldr Z.add 0 (map size pods) = len ps).
  { rewrite <- py_sum_foldr, py_sum_sizes by done. unfold len. by rewrite H2. }
  split; [done |].
  destruct pods as [| p pods]; [by rewrite <- Hsum |].
  rewrite (get_statistics_cons p pods). cbv zeta. rewrite Hsum.
  pose proof (len_cons_pos p pods) as Hlen.
  pose proof (int_truediv_spec (len ps) (len (p :: pods)) ltac:(lia)) as Hdiv.
  destruct (int_truediv (len ps) (len (p :: pods))) as [f | e |];
    [done | | done].
  destruct Hdiv as [_ Hbig].
  pose proof (len_nonneg ps).
  assert (2 ^ 1023 * 1 <= 2 ^ 1023 * len (p :: pods))
    by (apply Z.mul_le_mono_nonneg_l; [apply Z.pow_nonneg |]; lia).
  lia.
Qed.

Lemma create_pods_size_field_witness :
  exists pods,
    fst (create_pods reverse 5 []
           ["ann"; "bob"; "cyd"; "dan"; "eve"]%string 4 8) = Returns pods /\
    Forall (fun p => size p = len (players p)) pods /\
    foldr Z.add 0 (map size pods)
      = len ["ann"; "bob"; "cyd"; "dan"; "eve"]%string /\
    match get_statistics pods with
    | Returns s =>
        total_players s = len ["ann"; "bob"; "cyd"; "dan"; "eve"]%string /\
        total_pods s = len pods
    | Raises _ => 2 ^ 1023 <= len ["ann"; "bob"; "cyd"; "dan"; "eve"]%string
    | OutOfFuel => False
    end.
Proof.
  apply (create_pods_size_field reverse 5 []
           ["ann"; "bob"; "cyd"; "dan"; "eve"]%string 4 8).
  - intros l. apply reverse_Permutation.
  - lia.
  - simpl. lia.
Defined.

(** ** Which pods can be undersized *)

(** In the first candidate only the last pod can be cut short: pod [j]
    ends at an index of at most [m * (j + 1)], which is below [n] for every
    pod but the last. *)
Lemma build_pods_front_full ps m base rem k :
  3 <= m -> 1 <= base -> 0 <= rem <= k ->
  base + (if 0 <? rem then 1 else 0) <= m ->
  m * (k - 1) < len ps ->
  forall d j cp ci,
    d = Z.to_nat (k - j) -> 0 <= j < k -> 0 <= ci <= m * j ->
    Forall (fun p => 3 <= size p <= m) cp ->
    exists front last,
      fst (build_pods ps m base rem (py_range j k) cp ci) = front ++ [last] /\
      Forall (fun p => 3 <= size p <= m) front /\
      1 <= size last <= m.
Proof.
  intros Hm Hbase Hrem Hfit Hk. induction d as [| d IH];
    intros j cp ci Hd Hj Hci Hcp; [lia |].
  rewrite py_range_cons by lia. cbn [build_pods].
  assert (Hs : 1 <= base + (if j <? rem then 1 else 0) <= m).
  { destruct (Z.ltb_spec j rem), (Z.ltb_spec 0 rem); lia. }
  destruct (Z.eqb_spec (base + (if j <? rem then 1 else 0)) 0); [lia |].
  set (s := Z.max 3 (Z.min (base + (if j <? rem then 1 else 0)) m)).
  assert (3 <= s <= m) by (unfold s; lia).
  assert (m * j <= m * (k - 1)) by (apply Z.mul_le_mono_nonneg_l; lia).
  destruct (Z.eq_dec (j + 1) k) as [Elast | Hmore].
  - rewrite py_range_nil by lia. simpl.
    eexists cp, _. split; [done |]. split; [done |]. simpl.
    rewrite len_py_slice by lia. lia.
  - assert (m * (j + 1) <= m * (k - 1))
      by (apply Z.mul_le_mono_nonneg_l; lia).
    apply IH; [lia | lia | lia |].
    apply Forall_app. split; [done |]. apply Forall_singleton. simpl.
    rewrite len_py_slice_inside; lia.
Qed.

Lemma three_pods_fit n m :
  3 <= n -> 5 <= m -> 3 * min_pods n m <= n.
Proof.
  intros Hn Hm.
  pose proof (min_pods_ceil n m ltac:(lia)) as Hc.
  pose proof (min_pods_range n m ltac:(lia) ltac:(lia)) as Hr.
  set (k := min_pods n m) in *. clearbody k.
  destruct (Z.eq_dec k 1) as [-> | Hk]; [lia |].
  assert (5 * (k - 1) <= m * (k - 1)) by (apply Z.mul_le_mono_nonneg_r; lia).
  lia.
Qed.

(** X3.  For a non-empty list and [max_size >= 3], the pods that
    [create_pods] returns are: any number of pods with between 3 and
    [max_size] names, followed by one last pod with between 1 and
    [max_size] names.  So no pod is empty, none exceeds [max_size], and at
    most the last one is undersized.  All the pods have at least 3 names
    exactly when [3 * ceil(n / max_size) <= n]. *)
Theorem create_pods_only_last_pod_undersized shuffle fuel history ps t m :
  (forall l, shuffle l ≡ₚ l) ->
  ps <> [] ->
  3 <= m ->
  exists front last,
    fst (create_pods shuffle fuel history ps t m) = Returns (front ++ [last]) /\
    Forall (fun p => 3 <= size p <= m) front /\
    1 <= size last <= m /\
    (3 <= size last <-> 3 * min_pods (len ps) m <= len ps).
Proof.
  intros Hsh Hne Hm.
  rewrite (create_pods_first shuffle fuel history ps t m Hsh Hne Hm). simpl.
  pose proof (shuffle_ne shuffle ps Hsh Hne) as Hne'.
  pose proof (shuffle_len shuffle ps Hsh) as Hlen.
  pose proof (len_pos_of_ne ps Hne) as Hn.
  pose proof (min_pods_ceil (len ps) m ltac:(lia)) as Hceil.
  pose proof (min_pods_range (len ps) m Hn ltac:(lia)) as Hk.
  destruct (first_candidate_sizes (len ps) m Hn ltac:(lia))
    as (Hsum & Hrem & Hbase & Hfit).
  destruct (primary_path_sizes (shuffle ps) m Hne' Hm) as [_ Hiff].
  rewrite Hlen in Hiff.
  set (k := min_pods (len ps) m) in *.
  unfold candidate in *. rewrite Hlen in *.
  destruct (build_pods_front_full (shuffle ps) m (len ps / k) (len ps mod k) k
              Hm Hbase ltac:(lia) Hfit ltac:(lia) (Z.to_nat k) 0 [] 0
              ltac:(lia) ltac:(lia) ltac:(lia) ltac:(done))
    as (front & last & E & Hfront & Hlast).
  exists front, last. rewrite E in *. split; [done |]. split; [done |].
  split; [done |]. rewrite <- Hiff. rewrite Forall_app, Forall_singleton.
  split; [intros ?; split; [done | lia] | intros [_ ?]; lia].
Qed.

Lemma create_pods_only_last_pod_undersized_witness :
  exists front last,
    fst (create_pods reverse 0 []
           ["ann"; "bob"; "cyd"; "dan"; "eve"; "fay"; "gus"]%string 3 3)
      = Returns (front ++ [last]) /\
    Forall (fun p => 3 <= size p <= 3) front /\
    1 <= size last <= 3 /\
    (3 <= size last <->
     3 * min_pods (len ["ann"; "bob"; "cyd"; "dan"; "eve"; "fay"; "gus"]%string) 3
       <= len ["ann"; "bob"; "cyd"; "dan"; "eve"; "fay"; "gus"]%string).
Proof.
  apply (create_pods_only_last_pod_undersized reverse 0 []
           ["ann"; "bob"; "cyd"; "dan"; "eve"; "fay"; "gus"]%string 3 3).
  - intros l. apply reverse_Permutation.
  - done.
  - lia.
Defined.

(** X4.  With at least three names and [max_size >= 5] (the default
    configuration has 8) every pod that [create_pods] returns has between
    3 and [max_size] names, whatever [target_size] is. *)
Theorem create_pods_bounds_from_max_five shuffle fuel history ps t m :
  (forall l, shuffle l ≡ₚ l) ->
  3 <= len ps ->
  5 <= m ->
  exists pods,
    fst (create_pods shuffle fuel history ps t m) = Returns pods /\
    Forall (fun p => 3 <= size p <= m) pods.
Proof.
  intros Hsh Hn Hm.
  assert (Hne : ps <> []) by (intros ->; unfold len in Hn; simpl in Hn; lia).
  rewrite (create_pods_first shuffle fuel history ps t m Hsh Hne ltac:(lia)).
  eexists. split; [done |].
  pose proof (shuffle_ne shuffle ps Hsh Hne) as Hne'.
  destruct (primary_path_sizes (shuffle ps) m Hne' ltac:(lia)) as [_ Hiff].
  rewrite (shuffle_len shuffle ps Hsh) in Hiff.
  apply Hiff. by apply three_pods_fit.
Qed.

Lemma create_pods_bounds_from_max_five_witness :
  exists pods,
    fst (create_pods reverse 0 []
           ["ann"; "bob"; "cyd"; "dan"; "eve"; "fay"]%string 4 5)
      = Returns pods /\
    Forall (fun p => 3 <= size p <= 5) pods.
Proof.
  apply (create_pods_bounds_from_max_five reverse 0 []
           ["ann"; "bob"; "cyd"; "dan"; "eve"; "fay"]%string 4 5).
  - intros l. apply reverse_Permutation.
  - vm_compute. discriminate.
  - lia.
Defined.

(** ** Pod identifiers *)

Lemma py_range_snoc a b : a <= b -> py_range a (b + 1) = py_range a b ++ [b].
Proof.
  intros H. unfold py_range.
  replace (Z.to_nat (b + 1 - a)) with (Z.to_nat (b - a) + 1)%nat by lia.
  rewrite seq_app, map_app. simpl. do 2 f_equal. lia.
Qed.

Lemma py_range_1_length (l : list Z) e :
  1 <= e -> l = py_range 1 e -> e = 1 + len l.
Proof.
  intros He ->. unfold len. rewrite length_py_range. lia.
Qed.

Lemma build_pods_ids ps m base rem k :
  1 <= base -> 0 <= rem ->
  forall d j cp ci,
    d = Z.to_nat (k - j) -> 0 <= j <= k ->
    map id cp = py_range 1 (j + 1) ->
    map id (fst (build_pods ps m base rem (py_range j k) cp ci))
      = py_range 1 (k + 1).
Proof.
  intros Hbase Hrem. induction d as [| d IH]; intros j cp ci Hd Hj Hcp.
  - assert (j = k) as -> by lia. by rewrite py_range_nil by lia.
  - rewrite py_range_cons by lia. cbn [build_pods].
    destruct (Z.eqb_spec (base + (if j <? rem then 1 else 0)) 0).
    { destruct (j <? rem); lia. }
    apply IH; [lia | lia |].
    rewrite map_app, Hcp. simpl. by rewrite <- py_range_snoc by lia.
Qed.

Lemma map_id_extend_last pods extra :
  map id (extend_last pods extra) = map id pods.
Proof.
  induction pods as [| p [| q rest] IH]; [done | done |].
  change (extend_last (p :: q :: rest) extra)
    with (p :: extend_last (q :: rest) extra).
  simpl in *. by rewrite IH.
Qed.

Lemma simple_loop_ids fuel :
  forall ps t m pods pod_id i pods',
    1 <= pod_id ->
    map id pods = py_range 1 pod_id ->
    simple_loop fuel ps t m pods pod_id i = Returns pods' ->
    exists e, 1 <= e /\ map id pods' = py_range 1 e.
Proof.
  induction fuel as [| fuel IH]; intros ps t m pods pod_id i pods' Hid Hpods;
    cbn [simple_loop]; destruct (i <? len ps); try done;
    try (intros [= <-]; by exists pod_id).
  assert (Hcreate : forall s,
    simple_loop fuel ps t m
      (pods ++ [mkPod pod_id (py_slice ps i (i + s))
                  (len (py_slice ps i (i + s)))])
      (pod_id + 1) (i + s) = Returns pods' ->
    exists e, 1 <= e /\ map id pods' = py_range 1 e).
  { intros s. apply IH; [lia |].
    rewrite map_app, Hpods. simpl. by rewrite <- py_range_snoc by lia. }
  destruct ((len ps - i <? 3) && nonempty pods).
  - destruct (_ <=? m).
    + intros [= <-]. exists pod_id. by rewrite map_id_extend_last.
    + destruct (_ >? 0); apply Hcreate.
  - apply Hcreate.
Qed.

Lemma max_pods_le n t : 1 <= n -> 1 <= t -> max_pods n t <= n.
Proof.
  intros Hn Ht. pose proof (max_pods_ceil n t Ht) as Hc.
  set (q := max_pods n t) in *. clearbody q.
  destruct (Z_le_gt_dec q n); [done |].
  assert (1 * (q - 1) <= t * (q - 1)) by (apply Z.mul_le_mono_nonneg_r; lia).
  lia.
Qed.

Lemma accepted_positive ps m k :
  ps <> [] -> accepted ps m k = true -> 1 <= k.
Proof.
  intros Hne Hacc. pose proof (len_pos_of_ne ps Hne) as Hn.
  unfold accepted in Hacc. apply andb_true_iff in Hacc as [Hk Hci].
  apply negb_true_iff, Z.eqb_neq in Hk. apply Z.geb_le in Hci.
  destruct (Z_le_gt_dec 1 k); [done |].
  unfold candidate in Hci. rewrite py_range_nil in Hci by lia.
  simpl in Hci. lia.
Qed.

(** X5.  The pods that [create_pods] returns are numbered 1, 2, 3, ... in
    the order of the list, without gap or repetition, for every
    [target_size] and every [max_size] other than 0: on the balanced path
    no pod is skipped, and on the sequential path a merge adds no
    number. *)
Theorem create_pods_ids_sequential shuffle fuel history ps t m :
  (forall l, shuffle l ≡ₚ l) ->
  m <> 0 ->
  (length ps <= fuel)%nat ->
  exists pods,
    fst (create_pods shuffle fuel history ps t m) = Returns pods /\
    map id pods = py_range 1 (1 + len pods).
Proof.
  intros Hsh Hm Hfuel.
  destruct (create_pods_returns shuffle fuel history ps t m Hsh Hm Hfuel)
    as (pods & Hret & _ & _).
  exists pods. rewrite Hret. split; [done |].
  destruct ps as [| p ps]; [by injection Hret as <- |].
  unfold create_pods, _calculate_pod_distribution in Hret.
  assert (Ht : 3 <= clamp_target t m) by (unfold clamp_target; lia).
  destruct (Z.eqb_spec m 0); [done |].
  destruct (Z.eqb_spec (clamp_target t m) 0); [lia |].
  pose proof (shuffle_ne shuffle (p :: ps) Hsh ltac:(done)) as Hne.
  pose proof (len_pos_of_ne _ Hne) as Hn.
  set (sp := shuffle (p :: ps)) in *.
  assert (Hids : exists e, 1 <= e /\ map id pods = py_range 1 e).
  { rewrite search_find in Hret.
    destruct (find (accepted sp m) _) as [k |] eqn:Ef.
    - apply find_some in Ef as [Hin Hacc].
      apply list_elem_of_In, elem_of_py_range in Hin.
      pose proof (accepted_positive sp m k Hne Hacc) as Hk.
      pose proof (max_pods_le (len sp) (clamp_target t m) Hn ltac:(lia)).
      assert (Hbase : 1 <= len sp / k).
      { name_div_mod (len sp) k.
        destruct (Z_le_gt_dec 1 q); [done |].
        assert (k * q <= 0) by (apply Z.mul_nonneg_nonpos; lia). lia. }
      pose proof (Z.mod_pos_bound (len sp) k ltac:(lia)) as Hrem.
      pose proof (build_pods_ids sp m (len sp / k) (len sp mod k) k Hbase
                    ltac:(lia) (Z.to_nat k) 0 [] 0 ltac:(lia) ltac:(lia)
                    ltac:(done)) as Hb.
      fold (candidate sp m k) in Hb.
      destruct (fst (candidate sp m k)) as [| q pods0] eqn:Ec.
      + simpl in Hb. symmetry in Hb.
        apply (f_equal length) in Hb.
        pose proof (length_py_range 1 (k + 1)). simpl in Hb. lia.
      + injection Hret as <-. exists (k + 1). split; [lia | done].
    - destruct (_simple_distribution fuel sp (clamp_target t m) m)
        as [pods0 | |] eqn:Es; try done.
      injection Hret as <-.
      eapply (simple_loop_ids fuel sp (clamp_target t m) m [] 1 0);
        [lia | done | exact Es]. }
  destruct Hids as (e & He & Hids).
  rewrite Hids. f_equal.
  pose proof (py_range_1_length (map id pods) e He Hids) as Hlen.
  unfold len in *. rewrite length_map in Hlen. done.
Qed.

Lemma create_pods_ids_sequential_witness :
  exists pods,
    fst (create_pods reverse 5 []
           ["ann"; "bob"; "cyd"; "dan"; "eve"]%string 3 1) = Returns pods /\
    map id pods = py_range 1 (1 + len pods).
Proof.
  apply (create_pods_ids_sequential reverse 5 []
           ["ann"; "bob"; "cyd"; "dan"; "eve"]%string 3 1).
  - intros l. apply reverse_Permutation.
  - lia.
  - simpl. lia.
Defined.

(** ** The shape of a sequential distribution *)

Lemma extend_last_snoc pods p extra :
  extend_last (pods ++ [p]) extra =
    pods ++ [mkPod (id p) (players p ++ extra) (len (players p ++ extra))].
Proof.
  induction pods as [| q pods IH]; [done |].
  simpl. rewrite IH. by destruct (pods ++ [p]) eqn:E; [destruct pods |].
Qed.

Lemma last_players_snoc pods p : last_players (pods ++ [p]) = players p.
Proof. unfold last_players. by rewrite last_snoc. Qed.

Lemma list_snoc_inv {A} (l : list A) :
  l <> [] -> exists front x, l = front ++ [x].
Proof.
  intros Hne. destruct (decide (l = [])) as [| _]; [done |].
  induction l as [| a l IH] using rev_ind; [done |]. by exists l, a.
Qed.

Lemma simple_loop_at_end fuel ps t m pods pod_id :
  simple_loop fuel ps t m pods pod_id (len ps) = Returns pods.
Proof. destruct fuel; simpl; by rewrite Z.ltb_irrefl. Qed.

Lemma simple_loop_shape fuel :
  forall ps t m pods pod_id i,
    3 <= t ->
    0 <= i <= len ps ->
    len ps - i <= Z.of_nat fuel ->
    Forall (fun p => size p = t /\ len (players p) = t) pods ->
    (i = len ps -> pods <> []) ->
    (pods = [] -> i = 0) ->
    exists front last,
      simple_loop fuel ps t m pods pod_id i = Returns (front ++ [last]) /\
      Forall (fun p => size p = t) front /\
      1 <= size last <= Z.max t m /\
      (size last < 3 ->
       (front = [] /\ size last = len ps) \/
       (front <> [] /\ m < t + size last)).
Proof.
  induction fuel as [| fuel IH];
    intros ps t m pods pod_id i Ht Hi Hfuel Hfull Hne Hfirst.
  - assert (i = len ps) as -> by lia. rewrite simple_loop_at_end.
    destruct (list_snoc_inv pods (Hne eq_refl)) as (front & lst & ->).
    apply Forall_app in Hfull as [Hfront Hlst].
    apply Forall_singleton in Hlst as [Hl1 Hl2].
    exists front, lst. split; [done |]. split.
    { eapply Forall_impl; [exact Hfront |]. by intros ? [? _]. }
    split; [lia | intros; lia].
  - destruct (Z.eq_dec i (len ps)) as [-> | Hlt].
    { rewrite simple_loop_at_end.
      destruct (list_snoc_inv pods (Hne eq_refl)) as (front & lst & ->).
      apply Forall_app in Hfull as [Hfront Hlst].
      apply Forall_singleton in Hlst as [Hl1 Hl2].
      exists front, lst. split; [done |]. split.
      { eapply Forall_impl; [exact Hfront |]. by intros ? [? _]. }
      split; [lia | intros; lia]. }
    cbn [simple_loop]. destruct (Z.ltb_spec i (len ps)); [| lia].
    assert (Hsizes : Forall (fun p => size p = t) pods).
    { eapply Forall_impl; [exact Hfull |]. by intros ? [? _]. }
    set (r := len ps - i) in *.
    assert (Hlastpod : forall s, 1 <= s -> i + s = len ps ->
      simple_loop fuel ps t m
        (pods ++ [mkPod pod_id (py_slice ps i (i + s))
                    (len (py_slice ps i (i + s)))])
        (pod_id + 1) (i + s) =
      Returns (pods ++ [mkPod pod_id (py_slice ps i (i + s)) s])).
    { intros s Hs Hend. rewrite Hend, simple_loop_at_end.
      rewrite <- Hend, len_py_slice_inside by lia. done. }
    destruct (Z.ltb_spec r 3) as [Hsmall | Hbig];
      [destruct (nonempty pods) eqn:Hnon |]; cbn [andb].
    + apply nonempty_true in Hnon.
      destruct (list_snoc_inv pods Hnon) as (front & lst & ->).
      apply Forall_app in Hfull as [Hfront Hlst].
      apply Forall_singleton in Hlst as [Hl1 Hl2].
      rewrite last_players_snoc, Hl2.
      destruct (Z.leb_spec (t + r) m) as [Hfit | Hover].
      * rewrite extend_last_snoc. eexists front, _. split; [done |].
        split. { eapply Forall_impl; [exact Hfront |]. by intros ? [? _]. }
        assert (Hrest : len (py_slice_from ps i) = r).
        { rewrite py_slice_from_nonneg by lia.
          subst r. unfold len in *. rewrite length_drop. lia. }
        simpl. rewrite len_app, Hl2, Hrest.
        split; [lia | intros; lia].
      * destruct (Z.gtb_spec r 0); [| lia].
        rewrite (Hlastpod r) by (unfold r; lia).
        eexists _, _. split; [done |]. split; [done |]. simpl.
        split; [lia |]. intros _. right. split; [by destruct front | lia].
    + assert (pods = []) as -> by (by destruct pods).
      specialize (Hfirst eq_refl).
      rewrite (Z.min_r t r) by lia.
      rewrite (Hlastpod r) by (unfold r; lia).
      eexists [], _. split; [done |]. split; [done |]. simpl.
      split; [lia |]. intros _. left. split; [done | unfold r; lia].
    + destruct (Z_le_gt_dec r t) as [Hle | Hgt].
      * rewrite (Z.min_r t r) by lia.
        rewrite (Hlastpod r) by (unfold r; lia).
        eexists _, _. split; [done |]. split; [done |]. simpl.
        split; [lia | intros; lia].
      * rewrite (Z.min_l t r) by lia.
        apply IH; [done | unfold r in *; lia | unfold r in *; lia | | |].
        -- apply Forall_app. split; [done |]. apply Forall_singleton.
           simpl. rewrite len_py_slice_inside by (unfold r in *; lia). done.
        -- intros _. by destruct pods.
        -- intros Hnil. by destruct pods.
Qed.

(** X6.  [_simple_distribution] with [target_size >= 3] on a non-empty
    list cuts it into pods of exactly [target_size] names followed by one
    last pod.  The last pod has at least one name and at most
    [max(target_size, max_size)].  It has fewer than 3 names in two cases
    only: it is the only pod and holds the whole input, of one or two
    names; or it follows a pod into which it could not be merged, that is
    [target_size] plus its size exceeds [max_size]. *)
Theorem simple_distribution_shape fuel ps t m :
  3 <= t ->
  ps <> [] ->
  (length ps <= fuel)%nat ->
  exists front last,
    _simple_distribution fuel ps t m = Returns (front ++ [last]) /\
    Forall (fun p => size p = t) front /\
    1 <= size last <= Z.max t m /\
    (size last < 3 ->
     (front = [] /\ size last = len ps) \/
     (front <> [] /\ m < t + size last)).
Proof.
  intros Ht Hne Hfuel. unfold _simple_distribution.
  pose proof (len_pos_of_ne ps Hne).
  apply simple_loop_shape; [done | lia | unfold len; lia | done | lia | done].
Qed.

Lemma simple_distribution_shape_witness :
  exists front last,
    _simple_distribution 5 ["ann"; "bob"; "cyd"; "dan"; "eve"]%string 4 4
      = Returns (front ++ [last]) /\
    Forall (fun p => size p = 4) front /\
    1 <= size last <= Z.max 4 4 /\
    (size last < 3 ->
     (front = [] /\
      size last = len ["ann"; "bob"; "cyd"; "dan"; "eve"]%string) \/
     (front <> [] /\ 4 < 4 + size last)).
Proof.
  apply (simple_distribution_shape 5
           ["ann"; "bob"; "cyd"; "dan"; "eve"]%string 4 4).
  - lia.
  - done.
  - simpl. lia.
Defined.

(** A single name: one pod of one name, which follows no pod. *)
Example simple_distribution_single_name :
  _simple_distribution 1 ["ann"%string] 3 8 = Returns [mkPod 1 ["ann"%string] 1].
Proof. reflexivity. Qed.

(** ** More on the history objects *)

Lemma mapM_history_write (h : gmap positive Heap.pyobj) w ws ws' ls log :
  h !! w = Some (Heap.PyList ws) ->
  (forall x, x ∈ ls -> x <> w) ->
  mapM (Heap.read_pod_list h) ls = Some log ->
  mapM (Heap.read_pod_list (<[w := Heap.PyList ws']> h)) ls = Some log.
Proof.
  intros Hw Hne Hlog. apply mapM_Some. apply mapM_Some in Hlog.
  apply Forall2_same_length_lookup in Hlog as [Hlen HF].
  apply Forall2_same_length_lookup. split; [done |].
  intros i x y Hx Hy.
  eapply read_pod_list_history_write; [done | | by eapply HF].
  apply Hne. by eapply list_elem_of_lookup_2.
Qed.

(** X7.  For a non-empty participant list [create_pods] returns the very
    list object that it appended to [self.history]: the internal log ends
    with the returned reference.  So the log reads as the old log followed
    by the returned pods, and if the caller later empties the list it was
    given, the last entry of the internal log is emptied with it.  For the
    empty participant list the call returns a new empty list that is not
    in the log: the log is unchanged, and whatever the caller does to the
    returned list leaves it unchanged. *)
Theorem create_pods_returns_logged_object shuffle fuel
    (h : gmap positive Heap.pyobj) self log t m :
  Heap.read_history h (Heap.history self) = Some log ->
  (forall ps pods log',
     ps <> [] ->
     create_pods shuffle fuel log ps t m = (Returns pods, log') ->
     exists l h' ls h'',
       Heap.create_pods shuffle fuel h self ps t m = Some (Returns l, h') /\
       h' !! Heap.history self = Some (Heap.PyList (ls ++ [l])) /\
       Heap.read_pod_list h' l = Some pods /\
       Heap.read_history h' (Heap.history self) = Some (log ++ [pods]) /\
       log' = log ++ [pods] /\
       Heap.mutate h' l (Heap.SetOuter []) = Some h'' /\
       Heap.read_history h'' (Heap.history self) = Some (log ++ [[]])) /\
  (exists l h',
     Heap.create_pods shuffle fuel h self [] t m = Some (Returns l, h') /\
     create_pods shuffle fuel log [] t m = (Returns [], log) /\
     l <> Heap.history self /\
     h !! l = None /\
     Heap.read_pod_list h' l = Some [] /\
     h' !! Heap.history self = h !! Heap.history self /\
     Heap.read_history h' (Heap.history self) = Some log /\
     forall items,
       exists h'',
         Heap.mutate h' l (Heap.SetOuter items) = Some h'' /\
         Heap.read_history h'' (Heap.history self) = Some log).
Proof.
  intros Hlog. split.
  - intros ps pods log' Hne Hcp.
    destruct (create_pods_on_heap shuffle fuel h self log ps t m pods log'
                Hlog Hne Hcp) as (l & h' & ls & Hc & Hl & Hh & Hhist).
    assert (Hlog' : log' = log ++ [pods]).
    { unfold create_pods in Hcp. destruct ps; [done |].
      destruct (_calculate_pod_distribution _ _ _ _); try done.
      by injection Hcp as -> <-. }
    subst log'.
    assert (Hlobj : exists items, h' !! l = Some (Heap.PyList items)).
    { unfold Heap.read_pod_list in Hl.
      destruct (h' !! l) as [[items | |] |]; try done. by exists items. }
    destruct Hlobj as [items Hlobj].
    exists l, h', ls, (<[l := Heap.PyList []]> h').
    split; [done |]. split; [done |]. split; [done |]. split; [done |].
    split; [done |]. split.
    { unfold Heap.mutate, Heap.deref_list. by rewrite Hlobj. }
    assert (Hnl : l <> Heap.history self).
    { intros ->. unfold Heap.read_history in Hh. rewrite Hhist in Hh.
      eapply (history_items_not_history h' (Heap.history self)
                (ls ++ [Heap.history self])); [done | done | | done].
      apply elem_of_app. right. by left. }
    unfold Heap.read_history in Hh |- *.
    rewrite lookup_insert_ne by done. rewrite Hhist in Hh |- *.
    apply mapM_Some in Hh. apply Forall2_app_inv_l in Hh
      as (log1 & log2 & H1 & H2 & E).
    apply Forall2_length in H2 as Hlen2.
    destruct log2 as [| p2 [| ? ?]]; try done.
    apply app_inj_tail in E as [<- <-].
    apply mapM_Some. apply Forall2_app.
    + apply mapM_Some. eapply (mapM_history_write h' l items []); [done | |].
      * intros x Hx ->.
        (* [l] was allocated by this call, so it is none of the entries
           that the log held before the call *)
        unfold Heap.create_pods in Hc. destruct ps as [| p0 ps0]; [done |].
        destruct (_calculate_pod_distribution _ _ _ _) as [pods0 | |];
          try done.
        destruct (alloc_pod_list_read h pods0) as (Hext & Hfree & _).
        destruct (Heap.alloc_pod_list h pods0) as [l0 h1]. cbn [fst snd] in *.
        unfold Heap.read_history in Hlog.
        destruct (h !! Heap.history self) as [[ls0 | |] |] eqn:Eh; try done.
        unfold Heap.history_append in Hc.
        rewrite (lookup_weaken _ _ _ _ Eh Hext) in Hc. simpl in Hc.
        injection Hc as <- <-.
        rewrite lookup_insert_eq in Hhist.
        injection Hhist as Hls%app_inj_tail. destruct Hls as [<- _].
        apply mapM_Some in Hlog.
        apply list_elem_of_lookup_1 in Hx as [i Hi].
        destruct (Forall2_lookup_l _ _ _ _ _ Hlog Hi) as (v & _ & Hv).
        unfold Heap.read_pod_list in Hv. by rewrite Hfree in Hv.
      * by apply mapM_Some.
    + constructor; [| done].
      unfold Heap.read_pod_list. by rewrite lookup_insert_eq.
  - cbn [Heap.create_pods create_pods].
    destruct (alloc_fresh h (Heap.PyList [])) as [Hfree Hh1].
    destruct (Heap.alloc h (Heap.PyList [])) as [l h'] eqn:Ea.
    cbn [fst snd] in Hfree, Hh1. subst h'.
    assert (Hne : l <> Heap.history self).
    { intros ->. unfold Heap.read_history in Hlog. by rewrite Hfree in Hlog. }
    eexists l, _. split; [done |]. split; [done |]. split; [done |].
    split; [done |]. split.
    { unfold Heap.read_pod_list. by rewrite lookup_insert_eq. }
    split; [by rewrite lookup_insert_ne |].
    split; [by apply read_history_frame |].
    intros items. unfold Heap.mutate, Heap.deref_list.
    rewrite lookup_insert_eq. simpl. eexists. split; [done |].
    rewrite insert_insert_eq. by apply read_history_frame.
Qed.

Lemma create_pods_returns_logged_object_witness :
  let h : gmap positive Heap.pyobj := {[ 1%positive := Heap.PyList [] ]} in
  let self := Heap.mkPodRandomizer 1 in
  let ps := ["ann"; "bob"; "cyd"]%string in
  let pods := [mkPod 1 ps 3] in
  exists l h' ls h'',
    Heap.create_pods (fun l => l) 0 h self ps 4 8 = Some (Returns l, h') /\
    h' !! Heap.history self = Some (Heap.PyList (ls ++ [l])) /\
    Heap.read_pod_list h' l = Some pods /\
    Heap.read_history h' (Heap.history self) = Some ([] ++ [pods]) /\
    [pods] = [] ++ [pods] /\
    Heap.mutate h' l (Heap.SetOuter []) = Some h'' /\
    Heap.read_history h'' (Heap.history self) = Some ([] ++ [[]]).
Proof.
  intros h self ps pods.
  refine (proj1 (create_pods_returns_logged_object (fun l => l) 0 h self []
                   4 8 _) ps pods [pods] _ _).
  - vm_compute. reflexivity.
  - done.
  - reflexivity.
Defined.

(** X8.  [clear_history] empties the internal list in place.  A list
    obtained from [get_history] before the call is another object: it
    still reads as the log did, while the internal log reads as empty. *)
Theorem clear_history_keeps_earlier_copies
    (h : gmap positive Heap.pyobj) self log r h1 :
  Heap.read_history h (Heap.history self) = Some log ->
  Heap.get_history h self = Some (r, h1) ->
  exists h2,
    Heap.clear_history h1 self = Some h2 /\
    Heap.read_history h2 (Heap.history self) = Some [] /\
    Heap.read_history h2 r = Some log.
Proof.
  intros Hlog Hget. unfold Heap.get_history in Hget.
  pose proof Hlog as Hlog'. unfold Heap.read_history in Hlog'.
  destruct (h !! Heap.history self) as [[ls | |] |] eqn:Eh; try done.
  destruct (alloc_fresh h (Heap.PyList ls)) as [Hfree Hh1].
  destruct (Heap.alloc h (Heap.PyList ls)) as [r' h1'] eqn:Ea.
  cbn [fst snd] in *. injection Hget as <- <-. subst h1'.
  assert (Hne : r' <> Heap.history self) by congruence.
  assert (Eh1 : <[r' := Heap.PyList ls]> h !! Heap.history self
                = Some (Heap.PyList ls)).
  { by rewrite lookup_insert_ne. }
  unfold Heap.clear_history. rewrite Eh1. eexists. split; [done |].
  unfold Heap.read_history. rewrite lookup_insert_eq. split; [done |].
  rewrite lookup_insert_ne by done. rewrite lookup_insert_eq.
  assert (Hlog1 : mapM (Heap.read_pod_list (<[r' := Heap.PyList ls]> h)) ls
                  = Some log).
  { revert Hlog'. apply mapM_frame. intros x y.
    by apply read_pod_list_frame. }
  eapply mapM_history_write; [exact Eh1 | | exact Hlog1].
  intros x Hx. by eapply history_items_not_history.
Qed.

Lemma clear_history_keeps_earlier_copies_witness :
  let h : gmap positive Heap.pyobj :=
    {[ 1%positive := Heap.PyList [2%positive];
       2%positive := Heap.PyList [3%positive];
       3%positive := Heap.PyPod 1 4%positive 3;
       4%positive := Heap.PyNames ["ann"; "bob"; "cyd"]%string ]} in
  let self := Heap.mkPodRandomizer 1 in
  let log := [[mkPod 1 ["ann"; "bob"; "cyd"]%string 3]] in
  let r := fst (Heap.alloc h (Heap.PyList [2%positive])) in
  let h1 := snd (Heap.alloc h (Heap.PyList [2%positive])) in
  exists h2,
    Heap.clear_history h1 self = Some h2 /\
    Heap.read_history h2 (Heap.history self) = Some [] /\
    Heap.read_history h2 r = Some log.
Proof.
  intros h self log r h1.
  apply (clear_history_keeps_earlier_copies h self log r h1).
  - vm_compute. reflexivity.
  - vm_compute. reflexivity.
Defined.

(** * [PlayerManager] *)

Example ascii_strip_lower_examples :
  PlayerManager.ascii_strip "  Ann Lee   " = "Ann Lee"%string /\
  PlayerManager.ascii_strip "   " = ""%string /\
  PlayerManager.ascii_lower "Ann LEE 2" = "ann lee 2"%string.
Proof. repeat split; reflexivity. Qed.

Section PlayerManagerFacts.
Variables strip lower : string -> string.

Let add_player := PlayerManager.add_player strip lower.
Let remove_player := PlayerManager.remove_player strip.
Let import_players_from_list :=
  PlayerManager.import_players_from_list strip lower.
Let search_players := PlayerManager.search_players lower.

Lemma known_spec players name :
  PlayerManager.known lower players name = true <->
  lower name ∈ map lower players.
Proof. unfold PlayerManager.known. apply bool_decide_eq_true. Qed.

Lemma add_player_accepts players name :
  strip name <> ""%string ->
  lower (strip name) ∉ map lower players ->
  add_player players name = (true, players ++ [strip name]).
Proof.
  intros Hne Hnew. unfold add_player, PlayerManager.add_player.
  destruct (decide (strip name = ""%string)); [done |].
  destruct (PlayerManager.known lower players (strip name)) eqn:E; [| done].
  by apply known_spec in E.
Qed.

Lemma add_player_rejects players name :
  strip name = ""%string \/ lower (strip name) ∈ map lower players ->
  add_player players name = (false, players).
Proof.
  intros H. unfold add_player, PlayerManager.add_player.
  destruct (decide (strip name = ""%string)); [done |].
  destruct H as [? | H]; [done |].
  apply known_spec in H. by rewrite H.
Qed.

Lemma add_player_cases players name :
  (strip name <> ""%string /\ (lower (strip name) ∉ map lower players) /\
   add_player players name = (true, players ++ [strip name])) \/
  ((strip name = ""%string \/ lower (strip name) ∈ map lower players) /\
   add_player players name = (false, players)).
Proof.
  destruct (decide (strip name = ""%string)) as [E | Hne].
  { right. split; [by left |]. apply add_player_rejects. by left. }
  destruct (decide (lower (strip name) ∈ map lower players)) as [Hin | Hnew].
  { right. split; [by right |]. apply add_player_rejects. by right. }
  left. split; [done |]. split; [done |]. by apply add_player_accepts.
Qed.

Lemma add_player_roster_ok players name :
  roster_ok lower players -> roster_ok lower (snd (add_player players name)).
Proof.
  intros [Hnd Hne].
  destruct (add_player_cases players name)
    as [(Hn & Hnew & ->) | (_ & ->)]; [| done].
  simpl. split.
  - rewrite map_app. simpl. apply NoDup_app. split; [done |]. split.
    + intros x Hx Hx'%list_elem_of_singleton. by subst.
    + apply NoDup_singleton.
  - apply Forall_app. split; [done |]. by apply Forall_singleton.
Qed.

(** The loop is a run of [add_player] calls that counts the [True]
    results. *)
Lemma import_loop_fold l :
  forall players added,
    PlayerManager.import_loop strip lower l players added =
      foldl (fun '(k, ps) name =>
               let '(ok, ps') := add_player ps name in
               (if ok then k + 1 else k, ps'))
            (added, players) l.
Proof.
  induction l as [| name l IH]; intros players added; [done |].
  cbn [PlayerManager.import_loop foldl].
  destruct (add_player_cases players name)
    as [(Hn & Hnew & ->) | (Hrej & ->)].
  - rewrite bool_decide_eq_false_2 by done.
    destruct (PlayerManager.known lower players (strip name)) eqn:E.
    { by apply known_spec in E. }
    simpl. apply IH.
  - destruct Hrej as [E | Hin].
    + rewrite bool_decide_eq_true_2 by done. simpl. apply IH.
    + apply known_spec in Hin. rewrite Hin, andb_false_r. apply IH.
Qed.

Lemma import_loop_grows l :
  forall players added,
    exists new,
      snd (PlayerManager.import_loop strip lower l players added)
        = players ++ new /\
      fst (PlayerManager.import_loop strip lower l players added)
        = added + len new.
Proof.
  induction l as [| name l IH]; intros players added.
  - exists []. simpl. rewrite app_nil_r. unfold len. simpl. split; [done | lia].
  - cbn [PlayerManager.import_loop].
    destruct (_ && _).
    + destruct (IH (players ++ [strip name]) (added + 1)) as (new & -> & ->).
      exists (strip name :: new). rewrite <- app_assoc. split; [done |].
      unfold len. simpl. lia.
    + apply IH.
Qed.

Lemma import_loop_roster_ok l :
  forall players added,
    roster_ok lower players ->
    roster_ok lower (snd (PlayerManager.import_loop strip lower l players added)).
Proof.
  induction l as [| name l IH]; intros players added Hok; [done |].
  cbn [PlayerManager.import_loop].
  pose proof (add_player_roster_ok players name Hok) as Hadd.
  destruct (add_player_cases players name)
    as [(Hn & Hnew & E) | (Hrej & E)]; rewrite E in Hadd; simpl in Hadd.
  - rewrite bool_decide_eq_false_2 by done.
    destruct (PlayerManager.known lower players (strip name)) eqn:Ek.
    { by apply known_spec in Ek. }
    simpl. by apply IH.
  - destruct Hrej as [Es | Hin].
    + rewrite bool_decide_eq_true_2 by done. simpl. by apply IH.
    + apply known_spec in Hin. rewrite Hin, andb_false_r. by apply IH.
Qed.

Lemma roster_ok_NoDup players : roster_ok lower players -> NoDup players.
Proof. intros [H _]. by apply NoDup_fmap_1 in H. Qed.

(** X9.  A roster with no two names equal up to case and no empty name
    stays so under [add_player] and [import_players_from_list], whatever
    is passed in; in particular it never holds the same name twice. *)
Theorem add_and_import_keep_roster_ok players name l :
  roster_ok lower players ->
  roster_ok lower (snd (add_player players name)) /\
  roster_ok lower (snd (import_players_from_list players l)) /\
  NoDup (snd (add_player players name)) /\
  NoDup (snd (import_players_from_list players l)).
Proof.
  intros Hok.
  pose proof (add_player_roster_ok players name Hok).
  pose proof (import_loop_roster_ok l players 0 Hok).
  split; [done |]. split; [done |]. split; by apply roster_ok_NoDup.
Qed.

(** X10.  [import_players_from_list] is [add_player] called on each name
    in turn: the roster it leaves and the number it returns are those of
    the run of [add_player] calls, counting the calls that returned
    [True].  The old roster is kept as a prefix and the number returned is
    the number of names appended. *)
Theorem import_is_repeated_add_player players l :
  import_players_from_list players l =
    foldl (fun '(k, ps) name =>
             let '(ok, ps') := add_player ps name in
             (if ok then k + 1 else k, ps'))
          (0, players) l /\
  exists new,
    snd (import_players_from_list players l) = players ++ new /\
    fst (import_players_from_list players l) = len new.
Proof.
  split; [apply import_loop_fold |].
  destruct (import_loop_grows l players 0) as (new & H1 & H2).
  exists new. split; [done |].
  unfold import_players_from_list, PlayerManager.import_players_from_list.
  rewrite H2. lia.
Qed.

Lemma list_remove_spec x l :
  x ∈ l ->
  exists l1 l2,
    l = l1 ++ x :: l2 /\ (x ∉ l1) /\ PlayerManager.list_remove x l = l1 ++ l2.
Proof.
  induction l as [| y l IH]; intros Hin; [by apply elem_of_nil in Hin |].
  simpl. destruct (decide (y = x)) as [-> | Hne].
  - exists [], l. split; [done |]. split; [apply not_elem_of_nil | done].
  - apply elem_of_cons in Hin as [-> | Hin]; [done |].
    destruct (IH Hin) as (l1 & l2 & -> & Hnot & ->).
    exists (y :: l1), l2. split; [done |]. split; [| done].
    apply not_elem_of_cons. split; [congruence | done].
Qed.

(** X11.  On a roster without repeated names, [remove_player] of a name
    that is present (after stripping, compared exactly) returns [True]
    and leaves the roster without that name, one shorter, the other names
    in their order; of a name that is absent it returns [False] and
    leaves the roster as it was. *)
Theorem remove_player_removes players name :
  NoDup players ->
  (strip name ∈ players ->
   exists l1 l2,
     players = l1 ++ strip name :: l2 /\
     remove_player players name = (true, l1 ++ l2) /\
     (strip name ∉ l1 ++ l2) /\
     len (l1 ++ l2) = len players - 1) /\
  (strip name ∉ players ->
   remove_player players name = (false, players)).
Proof.
  intros Hnd. unfold remove_player, PlayerManager.remove_player. split.
  - intros Hin. rewrite bool_decide_eq_true_2 by done.
    destruct (list_remove_spec _ _ Hin) as (l1 & l2 & E & Hnot & ->).
    exists l1, l2. split; [done |]. split; [done |]. subst players.
    apply NoDup_app in Hnd as (_ & Hdis & Hnd2).
    apply NoDup_cons in Hnd2 as [Hnot2 _].
    split.
    + intros [? | ?]%elem_of_app; done.
    + rewrite !len_app. unfold len. simpl. lia.
  - intros Hnot. by rewrite bool_decide_eq_false_2.
Qed.

(** X12.  [add_player] compares names up to case, [remove_player] compares
    them exactly.  So when [a] is on the roster and [b] differs from [a]
    only by case, [add_player b] refuses [b] as a duplicate, and
    [remove_player b] reports that [b] is not there and removes
    nothing. *)
Theorem add_ignores_case_remove_does_not players a b :
  strip a = a -> strip b = b ->
  a <> ""%string ->
  a <> b ->
  lower a = lower b ->
  lower a ∉ map lower players ->
  add_player players a = (true, players ++ [a]) /\
  add_player (players ++ [a]) b = (false, players ++ [a]) /\
  remove_player (players ++ [a]) b = (false, players ++ [a]).
Proof.
  intros Ha Hb Hne Hab Hl Hnew.
  split; [| split].
  - rewrite <- Ha at 2. apply add_player_accepts; rewrite Ha; done.
  - apply add_player_rejects. right. rewrite Hb, <- Hl, map_app.
    apply elem_of_app. right. by left.
  - unfold remove_player, PlayerManager.remove_player. rewrite Hb.
    rewrite bool_decide_eq_false_2; [done |].
    intros [Hin | Hin%list_elem_of_singleton]%elem_of_app; [| done].
    apply Hnew. rewrite Hl. by apply list_elem_of_fmap_2.
Qed.

Lemma prefix_refl s : String.prefix s s = true.
Proof.
  induction s as [| c s IH]; [done |]. simpl.
  destruct (Ascii.ascii_dec c c); [exact IH | done].
Qed.

Lemma contains_empty s : PlayerManager.contains s "" = true.
Proof. by destruct s. Qed.

Lemma contains_refl s : PlayerManager.contains s s = true.
Proof.
  destruct s; [done |]. cbn [PlayerManager.contains]. by rewrite prefix_refl.
Qed.

(** X13.  [search_players] returns names of the roster, each at most as
    often as it is there and in roster order; a query equal to a name up
    to case finds that name; and the empty query returns the whole
    roster. *)
Theorem search_players_results players query :
  lower ""%string = ""%string ->
  sublist (search_players players query) players /\
  (forall p, p ∈ players -> lower p = lower query ->
             p ∈ search_players players query) /\
  search_players players ""%string = players.
Proof.
  intros Hempty. unfold search_players, PlayerManager.search_players.
  split; [apply sublist_filter |]. split.
  - intros p Hp E. apply list_elem_of_filter. split; [| done].
    rewrite E. apply Is_true_true, contains_refl.
  - rewrite Hempty. induction players as [| p players IH]; [done |].
    rewrite filter_cons_True; [by rewrite IH |].
    apply Is_true_true, contains_empty.
Qed.

End PlayerManagerFacts.

Lemma add_and_import_keep_roster_ok_witness :
  let strip := PlayerManager.ascii_strip in
  let lower := PlayerManager.ascii_lower in
  let players := ["Ann"]%string in
  let name := " ann "%string in
  let l := ["Bob"; "BOB"; "  "; "ann"; "Cyd"]%string in
  roster_ok lower (snd (PlayerManager.add_player strip lower players name)) /\
  roster_ok lower
    (snd (PlayerManager.import_players_from_list strip lower players l)) /\
  NoDup (snd (PlayerManager.add_player strip lower players name)) /\
  NoDup (snd (PlayerManager.import_players_from_list strip lower players l)).
Proof.
  intros strip lower players name l.
  apply (add_and_import_keep_roster_ok strip lower players name l).
  split.
  - apply NoDup_singleton.
  - by apply Forall_singleton.
Defined.

Example import_players_example :
  PlayerManager.import_players_from_list
    PlayerManager.ascii_strip PlayerManager.ascii_lower
    ["Ann"]%string ["Bob"; "BOB"; "  "; "ann"; " Cyd "]%string
  = (2, ["Ann"; "Bob"; "Cyd"]%string).
Proof. reflexivity. Qed.

Lemma remove_player_removes_witness :
  let strip := PlayerManager.ascii_strip in
  let players := ["Ann"; "Bob"; "Cyd"]%string in
  (strip " Bob " ∈ players ->
   exists l1 l2,
     players = l1 ++ strip " Bob " :: l2 /\
     PlayerManager.remove_player strip players " Bob " = (true, l1 ++ l2) /\
     (strip " Bob " ∉ l1 ++ l2) /\
     len (l1 ++ l2) = len players - 1) /\
  (strip " Bob " ∉ players ->
   PlayerManager.remove_player strip players " Bob " = (false, players)).
Proof.
  intros strip players.
  apply (remove_player_removes strip players " Bob ").
  compute_done.
Defined.

Lemma add_ignores_case_remove_does_not_witness :
  let strip := PlayerManager.ascii_strip in
  let lower := PlayerManager.ascii_lower in
  let players := ["Ann"%string] in
  let a := "Bob"%string in
  let b := "bob"%string in
  PlayerManager.add_player strip lower players a = (true, players ++ [a]) /\
  PlayerManager.add_player strip lower (players ++ [a]) b
    = (false, players ++ [a]) /\
  PlayerManager.remove_player strip (players ++ [a]) b
    = (false, players ++ [a]).
Proof.
  intros strip lower players a b.
  apply (add_ignores_case_remove_does_not strip lower players a b).
  - reflexivity.
  - reflexivity.
  - discriminate.
  - discriminate.
  - reflexivity.
  - compute_done.
Defined.

Lemma search_players_results_witness :
  let lower := PlayerManager.ascii_lower in
  let players := ["Ann"; "Bob"; "Annabel"]%string in
  sublist (PlayerManager.search_players lower players "ANN") players /\
  (forall p, p ∈ players -> lower p = lower "ANN"%string ->
             p ∈ PlayerManager.search_players lower players "ANN") /\
  PlayerManager.search_players lower players ""%string = players.
Proof.
  intros lower players.
  apply (search_players_results lower players "ANN").
  reflexivity.
Defined.

Example search_players_example :
  PlayerManager.search_players PlayerManager.ascii_lower
    ["Ann"; "Bob"; "Annabel"; "Joanna"]%string "ANN"
  = ["Ann"; "Annabel"; "Joanna"]%string.
Proof. reflexivity. Qed.

(** * More on [create_pods] and on the stored history *)

(** X14.  With [max_size >= 3] the target size has no effect:
    [create_pods] returns the same pods and leaves the same history for
    any two values of [target_size].  The pods depend only on the
    shuffled list and on [max_size]. *)
Theorem create_pods_ignores_target_size shuffle fuel history ps t1 t2 m :
  (forall l, shuffle l ≡ₚ l) ->
  3 <= m ->
  create_pods shuffle fuel history ps t1 m =
  create_pods shuffle fuel history ps t2 m.
Proof.
  intros Hsh Hm. destruct (decide (ps = [])) as [-> | Hne]; [done |].
  by rewrite !(create_pods_first shuffle fuel history ps _ m Hsh Hne Hm).
Qed.

Lemma create_pods_ignores_target_size_witness :
  create_pods reverse 0 [] ["ann"; "bob"; "cyd"; "dan"; "eve"; "fay"]%string 3 6 =
  create_pods reverse 0 [] ["ann"; "bob"; "cyd"; "dan"; "eve"; "fay"]%string 6 6.
Proof.
  apply (create_pods_ignores_target_size reverse 0 []
           ["ann"; "bob"; "cyd"; "dan"; "eve"; "fay"]%string 3 6 6).
  - intros l. apply reverse_Permutation.
  - lia.
Defined.

(** Six names, target 3, maximum 6: one pod of six, not two of three. *)
Example create_pods_target_three_max_six :
  fst (create_pods (fun l => l) 0 []
         ["ann"; "bob"; "cyd"; "dan"; "eve"; "fay"]%string 3 6) =
  Returns [mkPod 1 ["ann"; "bob"; "cyd"; "dan"; "eve"; "fay"]%string 6].
Proof. reflexivity. Qed.

Lemma suffix_last {A} (n : nat) (l : list A) :
  (1 <= n)%nat -> last (suffix n l) = last l.
Proof.
  intros Hn. unfold suffix.
  destruct (decide (l = [])) as [-> | Hne]; [done |].
  destruct (list_snoc_inv l Hne) as (front & x & ->).
  rewrite length_app. simpl.
  rewrite drop_app_le by lia. by rewrite !last_snoc.
Qed.

Lemma length_suffix {A} (n : nat) (l : list A) :
  length (suffix n l) = Nat.min n (length l).
Proof. unfold suffix. rewrite length_drop. lia. Qed.

(** X15.  For [max_history_items >= 1] the stored history is first in,
    first out: after any non-empty run of [save_to_history] calls it
    holds the most recent [max_history_items] entries of everything that
    was stored or appended, in order; it never holds more than
    [max_history_items] entries, and the entry saved last is its last
    entry. *)
Theorem save_to_history_first_in_first_out max_items stored calls :
  1 <= max_items ->
  calls <> [] ->
  save_all max_items stored calls =
    suffix (Z.to_nat max_items) (stored ++ map entry_of calls) /\
  len (save_all max_items stored calls) =
    Z.min max_items (len stored + len calls) /\
  last (save_all max_items stored calls) = last (map entry_of calls).
Proof.
  intros Hmax Hne.
  rewrite save_all_keeps_most_recent by done.
  split; [done |]. split.
  - unfold len. rewrite length_suffix, length_app, length_map. lia.
  - rewrite suffix_last by lia.
    destruct (list_snoc_inv calls Hne) as (front & c & ->).
    rewrite map_app, app_assoc. simpl. by rewrite !last_snoc.
Qed.

Lemma save_to_history_first_in_first_out_witness :
  let calls := [("t1", []); ("t2", []); ("t3", [])]%string in
  let stored := [mkHistoryEntry "t0" []] in
  save_all 2 stored calls =
    suffix (Z.to_nat 2) (stored ++ map entry_of calls) /\
  len (save_all 2 stored calls) = Z.min 2 (len stored + len calls) /\
  last (save_all 2 stored calls) = last (map entry_of calls).
Proof.
  intros calls stored.
  apply (save_to_history_first_in_first_out 2 stored calls).
  - lia.
  - discriminate.
Defined.

(** * [DataStorage] and the files *)

(** X16.  What is saved is what is loaded: the roster and the history
    written by [DataStorage] read back unchanged, whatever the files held
    before; [PlayerManager] and [DataStorage] read each other's
    [players.json]; and a missing or unreadable file, or a document
    without the key, loads as the empty list. *)
Theorem save_then_load now players history roster d :
  DataStorage.load_players
    (snd (DataStorage.save_players now players d)) = players /\
  DataStorage.load_history
    (snd (DataStorage.save_history now history d)) = history /\
  PlayerManager.load_players roster
    (snd (DataStorage.save_players now players d)) = (true, players) /\
  DataStorage.load_players
    (snd (PlayerManager.save_players now players d)) = players /\
  PlayerManager.load_players roster
    (snd (PlayerManager.save_players now players d)) = (true, players) /\
  (forall d', players_json d' = Missing \/ players_json d' = Unreadable ->
     DataStorage.load_players d' = []) /\
  (forall d', history_json d' = Missing \/ history_json d' = Unreadable ->
     DataStorage.load_history d' = []).
Proof.
  repeat split; try reflexivity.
  - intros d' [E | E]; unfold DataStorage.load_players; by rewrite E.
  - intros d' [E | E]; unfold DataStorage.load_history; by rewrite E.
Qed.

(** X17.  [PlayerManager.load_players] keeps the roster in memory when
    [players.json] is missing, replaces it by the stored list when the
    file is readable, and empties it, returning [False], when the file is
    unreadable.  The stored list is taken as it is: a list with names
    equal up to case comes back with them. *)
Theorem load_players_cases roster d :
  (players_json d = Missing ->
   PlayerManager.load_players roster d = (true, roster)) /\
  (players_json d = Unreadable ->
   PlayerManager.load_players roster d = (false, [])) /\
  (forall doc, players_json d = Doc doc ->
   PlayerManager.load_players roster d = (true, default [] (pd_players doc))) /\
  (forall lower now a b,
     a <> b -> lower a = lower b ->
     let d' := snd (DataStorage.save_players now [a; b] d) in
     snd (PlayerManager.load_players roster d') = [a; b] /\
     ~ roster_ok lower (snd (PlayerManager.load_players roster d'))).
Proof.
  unfold PlayerManager.load_players.
  split; [by intros -> |]. split; [by intros -> |]. split; [by intros doc -> |].
  intros lower now a b Hab Hl. simpl. split; [done |].
  intros [Hnd _]. simpl in Hnd. rewrite Hl in Hnd.
  apply NoDup_cons in Hnd as [Hnot _]. apply Hnot. by left.
Qed.

Lemma default_config_keys k :
  is_Some (DataStorage.default_config !! k) <->
  k ∈ ["default_pod_size"; "max_pod_size"; "min_pod_size"; "auto_save";
       "keep_history"; "max_history_items"]%string.
Proof.
  rewrite <- elem_of_dom. unfold DataStorage.default_config.
  rewrite !dom_insert_L, dom_singleton_L, !elem_of_union, !elem_of_singleton.
  rewrite !elem_of_cons, elem_of_nil. tauto.
Qed.

(** X18.  [load_config] always defines the six keys of the default
    configuration, so reading them from [self.config] cannot fail; a key
    present in [config.json] has the stored value, a key absent from it
    (or any key when the file is missing or unreadable) has the default
    value. *)
Theorem load_config_defaults d k :
  (is_Some (DataStorage.default_config !! k) ->
   is_Some (DataStorage.load_config d !! k)) /\
  (forall c v, config_json d = Doc c -> c !! k = Some v ->
     DataStorage.load_config d !! k = Some v) /\
  (forall c, config_json d = Doc c -> c !! k = None ->
     DataStorage.load_config d !! k = DataStorage.default_config !! k) /\
  (config_json d = Missing \/ config_json d = Unreadable ->
   DataStorage.load_config d = DataStorage.default_config).
Proof.
  unfold DataStorage.load_config. split; [| split; [| split]].
  - intros Hk. apply lookup_union_is_Some. by right.
  - intros c v -> Hc. by apply lookup_union_Some_l.
  - intros c -> Hc. by rewrite lookup_union_r.
  - intros [-> | ->]; by rewrite (left_id_L ∅ (∪)).
Qed.

(** X19.  [save_config] adds [last_saved] to the dict it is given and
    stores it.  [load_config] then returns the stored dict completed by
    the defaults; for a dict that already has every default key, as the
    one returned by [load_config] has, it returns exactly the caller's
    dict as it is after the call. *)
Theorem save_config_then_load now (c : gmap string cfgval) d :
  let c' := snd (fst (DataStorage.save_config now c d)) in
  let d' := snd (DataStorage.save_config now c d) in
  c' = <["last_saved"%string := CStr now]> c /\
  DataStorage.load_config d' = c' ∪ DataStorage.default_config /\
  (dom DataStorage.default_config ⊆ dom c ->
   DataStorage.load_config d' = c') /\
  DataStorage.load_config
    (snd (DataStorage.save_config now (DataStorage.load_config d) d))
    = <["last_saved"%string := CStr now]> (DataStorage.load_config d).
Proof.
  intros c' d'. subst c' d'. simpl.
  assert (Hfull : forall c0 : gmap string cfgval,
    dom DataStorage.default_config ⊆ dom c0 ->
    <["last_saved"%string := CStr now]> c0 ∪ DataStorage.default_config
      = <["last_saved"%string := CStr now]> c0).
  { intros c0 Hdom. apply map_eq. intros k. rewrite lookup_union.
    destruct (<["last_saved"%string := CStr now]> c0 !! k) as [v |] eqn:E.
    - by destruct (DataStorage.default_config !! k).
    - destruct (DataStorage.default_config !! k) as [w |] eqn:Ed; [| done].
      assert (Hk : k ∈ dom c0) by (apply Hdom, elem_of_dom; by eexists).
      apply elem_of_dom in Hk as [v Hv].
      destruct (decide (k = "last_saved"%string)) as [-> | Hne].
      + by rewrite lookup_insert_eq in E.
      + rewrite lookup_insert_ne in E by done. congruence. }
  split; [done |]. split; [done |]. split; [apply Hfull |].
  unfold DataStorage.load_config at 1. simpl. apply Hfull.
  unfold DataStorage.load_config. rewrite dom_union_L.
  apply union_subseteq_r.
Qed.

(** ** Backups *)

(** X20.  A backup made with a stamp that has none yet succeeds and
    changes no data file; a second one with the same stamp fails and
    leaves the first as it is.  Restoring that backup later, whatever
    happened to the data files in between, puts back every data file
    that existed when the backup was made, as it was then; a data file
    that did not exist then is not removed: it stays as it is at the time
    of the restore. *)
Theorem backup_then_restore stamp d d2 :
  backup_dirs d !! ("backup_" ++ stamp)%string = None ->
  let d1 := snd (DataStorage.create_backup stamp d) in
  backup_dirs d2 !! ("backup_" ++ stamp)%string =
    backup_dirs d1 !! ("backup_" ++ stamp)%string ->
  let d3 := snd (DataStorage.restore_backup ("backup_" ++ stamp) d2) in
  fst (DataStorage.create_backup stamp d) = true /\
  (players_json d1, config_json d1, history_json d1) =
    (players_json d, config_json d, history_json d) /\
  DataStorage.create_backup stamp d1 = (false, d1) /\
  fst (DataStorage.restore_backup ("backup_" ++ stamp) d2) = true /\
  (players_json d <> Missing -> players_json d3 = players_json d) /\
  (config_json d <> Missing -> config_json d3 = config_json d) /\
  (history_json d <> Missing -> history_json d3 = history_json d) /\
  (players_json d = Missing -> players_json d3 = players_json d2) /\
  (config_json d = Missing -> config_json d3 = config_json d2) /\
  (history_json d = Missing -> history_json d3 = history_json d2) /\
  backup_dirs d3 = backup_dirs d2.
Proof.
  intros Hfree d1 Hsame d3. subst d1 d3.
  unfold DataStorage.create_backup in *. rewrite Hfree in *. simpl in *.
  rewrite lookup_insert_eq in Hsame.
  unfold DataStorage.restore_backup. rewrite Hsame. simpl.
  rewrite lookup_insert_eq.
  repeat split; try done.
  - by destruct (players_json d).
  - by destruct (config_json d).
  - by destruct (history_json d).
  - by intros ->.
  - by intros ->.
  - by intros ->.
Qed.

Lemma backup_then_restore_witness :
  let d :=
    set_players_json
      (Doc (mkPlayersDoc (Some ["ann"; "bob"]%string) (Some 2) None None))
      empty_disk in
  let d1 := snd (DataStorage.create_backup "20260101_120000" d) in
  let d2 :=
    snd (DataStorage.save_history "t" [mkHistoryEntry "t" []]
           (snd (DataStorage.save_players "t" ["cyd"]%string d1))) in
  let d3 := snd (DataStorage.restore_backup "backup_20260101_120000" d2) in
  fst (DataStorage.create_backup "20260101_120000" d) = true /\
  (players_json d1, config_json d1, history_json d1) =
    (players_json d, config_json d, history_json d) /\
  DataStorage.create_backup "20260101_120000" d1 = (false, d1) /\
  fst (DataStorage.restore_backup "backup_20260101_120000" d2) = true /\
  (players_json d <> Missing -> players_json d3 = players_json d) /\
  (config_json d <> Missing -> config_json d3 = config_json d) /\
  (history_json d <> Missing -> history_json d3 = history_json d) /\
  (players_json d = Missing -> players_json d3 = players_json d2) /\
  (config_json d = Missing -> config_json d3 = config_json d2) /\
  (history_json d = Missing -> history_json d3 = history_json d2) /\
  backup_dirs d3 = backup_dirs d2.
Proof.
  intros d d1 d2 d3.
  apply (backup_then_restore "20260101_120000" d d2).
  - reflexivity.
  - reflexivity.
Defined.

(** The restore above: the roster is back, the history written after the
    backup is still there. *)
Example restore_keeps_later_history :
  let d :=
    set_players_json
      (Doc (mkPlayersDoc (Some ["ann"; "bob"]%string) (Some 2) None None))
      empty_disk in
  let d1 := snd (DataStorage.create_backup "20260101_120000" d) in
  let d2 :=
    snd (DataStorage.save_history "t" [mkHistoryEntry "t" []]
           (snd (DataStorage.save_players "t" ["cyd"]%string d1))) in
  let d3 := snd (DataStorage.restore_backup "backup_20260101_120000" d2) in
  DataStorage.load_players d3 = ["ann"; "bob"]%string /\
  DataStorage.load_history d3 = [mkHistoryEntry "t" []].
Proof. split; reflexivity. Qed.

(** ** Export and import *)

Lemma load_config_full d :
  dom DataStorage.default_config ⊆ dom (DataStorage.load_config d).
Proof.
  unfold DataStorage.load_config. rewrite dom_union_L.
  apply union_subseteq_r.
Qed.

Lemma union_default_full now (c : gmap string cfgval) :
  dom DataStorage.default_config ⊆ dom c ->
  <["last_saved"%string := CStr now]> c ∪ DataStorage.default_config
    = <["last_saved"%string := CStr now]> c.
Proof.
  intros Hdom. apply map_eq. intros k. rewrite lookup_union.
  destruct (<["last_saved"%string := CStr now]> c !! k) as [v |] eqn:E.
  - by destruct (DataStorage.default_config !! k).
  - destruct (DataStorage.default_config !! k) as [w |] eqn:Ed; [| done].
    assert (Hk : k ∈ dom c) by (apply Hdom, elem_of_dom; by eexists).
    apply elem_of_dom in Hk as [v Hv].
    destruct (decide (k = "last_saved"%string)) as [-> | Hne].
    + by rewrite lookup_insert_eq in E.
    + rewrite lookup_insert_ne in E by done. congruence.
Qed.

Lemma export_file_written now path d :
  export_file (snd (DataStorage.export_data now path d)) path =
    Doc (mkExportDoc (Some (DataStorage.load_players d))
           (Some (DataStorage.load_config d))
           (Some (DataStorage.load_history d)) (Some now)
           (Some "1.0"%string)).
Proof. unfold export_file. simpl. by rewrite lookup_insert_eq. Qed.

(** X21.  An export followed by an import in replace mode, on the same
    data directory or on another one that has the exported file, brings
    back the roster and the history exactly, and the configuration with
    every key as [load_config] gave it at export time, [last_saved]
    apart. *)
Theorem export_then_import set_order now now' path d d2 :
  export_file d2 path =
    export_file (snd (DataStorage.export_data now path d)) path ->
  let d3 := snd (DataStorage.import_data set_order now' path false d2) in
  fst (DataStorage.import_data set_order now' path false d2) = true /\
  DataStorage.load_players d3 = DataStorage.load_players d /\
  DataStorage.load_history d3 = DataStorage.load_history d /\
  DataStorage.load_config d3 =
    <["last_saved"%string := CStr (now' 1%nat)]> (DataStorage.load_config d).
Proof.
  intros Hfile d3. subst d3. rewrite export_file_written in Hfile.
  unfold DataStorage.import_data. rewrite Hfile. simpl.
  repeat split.
  unfold DataStorage.load_config at 1. simpl.
  apply union_default_full, load_config_full.
Qed.

Lemma export_then_import_witness :
  let d :=
    snd (DataStorage.save_history "t0" [mkHistoryEntry "t0" []]
           (snd (DataStorage.save_players "t0" ["ann"; "bob"]%string
                   empty_disk))) in
  let d2 := snd (DataStorage.export_data "t1" "mtg_export.json" d) in
  let now' := fun _ : nat => "t2"%string in
  let d3 :=
    snd (DataStorage.import_data (fun l => l) now' "mtg_export.json" false d2) in
  fst (DataStorage.import_data (fun l => l) now' "mtg_export.json" false d2)
    = true /\
  DataStorage.load_players d3 = DataStorage.load_players d /\
  DataStorage.load_history d3 = DataStorage.load_history d /\
  DataStorage.load_config d3 =
    <["last_saved"%string := CStr (now' 1%nat)]> (DataStorage.load_config d).
Proof.
  intros d d2 now' d3.
  apply (export_then_import (fun l => l) "t1" now' "mtg_export.json" d d2).
  reflexivity.
Defined.

(** X22.  An import in replace mode overwrites all three parts: a part
    that the imported document lacks is not kept but reset, the roster
    and the history to the empty list and the configuration to the
    defaults.  Backups and the other files are untouched.  When the file
    to import is missing or unreadable the import fails, in either mode,
    and changes nothing. *)
Theorem import_replace_resets_missing_parts set_order now path doc d :
  export_file d path = Doc doc ->
  let d' := snd (DataStorage.import_data set_order now path false d) in
  fst (DataStorage.import_data set_order now path false d) = true /\
  DataStorage.load_players d' = default [] (ex_players doc) /\
  DataStorage.load_history d' = default [] (ex_history doc) /\
  DataStorage.load_config d' =
    <["last_saved"%string := CStr (now 1%nat)]> (default ∅ (ex_config doc))
      ∪ DataStorage.default_config /\
  (ex_config doc = None -> forall k, k <> "last_saved"%string ->
     DataStorage.load_config d' !! k = DataStorage.default_config !! k) /\
  (backup_dirs d', web_sync_json d', sync_log_json d', export_files d') =
    (backup_dirs d, web_sync_json d, sync_log_json d, export_files d) /\
  (forall merge d0,
     export_file d0 path = Missing \/ export_file d0 path = Unreadable ->
     DataStorage.import_data set_order now path merge d0 = (false, d0)).
Proof.
  intros Hfile d'. subst d'. unfold DataStorage.import_data.
  rewrite Hfile. simpl.
  split; [done |]. split; [done |]. split; [done |]. split; [done |].
  split; [| split; [done |]].
  - intros -> k Hk. unfold DataStorage.load_config. simpl.
    rewrite lookup_union, lookup_insert_ne, lookup_empty by done.
    by destruct (DataStorage.default_config !! k).
  - intros merge d0 [E | E]; by rewrite E.
Qed.

Lemma import_replace_resets_missing_parts_witness :
  let doc := mkExportDoc (Some ["cyd"]%string) None None None None in
  let d :=
    set_export_files {[ "players_only.json"%string := Doc doc ]}
      (snd (DataStorage.save_history "t0" [mkHistoryEntry "t0" []]
              (snd (DataStorage.save_players "t0" ["ann"; "bob"]%string
                      empty_disk)))) in
  let now := fun _ : nat => "t1"%string in
  let d' :=
    snd (DataStorage.import_data (fun l => l) now "players_only.json" false d) in
  fst (DataStorage.import_data (fun l => l) now "players_only.json" false d)
    = true /\
  DataStorage.load_players d' = default [] (ex_players doc) /\
  DataStorage.load_history d' = default [] (ex_history doc) /\
  DataStorage.load_config d' =
    <["last_saved"%string := CStr (now 1%nat)]> (default ∅ (ex_config doc))
      ∪ DataStorage.default_config /\
  (ex_config doc = None -> forall k, k <> "last_saved"%string ->
     DataStorage.load_config d' !! k = DataStorage.default_config !! k) /\
  (backup_dirs d', web_sync_json d', sync_log_json d', export_files d') =
    (backup_dirs d, web_sync_json d, sync_log_json d, export_files d) /\
  (forall merge d0,
     export_file d0 "players_only.json" = Missing \/
     export_file d0 "players_only.json" = Unreadable ->
     DataStorage.import_data (fun l => l) now "players_only.json" merge d0
       = (false, d0)).
Proof.
  intros doc d now d'.
  apply (import_replace_resets_missing_parts (fun l => l) now
           "players_only.json" doc d).
  reflexivity.
Defined.

(** X23.  An import in merge mode, when [list(set(...))] lists each
    element of its argument once: the roster afterwards has no name
    twice and holds exactly the names of the old roster and of the
    imported one, names that differ only by case included side by side;
    the history file is not touched; every key of the imported
    configuration has the imported value and every other key, except
    [last_saved], keeps the value [load_config] gave before. *)
Theorem import_merge set_order now path doc d :
  (forall l, NoDup (set_order l) /\ forall x, x ∈ set_order l <-> x ∈ l) ->
  export_file d path = Doc doc ->
  let d' := snd (DataStorage.import_data set_order now path true d) in
  fst (DataStorage.import_data set_order now path true d) = true /\
  NoDup (DataStorage.load_players d') /\
  (forall x, x ∈ DataStorage.load_players d' <->
             x ∈ DataStorage.load_players d \/
             x ∈ default [] (ex_players doc)) /\
  history_json d' = history_json d /\
  (forall k v, default ∅ (ex_config doc) !! k = Some v ->
     k <> "last_saved"%string ->
     DataStorage.load_config d' !! k = Some v) /\
  (forall k, default ∅ (ex_config doc) !! k = None ->
     k <> "last_saved"%string ->
     DataStorage.load_config d' !! k = DataStorage.load_config d !! k).
Proof.
  intros Hset Hfile d'. subst d'. unfold DataStorage.import_data.
  rewrite Hfile. simpl.
  destruct (Hset (DataStorage.load_players d ++ default [] (ex_players doc)))
    as [Hnd Hin].
  split; [done |]. split; [done |]. split.
  { intros x. rewrite Hin. apply elem_of_app. }
  split; [done |].
  assert (Hcfg : forall k, k <> "last_saved"%string ->
    DataStorage.load_config
      (snd (DataStorage.save_config (now 1%nat)
         (default ∅ (ex_config doc) ∪
            DataStorage.load_config
              (snd (DataStorage.save_players (now 0%nat)
                 (set_order
                    (DataStorage.load_players d ++
                     default [] (ex_players doc))) d)))
         (snd (DataStorage.save_players (now 0%nat)
            (set_order
               (DataStorage.load_players d ++ default [] (ex_players doc)))
            d)))) !! k
    = (default ∅ (ex_config doc) ∪ DataStorage.load_config d) !! k).
  { intros k Hk. unfold DataStorage.load_config at 1. simpl.
    rewrite union_default_full.
    - by rewrite lookup_insert_ne.
    - rewrite dom_union_L.
      etrans; [apply (load_config_full d) |]. apply union_subseteq_r. }
  split.
  - intros k v Hv Hk. rewrite Hcfg by done. by apply lookup_union_Some_l.
  - intros k Hv Hk. rewrite Hcfg by done. by rewrite lookup_union_r.
Qed.

Lemma import_merge_witness :
  let doc :=
    mkExportDoc (Some ["bob"; "Bob"; "cyd"]%string)
      (Some {[ "max_pod_size"%string := CInt 6 ]}) None None None in
  let d :=
    set_export_files {[ "friends.json"%string := Doc doc ]}
      (snd (DataStorage.save_players "t0" ["ann"; "bob"]%string empty_disk)) in
  let now := fun _ : nat => "t1"%string in
  let d' :=
    snd (DataStorage.import_data remove_dups now "friends.json" true d) in
  fst (DataStorage.import_data remove_dups now "friends.json" true d) = true /\
  NoDup (DataStorage.load_players d') /\
  (forall x, x ∈ DataStorage.load_players d' <->
             x ∈ DataStorage.load_players d \/
             x ∈ default [] (ex_players doc)) /\
  history_json d' = history_json d /\
  (forall k v, default ∅ (ex_config doc) !! k = Some v ->
     k <> "last_saved"%string ->
     DataStorage.load_config d' !! k = Some v) /\
  (forall k, default ∅ (ex_config doc) !! k = None ->
     k <> "last_saved"%string ->
     DataStorage.load_config d' !! k = DataStorage.load_config d !! k).
Proof.
  intros doc d now d'.
  apply (import_merge remove_dups now "friends.json" doc d).
  - intros l. split; [apply NoDup_remove_dups | apply elem_of_remove_dups].
  - reflexivity.
Defined.

(** The merge above keeps "bob" and "Bob" side by side. *)
Example import_merge_keeps_case_variants :
  let doc :=
    mkExportDoc (Some ["bob"; "Bob"; "cyd"]%string) None None None None in
  let d :=
    set_export_files {[ "friends.json"%string := Doc doc ]}
      (snd (DataStorage.save_players "t0" ["ann"; "bob"]%string empty_disk)) in
  DataStorage.load_players
    (snd (DataStorage.import_data remove_dups (fun _ => "t1"%string)
            "friends.json" true d))
  = ["ann"; "bob"; "Bob"; "cyd"]%string.
Proof. reflexivity. Qed.

(** * [SyncManager] *)

Lemma trim_suffix {A} (l : list A) max_items :
  1 <= max_items ->
  (if len l >? max_items then py_slice_from l (- max_items) else l) =
    suffix (Z.to_nat max_items) l.
Proof.
  intros Hmax. unfold suffix, py_slice_from, slice_bound.
  destruct (Z.ltb_spec (- max_items) 0); [| lia].
  destruct (Z.gtb_spec (len l) max_items) as [Hgt | Hle]; unfold len in *.
  - f_equal. lia.
  - by replace (length l - Z.to_nat max_items)%nat with 0%nat by lia.
Qed.

Lemma log_sync_suffix now ty pc hc d :
  sync_log_json d <> Unreadable ->
  SyncManager._log_sync now ty pc hc d =
    set_sync_log_json
      (Doc (suffix 50 (log_entries d ++ [mkLogEntry now ty pc hc]))) d.
Proof.
  intros Hread. unfold SyncManager._log_sync, log_entries.
  destruct (sync_log_json d) as [| | logs]; [| done |].
  - by rewrite trim_suffix by lia.
  - by rewrite trim_suffix by lia.
Qed.

Lemma log_all_suffix calls :
  forall d,
    sync_log_json d <> Unreadable -> calls <> [] ->
    log_all d calls =
      set_sync_log_json (Doc (suffix 50 (log_entries d ++ calls))) d.
Proof.
  induction calls as [| e calls IH]; intros d Hread Hne; [done |].
  cbn [log_all foldl]. rewrite log_sync_suffix by done.
  destruct e as [now ty pc hc]. cbn [log_timestamp log_sync_type
    log_player_count log_history_count].
  destruct calls as [| e' calls]; [done |].
  fold (log_all (set_sync_log_json
          (Doc (suffix 50 (log_entries d ++ [mkLogEntry now ty pc hc]))) d)
          (e' :: calls)).
  rewrite IH by done. unfold log_entries at 1. simpl.
  unfold set_sync_log_json. simpl. f_equal. f_equal.
  change 50%nat with (Z.to_nat 50).
  rewrite suffix_app_suffix. by rewrite <- app_assoc.
Qed.

(** X24.  The sync log keeps the last 50 entries: starting from a log
    that is missing or readable, after any non-empty run of [_log_sync]
    calls the log holds the most recent 50 of the old entries followed by
    the new ones, in order, and no other file has changed.  An unreadable
    log is never repaired: every call leaves the disk as it is, and the
    entry is lost. *)
Theorem sync_log_keeps_last_fifty d calls :
  sync_log_json d <> Unreadable ->
  calls <> [] ->
  log_entries (log_all d calls) = suffix 50 (log_entries d ++ calls) /\
  len (log_entries (log_all d calls)) = Z.min 50 (len (log_entries d ++ calls)) /\
  last (log_entries (log_all d calls)) = last calls /\
  log_all d calls = set_sync_log_json (Doc (log_entries (log_all d calls))) d /\
  (forall d0 calls0, sync_log_json d0 = Unreadable -> log_all d0 calls0 = d0).
Proof.
  intros Hread Hne. rewrite log_all_suffix by done.
  assert (Hset : forall l d0,
    log_entries (set_sync_log_json (Doc l) d0) = l) by done.
  rewrite !Hset.
  split; [done |]. split; [| split; [| split; [done |]]].
  - unfold len. rewrite length_suffix. lia.
  - rewrite suffix_last by lia.
    destruct (list_snoc_inv calls Hne) as (front & c & ->).
    by rewrite app_assoc, !last_snoc.
  - intros d0 calls0 E. induction calls0 as [| e calls0 IH]; [done |].
    cbn [log_all foldl]. unfold SyncManager._log_sync at 2. rewrite E.
    exact IH.
Qed.

Lemma sync_log_keeps_last_fifty_witness :
  let e := mkLogEntry "t" "terminal_to_web" 4 1 in
  let calls := replicate 60 e in
  log_entries (log_all empty_disk calls)
    = suffix 50 (log_entries empty_disk ++ calls) /\
  len (log_entries (log_all empty_disk calls))
    = Z.min 50 (len (log_entries empty_disk ++ calls)) /\
  last (log_entries (log_all empty_disk calls)) = last calls /\
  log_all empty_disk calls =
    set_sync_log_json (Doc (log_entries (log_all empty_disk calls)))
      empty_disk /\
  (forall d0 calls0, sync_log_json d0 = Unreadable -> log_all d0 calls0 = d0).
Proof.
  intros e calls.
  apply (sync_log_keeps_last_fifty empty_disk calls).
  - discriminate.
  - discriminate.
Defined.

(** X25.  What [sync_terminal_to_web] wrote, [sync_web_to_terminal]
    installs: afterwards the storage loads the roster and the history
    that were synced, and the synced configuration completed by
    [last_saved] and the defaults.  Without a readable [web_sync.json]
    the call returns [False] and changes nothing. *)
Theorem sync_round_trip now now' players config history d d2 :
  web_sync_json d2 =
    web_sync_json
      (snd (SyncManager.sync_terminal_to_web now players config history d)) ->
  let d3 := snd (SyncManager.sync_web_to_terminal now' d2) in
  fst (SyncManager.sync_web_to_terminal now' d2) = true /\
  DataStorage.load_players d3 = players /\
  DataStorage.load_history d3 = history /\
  DataStorage.load_config d3 =
    <["last_saved"%string := CStr (now' 1%nat)]> config
      ∪ DataStorage.default_config /\
  (forall d0,
     web_sync_json d0 = Missing \/ web_sync_json d0 = Unreadable ->
     SyncManager.sync_web_to_terminal now' d0 = (false, d0)).
Proof.
  intros Hweb d3. subst d3.
  assert (Hw : web_sync_json d2 =
    Doc (mkWebDoc (Some players) (Some config) (Some history)
           (Some (now 0%nat)) (Some "terminal"%string) (Some "1.0"%string))).
  { rewrite Hweb. unfold SyncManager.sync_terminal_to_web,
      SyncManager._log_sync. simpl.
    by destruct (sync_log_json d). }
  unfold SyncManager.sync_web_to_terminal. rewrite Hw. simpl.
  assert (Hkeep : forall n ty pc hc d0,
    (players_json (SyncManager._log_sync n ty pc hc d0),
     config_json (SyncManager._log_sync n ty pc hc d0),
     history_json (SyncManager._log_sync n ty pc hc d0)) =
    (players_json d0, config_json d0, history_json d0)).
  { intros. unfold SyncManager._log_sync. by destruct (sync_log_json d0). }
  split; [done |].
  match goal with
  | |- context [SyncManager._log_sync ?n ?ty ?pc ?hc ?d0] =>
      pose proof (Hkeep n ty pc hc d0) as Hk;
      set (dl := SyncManager._log_sync n ty pc hc d0) in *
  end.
  injection Hk as Hp Hc Hh.
  unfold DataStorage.load_players, DataStorage.load_history,
    DataStorage.load_config. rewrite Hp, Hc, Hh. simpl.
  split; [done |]. split; [done |]. split; [done |].
  intros d0 [E | E]; unfold SyncManager.sync_web_to_terminal; by rewrite E.
Qed.

Lemma sync_round_trip_witness :
  let now := fun _ : nat => "t0"%string in
  let now' := fun _ : nat => "t1"%string in
  let players := ["ann"; "bob"]%string in
  let config : gmap string cfgval := {[ "max_pod_size"%string := CInt 6 ]} in
  let history := [mkHistoryEntry "t" []] in
  let d2 :=
    snd (SyncManager.sync_terminal_to_web now players config history
           empty_disk) in
  let d3 := snd (SyncManager.sync_web_to_terminal now' d2) in
  fst (SyncManager.sync_web_to_terminal now' d2) = true /\
  DataStorage.load_players d3 = players /\
  DataStorage.load_history d3 = history /\
  DataStorage.load_config d3 =
    <["last_saved"%string := CStr (now' 1%nat)]> config
      ∪ DataStorage.default_config /\
  (forall d0,
     web_sync_json d0 = Missing \/ web_sync_json d0 = Unreadable ->
     SyncManager.sync_web_to_terminal now' d0 = (false, d0)).
Proof.
  intros now now' players config history d2 d3.
  apply (sync_round_trip now now' players config history empty_disk d2).
  reflexivity.
Defined.

(** X26.  [get_sync_status] never returns for an object built by
    [__init__]: the constructor sets [terminal_data_file], the method reads
    [terminal_sync_file], and the read raises [AttributeError] whatever
    the data directory and the files are. *)
Theorem get_sync_status_raises data_dir terminal_exists d :
  SyncManager.init data_dir !! "terminal_data_file"%string =
    Some (SyncManager.path_join data_dir "terminal_sync.json") /\
  SyncManager.init data_dir !! "terminal_sync_file"%string = None /\
  SyncManager.get_sync_status (SyncManager.init data_dir) terminal_exists d =
    SyncManager.AttributeError "terminal_sync_file".
Proof.
  assert (H1 : SyncManager.init data_dir !! "web_data_file"%string =
    Some (SyncManager.path_join data_dir "web_sync.json")).
  { unfold SyncManager.init. by simplify_map_eq. }
  assert (H2 : SyncManager.init data_dir !! "terminal_sync_file"%string = None).
  { unfold SyncManager.init. by simplify_map_eq. }
  split; [unfold SyncManager.init; by simplify_map_eq |].
  split; [done |].
  unfold SyncManager.get_sync_status. by rewrite H1, H2.
Qed.

(** * [TerminalInterface] *)

Lemma randomize_first shuffle fuel now t m keep max_items players history d :
  (forall l, shuffle l ≡ₚ l) -> players <> [] -> 3 <= m ->
  let pods := fst (candidate (shuffle players) m (min_pods (len players) m)) in
  Terminal.randomize shuffle fuel now t m keep max_items players history d =
    (Returns pods, history ++ [pods],
     if keep then Terminal.save_to_history_disk now max_items pods d else d).
Proof.
  intros Hsh Hne Hm pods. unfold Terminal.randomize.
  by rewrite (create_pods_first shuffle fuel history players t m Hsh Hne Hm).
Qed.

Lemma len_ge_3_ne {A} (l : list A) : 3 <= len l -> l <> [].
Proof. intros H ->. unfold len in H. simpl in H. lia. Qed.

(** X27.  [quick_randomize] with at least three players, a maximum pod
    size of 5 or more and history kept with [max_history_items >= 1]:
    the pods hold a permutation of the roster, each has between 3 and
    [max_pod_size] names, the randomizer's log gains them, and the stored
    history ends with an entry holding exactly these pods and stays within
    [max_history_items]; roster and configuration files are untouched.
    With history not kept the disk is unchanged.  With fewer than three
    players nothing happens at all. *)
Theorem quick_randomize_effect shuffle fuel now default_pod_size max_pod_size
    max_history_items players history d :
  (forall l, shuffle l ≡ₚ l) ->
  3 <= len players ->
  5 <= max_pod_size ->
  1 <= max_history_items ->
  exists pods d',
    Terminal.quick_randomize shuffle fuel now default_pod_size max_pod_size
      true max_history_items players history d
      = (Some (Returns pods), history ++ [pods], d') /\
    Terminal.quick_randomize shuffle fuel now default_pod_size max_pod_size
      false max_history_items players history d
      = (Some (Returns pods), history ++ [pods], d) /\
    all_players pods ≡ₚ players /\
    Forall (fun p => 3 <= size p <= max_pod_size) pods /\
    last (DataStorage.load_history d') = Some (mkHistoryEntry (now 0%nat) pods) /\
    len (DataStorage.load_history d') =
      Z.min max_history_items (len (DataStorage.load_history d) + 1) /\
    (players_json d', config_json d') = (players_json d, config_json d) /\
    (forall few history0 d0 keep,
       len few < 3 ->
       Terminal.quick_randomize shuffle fuel now default_pod_size max_pod_size
         keep max_history_items few history0 d0 = (None, history0, d0)).
Proof.
  intros Hsh Hn Hmax Hitems.
  pose proof (len_ge_3_ne players Hn) as Hne.
  pose proof (shuffle_ne shuffle players Hsh Hne) as Hne'.
  pose proof (shuffle_len shuffle players Hsh) as Hlen.
  set (pods := fst (candidate (shuffle players) max_pod_size
                      (min_pods (len players) max_pod_size))).
  exists pods, (Terminal.save_to_history_disk now max_history_items pods d).
  unfold Terminal.quick_randomize.
  destruct (Z.ltb_spec (len players) 3); [lia |].
  rewrite !(randomize_first shuffle fuel now default_pod_size max_pod_size _
              max_history_items players history d Hsh Hne ltac:(lia)).
  fold pods. split; [done |]. split; [done |].
  destruct (first_candidate_accepted (shuffle players) max_pod_size Hne'
              ltac:(lia)) as [Hacc _].
  rewrite Hlen in Hacc.
  split.
  { assert (Hcov : all_players pods = shuffle players).
    { apply accepted_iff_covers. unfold accepted. apply andb_true_iff.
      pose proof (min_pods_range (len players) max_pod_size ltac:(lia)
                    ltac:(lia)).
      split; [apply negb_true_iff, Z.eqb_neq; lia |].
      rewrite Hlen. by apply Z.geb_le. }
    by rewrite Hcov. }
  split.
  { destruct (primary_path_sizes (shuffle players) max_pod_size Hne'
                ltac:(lia)) as [_ Hiff].
    rewrite Hlen in Hiff. apply Hiff. by apply three_pods_fit. }
  assert (Hload :
    DataStorage.load_history
      (Terminal.save_to_history_disk now max_history_items pods d) =
    suffix (Z.to_nat max_history_items)
      (DataStorage.load_history d ++ [mkHistoryEntry (now 0%nat) pods])).
  { unfold Terminal.save_to_history_disk. simpl.
    by rewrite save_to_history_suffix. }
  rewrite Hload. split; [| split; [| split; [done |]]].
  - rewrite suffix_last by lia. by rewrite last_snoc.
  - unfold len. rewrite length_suffix, length_app. simpl. lia.
  - intros few history0 d0 keep Hfew.
    by destruct (Z.ltb_spec (len few) 3); [| lia].
Qed.

Lemma quick_randomize_effect_witness :
  let now := fun _ : nat => "t"%string in
  let players := ["ann"; "bob"; "cyd"; "dan"; "eve"; "fay"; "gus"]%string in
  exists pods d',
    Terminal.quick_randomize reverse 0 now 4 8 true 50 players [] empty_disk
      = (Some (Returns pods), [] ++ [pods], d') /\
    Terminal.quick_randomize reverse 0 now 4 8 false 50 players [] empty_disk
      = (Some (Returns pods), [] ++ [pods], empty_disk) /\
    all_players pods ≡ₚ players /\
    Forall (fun p => 3 <= size p <= 8) pods /\
    last (DataStorage.load_history d') = Some (mkHistoryEntry (now 0%nat) pods) /\
    len (DataStorage.load_history d') =
      Z.min 50 (len (DataStorage.load_history empty_disk) + 1) /\
    (players_json d', config_json d') =
      (players_json empty_disk, config_json empty_disk) /\
    (forall few history0 d0 keep,
       len few < 3 ->
       Terminal.quick_randomize reverse 0 now 4 8 keep 50 few history0 d0
         = (None, history0, d0)).
Proof.
  intros now players.
  apply (quick_randomize_effect reverse 0 now 4 8 50 players [] empty_disk).
  - intros l. apply reverse_Permutation.
  - vm_compute. discriminate.
  - lia.
  - lia.
Defined.

(** X28.  With a maximum pod size of 3 or more, the answer given to the
    "Target pod size" prompt changes nothing: whatever is typed, a number
    or not, [create_pods] of the menu returns the same pods, logs the same
    and stores the same as [quick_randomize]. *)
Theorem menu_answer_is_irrelevant shuffle fuel now answer default_pod_size
    max_pod_size keep max_history_items players history d :
  (forall l, shuffle l ≡ₚ l) ->
  3 <= max_pod_size ->
  Terminal.create_pods_menu shuffle fuel now answer default_pod_size
    max_pod_size keep max_history_items players history d =
  Terminal.quick_randomize shuffle fuel now default_pod_size
    max_pod_size keep max_history_items players history d.
Proof.
  intros Hsh Hmax.
  unfold Terminal.create_pods_menu, Terminal.quick_randomize.
  destruct (Z.ltb_spec (len players) 3); [done |].
  pose proof (len_ge_3_ne players ltac:(lia)) as Hne.
  by rewrite !(randomize_first shuffle fuel now _ max_pod_size keep
                 max_history_items players history d Hsh Hne Hmax).
Qed.

Lemma menu_answer_is_irrelevant_witness :
  let now := fun _ : nat => "t"%string in
  let players := ["ann"; "bob"; "cyd"; "dan"; "eve"; "fay"]%string in
  Terminal.create_pods_menu reverse 0 now (Some 3) 4 8 true 50 players []
    empty_disk =
  Terminal.quick_randomize reverse 0 now 4 8 true 50 players [] empty_disk.
Proof.
  intros now players.
  apply (menu_answer_is_irrelevant reverse 0 now (Some 3) 4 8 true 50
           players [] empty_disk).
  - intros l. apply reverse_Permutation.
  - lia.
Defined.

(** X29.  When [history.json] is missing or unreadable, [save_to_history]
    stores a history holding only the new entry: what an unreadable file
    held is not recovered, and the next load succeeds. *)
Theorem save_to_history_replaces_unreadable now max_items pods d :
  history_json d = Missing \/ history_json d = Unreadable ->
  0 <= max_items ->
  DataStorage.load_history
    (Terminal.save_to_history_disk now max_items pods d)
    = [mkHistoryEntry (now 0%nat) pods] /\
  history_json (Terminal.save_to_history_disk now max_items pods d)
    = Doc (mkHistoryDoc (Some [mkHistoryEntry (now 0%nat) pods]) (Some 1)
             (Some (now 1%nat))).
Proof.
  intros Hfile Hmax.
  assert (Hold : DataStorage.load_history d = []).
  { unfold DataStorage.load_history. by destruct Hfile as [-> | ->]. }
  assert (Hnew : save_to_history (now 0%nat) max_items [] pods
                 = [mkHistoryEntry (now 0%nat) pods]).
  { unfold save_to_history. simpl.
    destruct (Z.gtb_spec (len [mkHistoryEntry (now 0%nat) pods]) max_items)
      as [Hgt | Hle]; [| done].
    assert (max_items = 0) as -> by (unfold len in Hgt; simpl in Hgt; lia).
    done. }
  unfold Terminal.save_to_history_disk. rewrite Hold, Hnew. done.
Qed.

Lemma save_to_history_replaces_unreadable_witness :
  let now := fun _ : nat => "t"%string in
  let d := set_history_json Unreadable empty_disk in
  DataStorage.load_history (Terminal.save_to_history_disk now 50 [] d)
    = [mkHistoryEntry (now 0%nat) []] /\
  history_json (Terminal.save_to_history_disk now 50 [] d)
    = Doc (mkHistoryDoc (Some [mkHistoryEntry (now 0%nat) []]) (Some 1)
             (Some (now 1%nat))).
Proof.
  intros now d.
  apply (save_to_history_replaces_unreadable now 50 [] d).
  - by right.
  - lia.
Defined.

(** X30.  The settings menu stores a maximum pod size between 4 and 8 and
    a default pod size between 3 and 8, whatever number is typed (the
    default may exceed the maximum).  With sizes set through the menu
    [create_pods] never raises: for every roster and every fuel it returns
    pods that hold a permutation of the roster, none larger than the
    maximum. *)
Theorem settings_keep_create_pods_safe shuffle fuel history players a b :
  (forall l, shuffle l ≡ₚ l) ->
  let m := Terminal.set_max_pod_size a in
  let t := Terminal.set_default_pod_size b in
  4 <= m <= 8 /\
  3 <= t <= 8 /\
  exists pods,
    fst (create_pods shuffle fuel history players t m) = Returns pods /\
    all_players pods ≡ₚ players /\
    Forall (fun p => 1 <= size p <= m) pods.
Proof.
  intros Hsh m t.
  assert (Hm : 4 <= m <= 8) by (unfold m, Terminal.set_max_pod_size; lia).
  assert (Ht : 3 <= t <= 8) by (unfold t, Terminal.set_default_pod_size; lia).
  split; [done |]. split; [done |].
  destruct (decide (players = [])) as [-> | Hne]; [by exists [] |].
  rewrite (create_pods_first shuffle fuel history players t m Hsh Hne
             ltac:(lia)).
  eexists. split; [done |].
  pose proof (shuffle_ne shuffle players Hsh Hne) as Hne'.
  pose proof (shuffle_len shuffle players Hsh) as Hlen.
  destruct (first_candidate_accepted (shuffle players) m Hne' ltac:(lia))
    as [Hacc _].
  destruct (primary_path_sizes (shuffle players) m Hne' ltac:(lia))
    as [Hall _].
  rewrite Hlen in *. split.
  - assert (Hcov : all_players
              (fst (candidate (shuffle players) m (min_pods (len players) m)))
            = shuffle players).
    { apply accepted_iff_covers. unfold accepted. apply andb_true_iff.
      pose proof (len_pos_of_ne players Hne).
      pose proof (min_pods_range (len players) m ltac:(lia) ltac:(lia)).
      split; [apply negb_true_iff, Z.eqb_neq; lia |].
      rewrite Hlen. by apply Z.geb_le. }
    by rewrite Hcov.
  - eapply Forall_impl; [exact Hall |]. by intros p [_ ?].
Qed.

Lemma settings_keep_create_pods_safe_witness :
  let players := ["ann"; "bob"; "cyd"; "dan"; "eve"]%string in
  let m := Terminal.set_max_pod_size 0 in
  let t := Terminal.set_default_pod_size 99 in
  4 <= m <= 8 /\
  3 <= t <= 8 /\
  exists pods,
    fst (create_pods reverse 0 [] players t m) = Returns pods /\
    all_players pods ≡ₚ players /\
    Forall (fun p => 1 <= size p <= m) pods.
Proof.
  intros players.
  apply (settings_keep_create_pods_safe reverse 0 [] players 0 99).
  intros l. apply reverse_Permutation.
Defined.
